(** * rodaine/table: a shallow embedding of the table package and its specification

    The Go package keeps a header ([]string), a slice of rows ([][]string) and
    some configuration in a struct, and offers appending, rendering, sorting,
    transposing and exporting.  The embedding below follows the source
    function by function:

    - a Go [int] is a [Z] and the arithmetic the code performs on
      caller-supplied integers wraps at 64 bits ([GoInt]);
    - slice indices and lengths that only come from [len] and [range] are
      [nat];
    - a run-time panic (index out of range, division by zero, negative
      [make]) is [None]; a returned [error] is a value of type [error];
    - the io.Writer is external: an operation returns the chunks it hands to
      [Writer.Write], one per call, in order;
    - functions of Go's standard library that the package calls (fmt,
      strings, strconv, sort, encoding/json) are modelled next to their use,
      each with the part of its contract that the package relies on. *)

From Stdlib Require Import ZArith String Ascii Lia.
From stdpp Require Import base option list sorting gmap strings.

Local Open Scope Z_scope.

(** ** Go's [int] on a 64-bit platform *)

Module GoInt.

Definition min_int : Z := - 2 ^ 63.
Definition max_int : Z := 2 ^ 63 - 1.

(** Two's-complement wrap-around of a mathematical integer. *)
Definition wrap (z : Z) : Z := (z + 2 ^ 63) mod 2 ^ 64 - 2 ^ 63.

Definition in_range (z : Z) : Prop := min_int <= z <= max_int.

Definition add (a b : Z) : Z := wrap (a + b).
Definition sub (a b : Z) : Z := wrap (a - b).
Definition neg (a : Z) : Z := wrap (- a).

(** [a / b]: truncated division; a zero divisor panics. *)
Definition quo (a b : Z) : option Z :=
  if b =? 0 then None else Some (wrap (Z.quot a b)).

End GoInt.

(** ** The parts of package strings that the table uses *)

Module GoStrings.

(** The line-feed byte, Go's ["\n"]. *)
Definition LF : ascii := "010"%char.

(** [strings.Count(s, sep)] for a one-byte separator. *)
Fixpoint Count (s : string) (sep : ascii) : nat :=
  match s with
  | EmptyString => 0%nat
  | String c rest =>
      if Ascii.eqb c sep then S (Count rest sep) else Count rest sep
  end.

(** [strings.Split(s, sep)] for a one-byte separator: the pieces between
    the separators, [Count s sep + 1] of them. *)
Fixpoint Split (s : string) (sep : ascii) : list string :=
  match s with
  | EmptyString => [EmptyString]
  | String c rest =>
      if Ascii.eqb c sep then EmptyString :: Split rest sep
      else match Split rest sep with
           | [] => [String c EmptyString]
           | piece :: pieces => String c piece :: pieces
           end
  end.

(** [strings.Repeat(s, n)]; a negative count panics. *)
Fixpoint repeat_nat (s : string) (n : nat) : string :=
  match n with
  | O => EmptyString
  | S n' => s +:+ repeat_nat s n'
  end.

Definition Repeat (s : string) (n : Z) : option string :=
  if n <? 0 then None else Some (repeat_nat s (Z.to_nat n)).

(** [strings.ReplaceAll(s, old, "")] for a one-byte [old]. *)
Fixpoint RemoveAll (s : string) (old : ascii) : string :=
  match s with
  | EmptyString => EmptyString
  | String c rest =>
      if Ascii.eqb c old then RemoveAll rest old
      else String c (RemoveAll rest old)
  end.

End GoStrings.

(** ** The part of package fmt that the table uses *)

Module Fmt.

Fixpoint join (sep : string) (l : list string) : string :=
  match l with
  | [] => EmptyString
  | [x] => x
  | x :: rest => x +:+ sep +:+ join sep rest
  end.

(** [fmt.Sprintf(format, args...)] for string arguments and formats made
    of the verb [%s] and literal text, which is all [Print] builds.  A verb
    without an argument prints [%!s(MISSING)]; arguments left over are
    reported at the end. *)
Fixpoint Sprintf (format : string) (args : list string) : string :=
  match format with
  | EmptyString =>
      match args with
      | [] => EmptyString
      | _ => "%!(EXTRA " +:+ join ", " (map (fun a => "string=" +:+ a) args) +:+ ")"
      end
  | String "%" (String "s" rest) =>
      match args with
      | a :: args' => a +:+ Sprintf rest args'
      | [] => "%!s(MISSING)" +:+ Sprintf rest []
      end
  | String c rest => String c (Sprintf rest args)
  end.

End Fmt.

(** ** The part of package unicode/utf8 behind [string([]rune{r})] *)

Module Utf8.

Definition byte_of (z : Z) : ascii := ascii_of_N (Z.to_N z).

(** U+FFFD, what an invalid rune is converted to. *)
Definition RuneError : string :=
  String (byte_of 239) (String (byte_of 191) (String (byte_of 189) EmptyString)).

(** The UTF-8 encoding of one rune. *)
Definition EncodeRune (r : Z) : string :=
  if (r <? 0) || (1114111 <? r) || ((55296 <=? r) && (r <=? 57343)) then RuneError
  else if r <=? 127 then String (byte_of r) EmptyString
  else if r <=? 2047 then
    String (byte_of (Z.lor 192 (Z.shiftr r 6)))
      (String (byte_of (Z.lor 128 (Z.land r 63))) EmptyString)
  else if r <=? 65535 then
    String (byte_of (Z.lor 224 (Z.shiftr r 12)))
      (String (byte_of (Z.lor 128 (Z.land (Z.shiftr r 6) 63)))
         (String (byte_of (Z.lor 128 (Z.land r 63))) EmptyString))
  else
    String (byte_of (Z.lor 240 (Z.shiftr r 18)))
      (String (byte_of (Z.lor 128 (Z.land (Z.shiftr r 12) 63)))
         (String (byte_of (Z.lor 128 (Z.land (Z.shiftr r 6) 63)))
            (String (byte_of (Z.lor 128 (Z.land r 63))) EmptyString))).

End Utf8.

(** ** The part of package sort that the table uses

    [sort.SliceStable(x, less)] runs [insertionSort] on blocks of 20 elements
    and merges neighbouring blocks with [symMerge].  On a slice of at most 20
    elements it is exactly [insertionSort(data, 0, n)], transcribed below with
    its [Less] and [Swap] calls on indices.  On longer slices the library
    promises the stably sorted slice when [less] is a strict weak order; that
    slice is unique, and it is the one insertion sort over the whole slice
    yields (lemma [SliceStable_meets_contract]), so [SliceStable] below is
    insertion sort for every length. *)

Module GoSort.
Section Stable.
Context {A : Type}.

(** The [less] closure: it reads the slice being sorted at two indices and
    may panic. *)
Variable less : list A -> nat -> nat -> option bool.

(** [data[i], data[j] = data[j], data[i]] *)
Definition Swap (data : list A) (i j : nat) : option (list A) :=
  x ← data !! i; y ← data !! j; Some (<[i := y]> (<[j := x]> data)).

(** [for j := i; j > a && less(j, j-1); j-- { swap(j, j-1) }] *)
Fixpoint sift (data : list A) (a j : nat) : option (list A) :=
  match j with
  | O => Some data
  | S j' =>
      if decide (a < j)%nat then
        b ← less data j j';
        if b : bool then data' ← Swap data j j'; sift data' a j'
        else Some data
      else Some data
  end.

(** [for i := ...; i < b; i++ { sift }], with [n] iterations left. *)
Fixpoint sift_all (data : list A) (a i n : nat) : option (list A) :=
  match n with
  | O => Some data
  | S n' => data' ← sift data a i; sift_all data' a (S i) n'
  end.

Definition insertionSort (data : list A) (a b : nat) : option (list A) :=
  sift_all data a (a + 1) (b - (a + 1)).

Definition SliceStable (data : list A) : option (list A) :=
  insertionSort data 0 (length data).

End Stable.
End GoSort.

(** ** The part of package strconv that the comparators use *)

Module Strconv.

(** [strconv.ParseBool]: [None] is the syntax error. *)
Definition ParseBool (str : string) : option bool :=
  if decide (str ∈ ["1"; "t"; "T"; "TRUE"; "true"; "True"]) then Some true
  else if decide (str ∈ ["0"; "f"; "F"; "FALSE"; "false"; "False"]) then Some false
  else None.

End Strconv.

(** ** The table *)

Definition Formatter : Type := string -> list string -> string.
Definition WidthFunc : Type := string -> Z.
Definition ComparisonFunc : Type := string -> string -> Z.

Record SortCriterion : Type := {
  ColumnIndex : Z;
  Compare : ComparisonFunc
}.

(** The struct, without its Writer.  A [nil] formatter is [None]; [Width] is
    taken to be set, as [New] does. *)
Record table : Type := {
  FirstColumnFormatter : option Formatter;
  HeaderFormatter : option Formatter;
  StandoutFormatter : option Formatter;
  Padding : Z;
  Width : WidthFunc;
  HeaderSeparatorRune : Z;
  PrintHeaders : bool;
  header : list string;
  rows : list (list string);
  widths : list Z
}.

Definition set_header (t : table) (h : list string) : table :=
  {| FirstColumnFormatter := FirstColumnFormatter t;
     HeaderFormatter := HeaderFormatter t;
     StandoutFormatter := StandoutFormatter t;
     Padding := Padding t; Width := Width t;
     HeaderSeparatorRune := HeaderSeparatorRune t;
     PrintHeaders := PrintHeaders t;
     header := h; rows := rows t; widths := widths t |}.

Definition set_rows (t : table) (r : list (list string)) : table :=
  {| FirstColumnFormatter := FirstColumnFormatter t;
     HeaderFormatter := HeaderFormatter t;
     StandoutFormatter := StandoutFormatter t;
     Padding := Padding t; Width := Width t;
     HeaderSeparatorRune := HeaderSeparatorRune t;
     PrintHeaders := PrintHeaders t;
     header := header t; rows := r; widths := widths t |}.

Definition set_widths (t : table) (w : list Z) : table :=
  {| FirstColumnFormatter := FirstColumnFormatter t;
     HeaderFormatter := HeaderFormatter t;
     StandoutFormatter := StandoutFormatter t;
     Padding := Padding t; Width := Width t;
     HeaderSeparatorRune := HeaderSeparatorRune t;
     PrintHeaders := PrintHeaders t;
     header := header t; rows := rows t; widths := w |}.

(** The errors the package returns. *)
Inductive error : Type :=
  | ErrInvalidColumnIndex (n : Z) (len : nat)
      (* "invalid column index %d (len %d)" *)
  | ErrInvalidKeyColumn
      (* "invalid keyColumn index" *)
  | ErrKeyColumnOutOfRange
      (* "keyColumn index out of range in row" *)
  | ErrWriter (msg : string)
      (* whatever Writer.Write returned *).

Definition WithPadding (t : table) (p : Z) : table :=
  let p := if p <? 0 then 0 else p in
  {| FirstColumnFormatter := FirstColumnFormatter t;
     HeaderFormatter := HeaderFormatter t;
     StandoutFormatter := StandoutFormatter t;
     Padding := p; Width := Width t;
     HeaderSeparatorRune := HeaderSeparatorRune t;
     PrintHeaders := PrintHeaders t;
     header := header t; rows := rows t; widths := widths t |}.

(** The package-level defaults, which are variables a program may assign. *)
Record defaults : Type := {
  DefaultPadding : Z;
  DefaultHeaderFormatter : option Formatter;
  DefaultFirstColumnFormatter : option Formatter;
  DefaultStandoutFormatter : option Formatter;
  DefaultWidthFunc : WidthFunc;
  DefaultPrintHeaders : bool
}.

Definition max (i1 i2 : nat) : nat := if (i2 <? i1)%nat then i1 else i2.

Definition safeOffset (sarr : list string) (idx : nat) : string :=
  if decide (length sarr <= idx)%nat then EmptyString
  else match sarr !! idx with Some s => s | None => EmptyString end.

Section Values.
(** The values handed to [New] and [AddRow] are [interface{}]; the package
    only ever takes their [fmt.Sprint]. *)
Context {value : Type} (Sprint : value -> string).

Definition New (d : defaults) (columnHeaders : list value) : table :=
  WithPadding
    {| FirstColumnFormatter := DefaultFirstColumnFormatter d;
       HeaderFormatter := DefaultHeaderFormatter d;
       StandoutFormatter := DefaultStandoutFormatter d;
       Padding := 0; Width := DefaultWidthFunc d;
       HeaderSeparatorRune := 0;
       PrintHeaders := DefaultPrintHeaders d;
       header := map Sprint columnHeaders; rows := []; widths := [] |}
    (DefaultPadding d).

(** The first loop of [AddRowAsArray]. *)
Definition maxNumNewlines (vals : list value) : nat :=
  foldl (fun m val => max (GoStrings.Count (Sprint val) GoStrings.LF) m) 0%nat vals.

(** [for j, val := range vals { if j >= len(t.header) { break }; row[j] = ... }] *)
Fixpoint fillRow (C i j : nat) (vals : list value) (row : list string) : list string :=
  match vals with
  | [] => row
  | val :: rest =>
      if decide (C <= j)%nat then row
      else
        let v := GoStrings.Split (Sprint val) GoStrings.LF in
        fillRow C i (S j) rest (<[j := safeOffset v i]> row)
  end.

(** [for i := 0; i <= maxNumNewlines; i++ { ...; t.rows = append(t.rows, row) }],
    with [n] iterations left. *)
Fixpoint appendLines (C i n : nat) (vals : list value) (rs : list (list string))
  : list (list string) :=
  match n with
  | O => rs
  | S n' =>
      let row := fillRow C i 0 vals (replicate C EmptyString) in
      appendLines C (S i) n' vals (rs ++ [row])
  end.

Definition AddRowAsArray (t : table) (vals : list value) : table :=
  let m := maxNumNewlines vals in
  set_rows t (appendLines (length (header t)) 0 (S m) vals (rows t)).

Definition AddRow (t : table) (vals : list value) : table :=
  AddRowAsArray t vals.

End Values.

Definition AddHeader (t : table) (col : string) : table :=
  set_header t (header t ++ [col]).

Definition AddHeaders (t : table) (cols : list string) : table :=
  set_header t (header t ++ cols).

Definition AddHeadersAsArray (t : table) (cols : list string) : table :=
  foldl (fun t col => set_header t (header t ++ [col])) t cols.

(** [SetRows]: a row longer than the header is cut to [row[:headerLength]],
    a shorter one is stored as it is. *)
Definition SetRows (t : table) (rs : list (list string)) : table :=
  let headerLength := length (header t) in
  set_rows t
    (foldl (fun acc row =>
              if decide (headerLength < length row)%nat
              then acc ++ [take headerLength row]
              else acc ++ [row]) [] rs).

(** A store [s[i] = v] into a slice: out of range it panics. *)
Definition store {A : Type} (s : list A) (i : nat) (v : A) : option (list A) :=
  if decide (i < length s)%nat then Some (<[i := v]> s) else None.

(** *** Rendering *)

(** [for i, v := range cells { if w := t.Width(v) + t.Padding; w > t.widths[i] { t.widths[i] = w } }],
    from index [i] on. *)
Fixpoint widen (t : table) (i : nat) (cells : list string) (ws : list Z)
  : option (list Z) :=
  match cells with
  | [] => Some ws
  | v :: rest =>
      let w := GoInt.add (Width t v) (Padding t) in
      cur ← ws !! i;
      ws' ← (if cur <? w then store ws i w else Some ws);
      widen t (S i) rest ws'
  end.

(** [for _, row := range t.rows { ... }] *)
Fixpoint widenRows (t : table) (rs : list (list string)) (ws : list Z)
  : option (list Z) :=
  match rs with
  | [] => Some ws
  | row :: rest => ws' ← widen t 0 row ws; widenRows t rest ws'
  end.

Definition calculateWidths (t : table) : option table :=
  let ws := replicate (length (header t)) 0 in
  ws ← widenRows t (rows t) ws;
  ws ← widen t 0 (header t) ws;
  Some (set_widths t ws).

Definition lenOffset (t : table) (s : string) (w : Z) : string :=
  let l := GoInt.sub w (Width t s) in
  if l <=? 0 then EmptyString
  else GoStrings.repeat_nat " " (Z.to_nat l).

(** [for i, s := range row { out[i] = s + t.lenOffset(s, widths[i]) }], from
    index [i] on. *)
Fixpoint applyWidthsFrom (t : table) (i : nat) (row : list string) (ws : list Z)
  : option (list string) :=
  match row with
  | [] => Some []
  | s :: rest =>
      w ← ws !! i;
      out ← applyWidthsFrom t (S i) rest ws;
      Some ((s +:+ lenOffset t s w) :: out)
  end.

Definition applyWidths (t : table) (row : list string) (ws : list Z)
  : option (list string) :=
  applyWidthsFrom t 0 row ws.

(** What [printHeader] writes. *)
Definition printHeader (t : table) (format : string) : option (list string) :=
  vals ← applyWidths t (header t) (widths t);
  match HeaderFormatter t with
  | Some f => Some [f format vals]
  | None => Some [Fmt.Sprintf format vals]
  end.

(** [for index, headerName := range t.header { ... }] of [printHeaderSeparator]. *)
Fixpoint separatorCells (t : table) (separatorCellWidth : Z) (hs : list string)
  : option (list string) :=
  match hs with
  | [] => Some []
  | headerName :: rest =>
      let headerCellWidth := Width t headerName in
      repeatCharTimes ← GoInt.quo headerCellWidth separatorCellWidth;
      separator ← GoStrings.Repeat (Utf8.EncodeRune (HeaderSeparatorRune t)) repeatCharTimes;
      more ← separatorCells t separatorCellWidth rest;
      Some (separator :: more)
  end.

Definition printHeaderSeparator (t : table) (format : string) : option (list string) :=
  let separatorCellWidth := Width t (Utf8.EncodeRune (HeaderSeparatorRune t)) in
  separators ← separatorCells t separatorCellWidth (header t);
  vals ← applyWidths t separators (widths t);
  match HeaderFormatter t with
  | Some f => Some [f format vals]
  | None => Some [Fmt.Sprintf format vals]
  end.

Definition printRow (t : table) (format : string) (row : list string) (alternate : bool)
  : option (list string) :=
  vals ← applyWidths t row (widths t);
  vals ← match FirstColumnFormatter t with
         | Some f => v0 ← vals !! 0%nat; store vals 0 (f "%s" [v0])
         | None => Some vals
         end;
  let vals := match alternate, StandoutFormatter t with
              | true, Some f => map (fun v => f "%s" [v]) vals
              | _, _ => vals
              end in
  Some [Fmt.Sprintf format vals].

(** [for i, row := range t.rows { t.printRow(format, row, i%2 == 1) }] *)
Fixpoint printRows (t : table) (format : string) (i : nat) (rs : list (list string))
  : option (list string) :=
  match rs with
  | [] => Some []
  | row :: rest =>
      out ← printRow t format row (i mod 2 =? 1)%nat;
      more ← printRows t format (S i) rest;
      Some (out ++ more)
  end.

(** [Print]: the table with its fresh widths, and the chunks written. *)
Definition Print (t : table) : option (table * list string) :=
  let format := GoStrings.repeat_nat "%s" (length (header t)) +:+ String GoStrings.LF EmptyString in
  t ← calculateWidths t;
  head ← (if PrintHeaders t then
            h ← printHeader t format;
            s ← (if HeaderSeparatorRune t =? 0 then Some []
                 else printHeaderSeparator t format);
            Some (h ++ s)
          else Some []);
  body ← printRows t format 0 (rows t);
  Some (t, head ++ body).

(** *** Sorting *)

(** [cmpFn(t.rows[i][columnIndex], t.rows[j][columnIndex]) < 0] *)
Definition lessBy (columnIndex : nat) (cmpFn : ComparisonFunc)
    (rs : list (list string)) (i j : nat) : option bool :=
  ri ← rs !! i; a ← ri !! columnIndex;
  rj ← rs !! j; b ← rj !! columnIndex;
  Some (cmpFn a b <? 0).

Definition SortBy (t : table) (columnIndex : Z) (cmpFn : ComparisonFunc)
  : option (table * option error) :=
  if (columnIndex <? 0) || (Z.of_nat (length (header t)) <=? columnIndex) then
    Some (t, Some (ErrInvalidColumnIndex columnIndex (length (header t))))
  else
    rs ← GoSort.SliceStable (lessBy (Z.to_nat columnIndex) cmpFn) (rows t);
    Some (set_rows t rs, None).

(** The validation loop of [SortByMultiple]: the first criterion out of
    range, if any. *)
Fixpoint invalidCriterion (t : table) (criteria : list SortCriterion) : option error :=
  match criteria with
  | [] => None
  | criterion :: rest =>
      if (ColumnIndex criterion <? 0)
         || (Z.of_nat (length (header t)) <=? ColumnIndex criterion)
      then Some (ErrInvalidColumnIndex (ColumnIndex criterion) (length (header t)))
      else invalidCriterion t rest
  end.

(** The [less] closure of [SortByMultiple]. *)
Fixpoint lessByMultiple (criteria : list SortCriterion)
    (rs : list (list string)) (i j : nat) : option bool :=
  match criteria with
  | [] => Some false
  | criterion :: rest =>
      let colIdx := Z.to_nat (ColumnIndex criterion) in
      let cmpFn := Compare criterion in
      ri ← rs !! i; a ← ri !! colIdx;
      rj ← rs !! j; b ← rj !! colIdx;
      let result := cmpFn a b in
      if result <? 0 then Some true
      else if 0 <? result then Some false
      else lessByMultiple rest rs i j
  end.

(** The criteria are taken to be non-nil pointers with a non-nil [Compare]. *)
Definition SortByMultiple (t : table) (criteria : list SortCriterion)
  : option (table * option error) :=
  match invalidCriterion t criteria with
  | Some e => Some (t, Some e)
  | None =>
      rs ← GoSort.SliceStable (lessByMultiple criteria) (rows t);
      Some (set_rows t rs, None)
  end.

(** *** Transposing *)

(** [for i := 0; i < len(t.rows); i++ { newHeader = append(newHeader, t.rows[i][0]) }] *)
Fixpoint firstCells (rs : list (list string)) (newHeader : list string)
  : option (list string) :=
  match rs with
  | [] => Some newHeader
  | row :: rest => c ← row !! 0%nat; firstCells rest (newHeader ++ [c])
  end.

(** [for j, row := range t.rows { if i+1 < len(row) { newRows[i][j+1] = row[i+1] } else { newRows[i][j+1] = "" } }] *)
Fixpoint fillCells (i j : nat) (rs : list (list string)) (newRow : list string)
  : option (list string) :=
  match rs with
  | [] => Some newRow
  | row :: rest =>
      let c := match row !! (i + 1)%nat with Some c => c | None => EmptyString end in
      newRow' ← store newRow (j + 1) c;
      fillCells i (S j) rest newRow'
  end.

(** [for i, header := range t.header[1:] { newRows[i][0] = header; ... }] *)
Fixpoint fillRows (i : nat) (hs : list string) (rs : list (list string))
    (newRows : list (list string)) : option (list (list string)) :=
  match hs with
  | [] => Some newRows
  | h :: rest =>
      newRow ← newRows !! i;
      newRow ← store newRow 0 h;
      newRow ← fillCells i 0 rs newRow;
      newRows' ← store newRows i newRow;
      fillRows (S i) rest rs newRows'
  end.

Definition Transpose (t : table) : option table :=
  h0 ← header t !! 0%nat;
  newHeader ← firstCells (rows t) [h0];
  let newRows :=
    replicate (length (header t) - 1) (replicate (length (rows t) + 1) EmptyString) in
  newRows ← fillRows 0 (drop 1 (header t)) (rows t) newRows;
  Some {| FirstColumnFormatter := FirstColumnFormatter t;
          HeaderFormatter := HeaderFormatter t;
          StandoutFormatter := StandoutFormatter t;
          Padding := Padding t; Width := Width t;
          HeaderSeparatorRune := HeaderSeparatorRune t;
          PrintHeaders := PrintHeaders t;
          header := newHeader; rows := newRows; widths := [] |}.

(** *** Exporting as JSON *)

(** [for i, col := range t.header { if i < len(row) { rowMap[col] = row[i] } else { rowMap[col] = "" } }],
    from index [i] on. *)
Fixpoint rowMapFrom (i : nat) (hs : list string) (row : list string)
    (rowMap : gmap string string) : gmap string string :=
  match hs with
  | [] => rowMap
  | col :: rest =>
      let cell := match row !! i with Some c => c | None => EmptyString end in
      rowMapFrom (S i) rest row (<[col := cell]> rowMap)
  end.

(** [for _, row := range t.rows { ... data[key] = rowMap }]: the map, or
    [None] at the first row without a key cell. *)
Fixpoint collect (hs : list string) (keyColumn : nat) (rs : list (list string))
    (data : gmap string (gmap string string))
  : option (gmap string (gmap string string)) :=
  match rs with
  | [] => Some data
  | row :: rest =>
      match row !! keyColumn with
      | None => None
      | Some key => collect hs keyColumn rest (<[key := rowMapFrom 0 hs row ∅]> data)
      end
  end.

Module Json.
Section Marshal.
(** How encoding/json writes a Go string: quoted, with its escapes. *)
Variable encodeString : string -> string.

Definition byKey {V : Type} : relation (string * V) :=
  fun x y => String.le x.1 y.1.

(** A [map[string]V] becomes an object whose members are in the order of
    their keys. *)
Definition object {V : Type} (encodeValue : V -> string) (m : gmap string V) : string :=
  "{" +:+
  Fmt.join ","
    (map (fun kv => encodeString kv.1 +:+ ":" +:+ encodeValue kv.2)
         (merge_sort byKey (map_to_list m)))
  +:+ "}".

(** [json.Marshal] of a [map[string]map[string]string]; it cannot fail. *)
Definition Marshal (data : gmap string (gmap string string)) : string :=
  object (object encodeString) data.

End Marshal.
End Json.

Section Exporters.
Variable encodeString : string -> string.
(** The error, if any, with which [t.Writer.Write] answers a chunk. *)
Variable Write : string -> option error.

(** [ExportJSON]: the chunks written and the error returned. *)
Definition ExportJSON (t : table) (keyColumn : Z) : list string * option error :=
  if (keyColumn <? 0) || (Z.of_nat (length (header t)) <=? keyColumn) then
    ([], Some ErrInvalidKeyColumn)
  else
    match collect (header t) (Z.to_nat keyColumn) (rows t) ∅ with
    | None => ([], Some ErrKeyColumnOutOfRange)
    | Some data =>
        let jsonData := Json.Marshal encodeString data in
        ([jsonData], Write jsonData)
    end.

End Exporters.

(** *** The comparators *)

Definition InverseComparison (cmp : ComparisonFunc) : ComparisonFunc :=
  fun a b => GoInt.neg (cmp a b).

(** Go compares strings byte by byte, as [String.ltb] does. *)
Definition StringComparison : ComparisonFunc :=
  fun a b =>
    if String.ltb a b then -1
    else if String.ltb b a then 1
    else 0.

Definition BoolComparison : ComparisonFunc :=
  fun a b =>
    match Strconv.ParseBool a, Strconv.ParseBool b with
    | None, None => 0
    | None, Some _ => -1
    | Some _, None => 1
    | Some _a, Some _b =>
        if Bool.eqb _a _b then 0
        else if negb _a && _b then -1
        else 1
    end.

Section Numbers.
(** [float64] with its [<], and [strconv.ParseFloat(s, 64)], whose [None]
    is the error. *)
Context {float64 : Type}.
Variable flt : float64 -> float64 -> bool.
Variable ParseFloat : string -> option float64.

(** The body the three numeric comparators share, after parsing. *)
Definition compareParsed (pa pb : option float64) : Z :=
  match pa, pb with
  | None, None => 0
  | None, Some _ => 1
  | Some _, None => -1
  | Some numA, Some numB =>
      if flt numA numB then -1
      else if flt numB numA then 1
      else 0
  end.

Definition NumericalComparison : ComparisonFunc :=
  fun a b => compareParsed (ParseFloat a) (ParseFloat b).

Definition parseCurrencyString (s : string) : option float64 :=
  let cleanStr := GoStrings.RemoveAll s "$"%char in
  let cleanStr := GoStrings.RemoveAll cleanStr ","%char in
  ParseFloat cleanStr.

Definition CurrencyComparison : ComparisonFunc :=
  fun a b => compareParsed (parseCurrencyString a) (parseCurrencyString b).

Definition parsePercentString (s : string) : option float64 :=
  let cleanStr := GoStrings.RemoveAll s "%"%char in
  ParseFloat cleanStr.

Definition PercentComparison : ComparisonFunc :=
  fun a b => compareParsed (parsePercentString a) (parsePercentString b).

End Numbers.

(** * More of the package *)

(** ** The remaining setters *)

Definition WithHeaderFormatter (t : table) (f : option Formatter) : table :=
  {| FirstColumnFormatter := FirstColumnFormatter t;
     HeaderFormatter := f;
     StandoutFormatter := StandoutFormatter t;
     Padding := Padding t; Width := Width t;
     HeaderSeparatorRune := HeaderSeparatorRune t;
     PrintHeaders := PrintHeaders t;
     header := header t; rows := rows t; widths := widths t |}.

Definition WithHeaderSeparatorRow (t : table) (r : Z) : table :=
  {| FirstColumnFormatter := FirstColumnFormatter t;
     HeaderFormatter := HeaderFormatter t;
     StandoutFormatter := StandoutFormatter t;
     Padding := Padding t; Width := Width t;
     HeaderSeparatorRune := r;
     PrintHeaders := PrintHeaders t;
     header := header t; rows := rows t; widths := widths t |}.

Definition WithFirstColumnFormatter (t : table) (f : option Formatter) : table :=
  {| FirstColumnFormatter := f;
     HeaderFormatter := HeaderFormatter t;
     StandoutFormatter := StandoutFormatter t;
     Padding := Padding t; Width := Width t;
     HeaderSeparatorRune := HeaderSeparatorRune t;
     PrintHeaders := PrintHeaders t;
     header := header t; rows := rows t; widths := widths t |}.

Definition WithStandoutFormatter (t : table) (f : option Formatter) : table :=
  {| FirstColumnFormatter := FirstColumnFormatter t;
     HeaderFormatter := HeaderFormatter t;
     StandoutFormatter := f;
     Padding := Padding t; Width := Width t;
     HeaderSeparatorRune := HeaderSeparatorRune t;
     PrintHeaders := PrintHeaders t;
     header := header t; rows := rows t; widths := widths t |}.

Definition WithWidthFunc (t : table) (f : WidthFunc) : table :=
  {| FirstColumnFormatter := FirstColumnFormatter t;
     HeaderFormatter := HeaderFormatter t;
     StandoutFormatter := StandoutFormatter t;
     Padding := Padding t; Width := f;
     HeaderSeparatorRune := HeaderSeparatorRune t;
     PrintHeaders := PrintHeaders t;
     header := header t; rows := rows t; widths := widths t |}.

Definition WithPrintHeaders (t : table) (b : bool) : table :=
  {| FirstColumnFormatter := FirstColumnFormatter t;
     HeaderFormatter := HeaderFormatter t;
     StandoutFormatter := StandoutFormatter t;
     Padding := Padding t; Width := Width t;
     HeaderSeparatorRune := HeaderSeparatorRune t;
     PrintHeaders := b;
     header := header t; rows := rows t; widths := widths t |}.

(** ** Exporting as CSV *)

(** The built-in [copy(dst, src)]: the first [min(len(dst), len(src))]
    elements of [dst] are overwritten. *)
Definition copy {A : Type} (dst src : list A) : list A :=
  let n := Nat.min (length dst) (length src) in
  take n src ++ drop n dst.

(** The errors of [ExportCSV], each wrapping the error it was handed. *)
Inductive csvError : Type :=
  | FailedToWriteHeader (cause : error)
      (* "failed to write header: %v" *)
  | FailedToWriteRow (cause : error)
      (* "failed to write row: %v" *)
  | ErrorWhileWriting (cause : error)
      (* "error occurred while writing CSV: %v" *).

Section ExportersCSV.
(** The [csv.Writer] made by [csv.NewWriter(t.Writer)], with the three
    methods the export calls: [Write] of one record, [Flush] and [Error]. *)
Context {csvWriter : Type}.
Variable Write : csvWriter -> list string -> csvWriter * option error.
Variable Flush : csvWriter -> csvWriter.
Variable Error : csvWriter -> option error.

(** [for _, row := range t.rows { ... }] of [ExportCSV], up to the first
    failed [Write]. *)
Fixpoint writeRows (C : nat) (rs : list (list string)) (writer : csvWriter)
  : csvWriter * option csvError :=
  match rs with
  | [] => (writer, None)
  | row :: rest =>
      let row :=
        if decide (length row < C)%nat
        then copy (replicate C EmptyString) row
        else row in
      let (writer, err) := Write writer row in
      match err with
      | Some e => (writer, Some (FailedToWriteRow e))
      | None => writeRows C rest writer
      end
  end.

(** [ExportCSV]: the writer after the deferred [Flush], and the error
    returned. *)
Definition ExportCSV (t : table) (writer : csvWriter) : csvWriter * option csvError :=
  let (writer, err) := Write writer (header t) in
  match err with
  | Some e => (Flush writer, Some (FailedToWriteHeader e))
  | None =>
      let (writer, err) := writeRows (length (header t)) (rows t) writer in
      match err with
      | Some e => (Flush writer, Some e)
      | None =>
          match Error writer with
          | Some e => (Flush writer, Some (ErrorWhileWriting e))
          | None => (Flush writer, None)
          end
      end
  end.

End ExportersCSV.

(** ** src/transpose.go: [Transpose] without the guard on the cells *)

Module TransposeGo.

(** [for j, row := range t.rows { newRows[i][j+1] = row[i+1] }] *)
Fixpoint fillCells (i j : nat) (rs : list (list string)) (newRow : list string)
  : option (list string) :=
  match rs with
  | [] => Some newRow
  | row :: rest =>
      c ← row !! (i + 1)%nat;
      newRow' ← store newRow (j + 1) c;
      fillCells i (S j) rest newRow'
  end.

(** [for i, header := range t.header[1:] { newRows[i][0] = header; ... }] *)
Fixpoint fillRows (i : nat) (hs : list string) (rs : list (list string))
    (newRows : list (list string)) : option (list (list string)) :=
  match hs with
  | [] => Some newRows
  | h :: rest =>
      newRow ← newRows !! i;
      newRow ← store newRow 0 h;
      newRow ← fillCells i 0 rs newRow;
      newRows' ← store newRows i newRow;
      fillRows (S i) rest rs newRows'
  end.

(** This file's [Transpose] hands the source's [widths] on to the new table. *)
Definition Transpose (t : table) : option table :=
  h0 ← header t !! 0%nat;
  newHeader ← firstCells (rows t) [h0];
  let newRows :=
    replicate (length (header t) - 1) (replicate (length (rows t) + 1) EmptyString) in
  newRows ← fillRows 0 (drop 1 (header t)) (rows t) newRows;
  Some {| FirstColumnFormatter := FirstColumnFormatter t;
          HeaderFormatter := HeaderFormatter t;
          StandoutFormatter := StandoutFormatter t;
          Padding := Padding t; Width := Width t;
          HeaderSeparatorRune := HeaderSeparatorRune t;
          PrintHeaders := PrintHeaders t;
          header := newHeader; rows := newRows; widths := widths t |}.

End TransposeGo.

(** ** src/table.go: the table before sorting, exporting and width functions

    Its metric is the package function [displayWidth], go-runewidth's
    [StringWidth] of the text without its ANSI colour codes; it is a
    parameter here.  [Print] starts with an empty line and always prints the
    header. *)

Module TableGo.

Record table : Type := {
  FirstColumnFormatter : option Formatter;
  HeaderFormatter : option Formatter;
  Padding : Z;
  header : list string;
  rows : list (list string);
  widths : list Z
}.

Definition WithPadding (t : table) (p : Z) : table :=
  let p := if p <? 0 then 0 else p in
  {| FirstColumnFormatter := FirstColumnFormatter t;
     HeaderFormatter := HeaderFormatter t;
     Padding := p;
     header := header t; rows := rows t; widths := widths t |}.

Section Values.
Context {value : Type} (Sprint : value -> string).

(** [for i, val := range vals { if i >= len(t.header) { break }; row[i] = fmt.Sprint(val) }] *)
Fixpoint fillRow (C i : nat) (vals : list value) (row : list string) : list string :=
  match vals with
  | [] => row
  | val :: rest =>
      if decide (C <= i)%nat then row
      else fillRow C (S i) rest (<[i := Sprint val]> row)
  end.

Definition AddRow (t : table) (vals : list value) : table :=
  let row := fillRow (length (header t)) 0 vals (replicate (length (header t)) EmptyString) in
  {| FirstColumnFormatter := FirstColumnFormatter t;
     HeaderFormatter := HeaderFormatter t;
     Padding := Padding t;
     header := header t; rows := rows t ++ [row]; widths := widths t |}.

End Values.

Section DisplayWidth.
Variable displayWidth : string -> Z.

Fixpoint widen (t : table) (i : nat) (cells : list string) (ws : list Z)
  : option (list Z) :=
  match cells with
  | [] => Some ws
  | v :: rest =>
      let w := GoInt.add (displayWidth v) (Padding t) in
      cur ← ws !! i;
      ws' ← (if cur <? w then store ws i w else Some ws);
      widen t (S i) rest ws'
  end.

Fixpoint widenRows (t : table) (rs : list (list string)) (ws : list Z)
  : option (list Z) :=
  match rs with
  | [] => Some ws
  | row :: rest => ws' ← widen t 0 row ws; widenRows t rest ws'
  end.

Definition calculateWidths (t : table) : option table :=
  let ws := replicate (length (header t)) 0 in
  ws ← widenRows t (rows t) ws;
  ws ← widen t 0 (header t) ws;
  Some {| FirstColumnFormatter := FirstColumnFormatter t;
          HeaderFormatter := HeaderFormatter t;
          Padding := Padding t;
          header := header t; rows := rows t; widths := ws |}.

Definition lenOffset (s : string) (w : Z) : string :=
  let l := GoInt.sub w (displayWidth s) in
  if l <=? 0 then EmptyString
  else GoStrings.repeat_nat " " (Z.to_nat l).

Fixpoint applyWidthsFrom (i : nat) (row : list string) (ws : list Z)
  : option (list string) :=
  match row with
  | [] => Some []
  | s :: rest =>
      w ← ws !! i;
      out ← applyWidthsFrom (S i) rest ws;
      Some ((s +:+ lenOffset s w) :: out)
  end.

Definition applyWidths (row : list string) (ws : list Z) : option (list string) :=
  applyWidthsFrom 0 row ws.

Definition printHeader (t : table) (format : string) : option (list string) :=
  vals ← applyWidths (header t) (widths t);
  match HeaderFormatter t with
  | Some f => Some [f format vals]
  | None => Some [Fmt.Sprintf format vals]
  end.

Definition printRow (t : table) (format : string) (row : list string)
  : option (list string) :=
  vals ← applyWidths row (widths t);
  vals ← match FirstColumnFormatter t with
         | Some f => v0 ← vals !! 0%nat; store vals 0 (f "%s" [v0])
         | None => Some vals
         end;
  Some [Fmt.Sprintf format vals].

Fixpoint printRows (t : table) (format : string) (rs : list (list string))
  : option (list string) :=
  match rs with
  | [] => Some []
  | row :: rest =>
      out ← printRow t format row;
      more ← printRows t format rest;
      Some (out ++ more)
  end.

(** [Print]: [fmt.Fprintln(t.Writer)] writes the line break on its own. *)
Definition Print (t : table) : option (table * list string) :=
  let format := GoStrings.repeat_nat "%s" (length (header t)) +:+ String GoStrings.LF EmptyString in
  t ← calculateWidths t;
  head ← printHeader t format;
  body ← printRows t format (rows t);
  Some (t, [String GoStrings.LF EmptyString] ++ head ++ body).

End DisplayWidth.
End TableGo.

(** ** src/unnamed/part_002: the first table

    The struct is that of src/table.go.  The metric is [len(v)], the number
    of bytes; [New] allocates the widths, and [calculateWidths] makes as many
    as there were; [printRow] hands the first-column formatter the cell as
    stored, [row[0]]. *)

Module TableOld.

Definition byteLen (s : string) : Z := Z.of_nat (String.length s).

Section Values.
Context {value : Type} (Sprint : value -> string).

Definition New (DefaultPadding : Z) (columnHeaders : list value) : TableGo.table :=
  {| TableGo.FirstColumnFormatter := None;
     TableGo.HeaderFormatter := None;
     TableGo.Padding := DefaultPadding;
     TableGo.header := map Sprint columnHeaders;
     TableGo.rows := [];
     TableGo.widths := replicate (length columnHeaders) 0 |}.

End Values.

Definition calculateWidths (t : TableGo.table) : option TableGo.table :=
  let ws := replicate (length (TableGo.widths t)) 0 in
  ws ← TableGo.widenRows byteLen t (TableGo.rows t) ws;
  ws ← TableGo.widen byteLen t 0 (TableGo.header t) ws;
  Some {| TableGo.FirstColumnFormatter := TableGo.FirstColumnFormatter t;
          TableGo.HeaderFormatter := TableGo.HeaderFormatter t;
          TableGo.Padding := TableGo.Padding t;
          TableGo.header := TableGo.header t; TableGo.rows := TableGo.rows t;
          TableGo.widths := ws |}.

Definition printRow (t : TableGo.table) (format : string) (row : list string)
  : option (list string) :=
  vals ← TableGo.applyWidths byteLen row (TableGo.widths t);
  vals ← match TableGo.FirstColumnFormatter t with
         | Some f => r0 ← row !! 0%nat; store vals 0 (f "%s" [r0])
         | None => Some vals
         end;
  Some [Fmt.Sprintf format vals].

Fixpoint printRows (t : TableGo.table) (format : string) (rs : list (list string))
  : option (list string) :=
  match rs with
  | [] => Some []
  | row :: rest =>
      out ← printRow t format row;
      more ← printRows t format rest;
      Some (out ++ more)
  end.

Definition Print (t : TableGo.table) : option (TableGo.table * list string) :=
  let format := GoStrings.repeat_nat "%s" (length (TableGo.header t))
                +:+ String GoStrings.LF EmptyString in
  t ← calculateWidths t;
  head ← TableGo.printHeader byteLen t format;
  body ← printRows t format (TableGo.rows t);
  Some (t, [String GoStrings.LF EmptyString] ++ head ++ body).

End TableOld.

(** * The specification's vocabulary *)

Section SpecValues.
Context {value : Type} (Sprint : value -> string).

(** Line [i] of a value: piece [i] of its string form split at the line
    breaks, empty when there is none. *)
Definition lineOf (val : value) (i : nat) : string :=
  default EmptyString (GoStrings.Split (Sprint val) GoStrings.LF !! i).

(** The number of line breaks in a value's string form. *)
Definition lineBreaks (val : value) : nat :=
  GoStrings.Count (Sprint val) GoStrings.LF.

End SpecValues.

(** The metric of cell [j] of a row; a row without that cell counts 0. *)
Definition cellMetric (t : table) (row : list string) (j : nat) : Z :=
  match row !! j with Some c => Width t c | None => 0 end.

(** [padding + max(metric(header[j]), max over the rows of metric(r[j]))],
    for the header cell [h] of column [j]. *)
Definition columnWidth (t : table) (j : nat) (h : string) : Z :=
  Padding t + foldr (fun row m => Z.max (cellMetric t row j) m) (Width t h) (rows t).

(** What one cell does to the running width of its column. *)
Definition raise (t : table) (oc : option string) (m : Z) : Z :=
  match oc with
  | Some c => Z.max m (Width t c + Padding t)
  | None => m
  end.

(** A cell's metric is not negative and, padded, fits an [int]. *)
Definition cellFits (t : table) (c : string) : Prop :=
  0 <= Width t c /\ Width t c + Padding t <= GoInt.max_int.

(** The widths the specification asks for, one per header column. *)
Definition specWidths (t : table) : list Z :=
  imap (fun j h => columnWidth t j h) (header t).

(** No stored row is longer than the header: [AddRow] and [SetRows] see to
    it and the header only grows. *)
Definition rowsFit (t : table) : Prop :=
  Forall (fun row => (length row <= length (header t))%nat) (rows t).

(** The padding is not negative, as [WithPadding] ensures, the metric of a
    cell is not negative, and padded it fits an [int]. *)
Definition metricFits (t : table) : Prop :=
  0 <= Padding t /\
  Forall (cellFits t) (header t ++ concat (rows t)).

(** What the closure of [SortBy] compares: the cells of two rows in one
    column. *)
Definition rowLess (columnIndex : nat) (cmpFn : ComparisonFunc)
    (x y : list string) : option bool :=
  a ← x !! columnIndex; b ← y !! columnIndex; Some (cmpFn a b <? 0).

(** What the closure of [SortByMultiple] compares: the cells of two rows,
    criterion after criterion, up to the first that tells them apart. *)
Fixpoint rowLessMultiple (criteria : list SortCriterion)
    (x y : list string) : option bool :=
  match criteria with
  | [] => Some false
  | criterion :: rest =>
      a ← x !! Z.to_nat (ColumnIndex criterion);
      b ← y !! Z.to_nat (ColumnIndex criterion);
      if Compare criterion a b <? 0 then Some true
      else if 0 <? Compare criterion a b then Some false
      else rowLessMultiple rest x y
  end.

(** The exchanges of insertion sort, for a comparison [lt] of two elements
    that may panic. *)
Section Exchanges.
Context {A : Type} (lt : A -> A -> option bool).

(** One exchange: the element at [k + 1] is less than its left neighbour
    and the two trade places. *)
Inductive swapStep : list A -> list A -> Prop :=
  | swap_at (l : list A) (k : nat) (x y : A) :
      l !! k = Some y -> l !! S k = Some x -> lt x y = Some true ->
      swapStep l (<[S k := y]> (<[k := x]> l)).

(** [pi] records, for every position of [l], the position the element had
    in [l0]; two elements stand in the opposite order only if the one now
    in front was found less than the other. *)
Definition traces (l0 l : list A) (pi : list nat) : Prop :=
  pi ≡ₚ seq 0 (length l0) /\
  Forall2 (fun i x => l0 !! i = Some x) pi l /\
  forall p q i j x y, (p < q)%nat -> pi !! p = Some i -> pi !! q = Some j ->
    (j < i)%nat -> l !! p = Some x -> l !! q = Some y -> lt x y = Some true.

End Exchanges.

(** The contract of a stable sort, for a comparison [lt] of two elements. *)
Section StableSort.
Context {A : Type} (lt : A -> A -> option bool).

(** No element is less than one that stands before it. *)
Definition sortedBy (l : list A) : Prop :=
  forall p q x y, (p < q)%nat -> l !! p = Some x -> l !! q = Some y ->
    lt y x = Some false.

(** [i] comes before [j] in [pi]. *)
Definition before (pi : list nat) (i j : nat) : Prop :=
  exists p q, (p < q)%nat /\ pi !! p = Some i /\ pi !! q = Some j.

(** [l] is [l0] rearranged, sorted, with equal elements in the order they
    have in [l0]. *)
Definition stableSorted (l0 l : list A) : Prop :=
  exists pi : list nat,
    pi ≡ₚ seq 0 (length l0) /\
    Forall2 (fun i x => l0 !! i = Some x) pi l /\
    sortedBy l /\
    forall i j x y, (i < j)%nat -> l0 !! i = Some x -> l0 !! j = Some y ->
      lt x y = Some false -> lt y x = Some false -> before pi i j.

End StableSort.

(** The state of one insertion, for a total comparison [ltb]. *)
Section Insertion.
Context {A : Type} (ltb : A -> A -> bool).

(** The positions from [a] to [i] are sorted. *)
Definition sortedWithin (l : list A) (a i : nat) : Prop :=
  forall p q x y, (a <= p)%nat -> (p < q)%nat -> (q <= i)%nat ->
    l !! p = Some x -> l !! q = Some y -> ltb y x = false.

(** The positions from [a] to [i] other than [j] are sorted. *)
Definition sortedApart (l : list A) (a i j : nat) : Prop :=
  forall p q x y, (a <= p)%nat -> (p < q)%nat -> (q <= i)%nat ->
    p <> j -> q <> j ->
    l !! p = Some x -> l !! q = Some y -> ltb y x = false.

(** The element at [j] is less than those from [j + 1] to [i]. *)
Definition aheadOf (l : list A) (i j : nat) : Prop :=
  forall q x y, (j < q)%nat -> (q <= i)%nat ->
    l !! j = Some x -> l !! q = Some y -> ltb x y = true.

End Insertion.




(** A column index outside [0 <= n < C]. *)
Definition outOfRange (t : table) (n : Z) : Prop :=
  n < 0 \/ Z.of_nat (length (header t)) <= n.

(** Every row has a cell in column [n]. *)
Definition hasColumn (n : nat) (rs : list (list string)) : Prop :=
  Forall (fun row => (n < length row)%nat) rs.

(** Cell [c] of a row, empty when the row has no such cell. *)
Definition cellOr (c : nat) (row : list string) : string :=
  default EmptyString (row !! c).

(** The member of a row's object for the header name [h]: the cell under
    the last column of that name. *)
Definition memberOf (hs row : list string) (h c : string) : Prop :=
  exists k, hs !! k = Some h /\ c = cellOr k row /\
            forall k', (k < k')%nat -> hs !! k' <> Some h.

(** The double quote, and a string between double quotes. *)
Definition DQ : string := String (ascii_of_nat 34) EmptyString.
Definition quoted (s : string) : string := DQ +:+ s +:+ DQ.

(** [{"1":{"ID":"1","Name":"Foo"},"2":{"ID":"2","Name":"Bar"}}] *)
Definition exampleJSON : string :=
  "{" +:+ quoted "1" +:+ ":{" +:+ quoted "ID" +:+ ":" +:+ quoted "1" +:+ ","
      +:+ quoted "Name" +:+ ":" +:+ quoted "Foo" +:+ "},"
      +:+ quoted "2" +:+ ":{" +:+ quoted "ID" +:+ ":" +:+ quoted "2" +:+ ","
      +:+ quoted "Name" +:+ ":" +:+ quoted "Bar" +:+ "}}".

(** ** Concrete tables

    A configuration to run the package on: the metric [len(s)], which on
    ASCII text is the default [utf8.RuneCountInString], no formatters,
    padding 2; string values, whose [fmt.Sprint] is the string itself. *)

Definition byteLen : WidthFunc := fun s => Z.of_nat (String.length s).

Definition plain : defaults :=
  {| DefaultPadding := 2;
     DefaultHeaderFormatter := None;
     DefaultFirstColumnFormatter := None;
     DefaultStandoutFormatter := None;
     DefaultWidthFunc := byteLen;
     DefaultPrintHeaders := true |}.

Definition text (s : string) : string := s.

(** A stand-in for [strconv.ParseFloat] on unsigned decimal integers, where
    the two agree: the number read, or [None] for any other text. *)
Fixpoint digitsFrom (acc : Z) (s : string) : option Z :=
  match s with
  | EmptyString => Some acc
  | String c rest =>
      let d := Z.of_nat (nat_of_ascii c) - 48 in
      if (0 <=? d) && (d <=? 9) then digitsFrom (10 * acc + d) rest else None
  end.

Definition parseDigits (s : string) : option Z :=
  match s with
  | EmptyString => None
  | _ => digitsFrom 0 s
  end.

(** The table of the package's sort test. *)
Definition people : table :=
  SetRows (New text plain ["Name"; "Age"; "City"])
    [["Alice"; "30"; "New York"]; ["Bob"; "25"; "Los Angeles"];
     ["Charlie"; "35"; "Chicago"]; ["David"; "30"; "Chicago"];
     ["Eve"; "35"; "Los Angeles"]].

(** The people table after [SortBy(1, StringComparison)]. *)
Definition byAge : list (list string) :=
  [["Bob"; "25"; "Los Angeles"]; ["Alice"; "30"; "New York"];
   ["David"; "30"; "Chicago"]; ["Charlie"; "35"; "Chicago"];
   ["Eve"; "35"; "Los Angeles"]].



(** A value of two lines. *)
Definition twoLines : string := "a" +:+ String GoStrings.LF "b".

(** A table whose rows stop short of the header, as [SetRows] stores them. *)
Definition shortRows : table :=
  SetRows (New text plain ["A"; "B"]) [["x"]; ["y"]].

(** A table with a row that has no cell at all. *)
Definition emptyRow : table :=
  SetRows (New text plain ["H0"; "H1"]) [[]].

(** The table of the package documentation, without its formatter. *)
Definition costs : table :=
  AddRow text
    (AddRow text
       (AddRow text (New text plain ["ID"; "Name"; "Cost ($)"])
          ["1"; "Foobar"; "1.23"])
       ["2"; "Fizzbuzz"; "4.56"])
    ["3"; "Gizmo"; "78.90"].

(** A line of output: the text and its line break. *)
Definition line (s : string) : string := s +:+ String GoStrings.LF EmptyString.

(** The table of the specification's JSON example. *)
Definition widgets : table :=
  SetRows (New text plain ["ID"; "Name"]) [["1"; "Foo"]; ["2"; "Bar"]].

(** ** Vocabulary for the further properties *)

(** A comparator whose "less" ([cmp a b < 0]) is a strict weak order, which
    is what [sort.SliceStable] asks of its [less]. *)
Definition strictWeak (cmp : ComparisonFunc) : Prop :=
  (forall a b, cmp a b < 0 -> ~ cmp b a < 0) /\
  (forall a b c, cmp a c < 0 -> cmp a b < 0 \/ cmp b c < 0).

(** The rows stand in ascending order of column [n]: no row is less, by its
    cell there, than a row before it. *)
Definition ascendingBy (n : nat) (cmp : ComparisonFunc) (rs : list (list string)) : Prop :=
  forall p q x y, (p < q)%nat -> rs !! p = Some x -> rs !! q = Some y ->
    ~ cmp (cellOr n y) (cellOr n x) < 0.

(** Where [BoolComparison] places a cell: text that is no boolean first, then
    false, then true. *)
Definition boolRank (s : string) : Z :=
  match Strconv.ParseBool s with
  | None => 0
  | Some false => 1
  | Some true => 2
  end.

(** A three-way result: -1, 0 or 1. *)
Definition threeWay (z : Z) : Prop := z = -1 \/ z = 0 \/ z = 1.

(** Every row has exactly as many cells as the header, and the header has
    a column. *)
Definition rectangular (t : table) : Prop :=
  header t <> [] /\
  Forall (fun row => length row = length (header t)) (rows t).

(** [printHeaderSeparator] faults on some header cell: the separator rune
    has width 0 (a division by zero), or the header's width divided by it is
    negative (a [make] of negative length). *)
Definition separatorFaults (t : table) : Prop :=
  let w := Width t (Utf8.EncodeRune (HeaderSeparatorRune t)) in
  Exists (fun h => w = 0 \/ GoInt.wrap (Z.quot (Width t h) w) < 0) (header t).

(** The strings of a list, one after the other. *)
Definition glue (l : list string) : string := foldr String.append EmptyString l.

(** The cells of a row, each followed by the blanks that [lenOffset] gives
    it for the width of its column. *)
Definition padded (t : table) (cells : list string) : list string :=
  zip_with (fun s w => s +:+ lenOffset t s w) cells (widths t).

(** What [fmt] prints for a verb that has no argument. *)
Definition missing : string := "%!s(MISSING)".

(** A rendered line: the padded cells, the mark of a missing argument for
    every column the row does not reach, and the line break. *)
Definition renderedLine (t : table) (cells : list string) : string :=
  glue (padded t cells)
  +:+ GoStrings.repeat_nat missing (length (header t) - length cells)
  +:+ String GoStrings.LF EmptyString.

(** The row of a call whose values hold no line break: the values' text,
    then empty cells, cut to [C] cells. *)
Definition oneLineRow {value : Type} (Sprint : value -> string) (C : nat)
    (vals : list value) : list string :=
  take C ((Sprint <$> vals) ++ replicate C EmptyString).

(** A row as a CSV record of at least [C] fields: empty fields are added
    to a shorter row, a longer one is left as it is. *)
Definition padTo (C : nat) (row : list string) : list string :=
  row ++ replicate (C - length row) EmptyString.

(** Handing records to a writer one by one up to the first that fails: the
    writer then, and the place and cause of the failure. *)
Fixpoint feed {csvWriter : Type}
    (Write : csvWriter -> list string -> csvWriter * option error)
    (recs : list (list string)) (writer : csvWriter) (i : nat)
  : csvWriter * option (nat * error) :=
  match recs with
  | [] => (writer, None)
  | r :: rest =>
      let (writer, err) := Write writer r in
      match err with
      | Some e => (writer, Some (i, e))
      | None => feed Write rest writer (S i)
      end
  end.

(** A table of src/table.go seen as a table of the later package: the
    options that came later at the values that switch them off, the width
    function being [displayWidth]. *)
Definition later (displayWidth : WidthFunc) (t0 : TableGo.table) : table :=
  {| FirstColumnFormatter := TableGo.FirstColumnFormatter t0;
     HeaderFormatter := TableGo.HeaderFormatter t0;
     StandoutFormatter := None;
     Padding := TableGo.Padding t0; Width := displayWidth;
     HeaderSeparatorRune := 0;
     PrintHeaders := true;
     header := TableGo.header t0; rows := TableGo.rows t0;
     widths := TableGo.widths t0 |}.

(** The fields that a table of the later package shares with src/table.go. *)
Definition earlier (t : table) : TableGo.table :=
  {| TableGo.FirstColumnFormatter := FirstColumnFormatter t;
     TableGo.HeaderFormatter := HeaderFormatter t;
     TableGo.Padding := Padding t;
     TableGo.header := header t; TableGo.rows := rows t;
     TableGo.widths := widths t |}.

(** The tables a program can reach: made by [New] and changed by the
    package's methods, those that may fault counted where they return. *)
Inductive built {value : Type} (Sprint : value -> string) : table -> Prop :=
  | built_New d columnHeaders : built Sprint (New Sprint d columnHeaders)
  | built_WithPadding t p : built Sprint t -> built Sprint (WithPadding t p)
  | built_WithHeaderFormatter t f :
      built Sprint t -> built Sprint (WithHeaderFormatter t f)
  | built_WithHeaderSeparatorRow t r :
      built Sprint t -> built Sprint (WithHeaderSeparatorRow t r)
  | built_WithFirstColumnFormatter t f :
      built Sprint t -> built Sprint (WithFirstColumnFormatter t f)
  | built_WithStandoutFormatter t f :
      built Sprint t -> built Sprint (WithStandoutFormatter t f)
  | built_WithWidthFunc t f : built Sprint t -> built Sprint (WithWidthFunc t f)
  | built_WithPrintHeaders t b : built Sprint t -> built Sprint (WithPrintHeaders t b)
  | built_AddHeader t col : built Sprint t -> built Sprint (AddHeader t col)
  | built_AddHeaders t cols : built Sprint t -> built Sprint (AddHeaders t cols)
  | built_AddHeadersAsArray t cols :
      built Sprint t -> built Sprint (AddHeadersAsArray t cols)
  | built_AddRow t vals : built Sprint t -> built Sprint (AddRow Sprint t vals)
  | built_AddRowAsArray t vals :
      built Sprint t -> built Sprint (AddRowAsArray Sprint t vals)
  | built_SetRows t rs : built Sprint t -> built Sprint (SetRows t rs)
  | built_Print t u out : built Sprint t -> Print t = Some (u, out) -> built Sprint u
  | built_SortBy t n cmpFn u e :
      built Sprint t -> SortBy t n cmpFn = Some (u, e) -> built Sprint u
  | built_SortByMultiple t criteria u e :
      built Sprint t -> SortByMultiple t criteria = Some (u, e) -> built Sprint u
  | built_Transpose t u : built Sprint t -> Transpose t = Some u -> built Sprint u.

(** The laws of a strict weak order for the "less" of a comparator, on the
    cells that satisfy [P]. *)
Definition strictWeakOn (P : string -> Prop) (cmp : ComparisonFunc) : Prop :=
  (forall a b, P a -> P b -> cmp a b < 0 -> ~ cmp b a < 0) /\
  (forall a b c, P a -> P b -> P c -> cmp a c < 0 -> cmp a b < 0 \/ cmp b c < 0).

(** How a numeric comparator [cmp] orders cells, [parse] being its reading
    of a cell as a number: the result is -1, 0 or 1; a cell that does not
    parse comes after every cell that does, and two such cells are equal;
    two numbers compare by [<]; and on cells whose numbers [<] orders as a
    strict weak order (for [float64]: all but NaN) so does the comparator. *)
Definition numericOrder {float64 : Type} (flt : float64 -> float64 -> bool)
    (parse : string -> option float64) (cmp : ComparisonFunc) : Prop :=
  (forall a b, threeWay (cmp a b)) /\
  (forall a b x, parse a = Some x -> parse b = None -> cmp a b = -1 /\ cmp b a = 1) /\
  (forall a b, parse a = None -> parse b = None -> cmp a b = 0) /\
  (forall a b x y, parse a = Some x -> parse b = Some y ->
     (cmp a b < 0 <-> flt x y = true)) /\
  (forall ordered : float64 -> Prop,
     (forall x y, ordered x -> ordered y -> flt x y = true -> flt y x = false) ->
     (forall x y z, ordered x -> ordered y -> ordered z ->
        flt x z = true -> flt x y = true \/ flt y z = true) ->
     strictWeakOn (fun s => forall x, parse s = Some x -> ordered x) cmp).

(** * Properties *)

(** ** Slices and strings *)

Lemma store_Some {A : Type} (s : list A) (i : nat) (v : A) :
  (i < length s)%nat -> store s i v = Some (<[i := v]> s).
Proof. intros Hi. unfold store. by rewrite decide_True. Qed.

Lemma store_inv {A : Type} (s s' : list A) (i : nat) (v : A) :
  store s i v = Some s' -> (i < length s)%nat /\ s' = <[i := v]> s.
Proof. unfold store. case_decide; naive_solver. Qed.

Lemma Split_length (s : string) (sep : ascii) :
  length (GoStrings.Split s sep) = S (GoStrings.Count s sep).
Proof.
  induction s as [|c s IH]; simpl; [done|].
  destruct (Ascii.eqb c sep); simpl; [by rewrite IH|].
  destruct (GoStrings.Split s sep); simpl in *; lia.
Qed.

(** [Split] cuts at every separator and nowhere else: the pieces hold no
    separator, and joined by it they give the string back. *)
Lemma Split_pieces (s : string) (sep : ascii) :
  Forall (fun piece => GoStrings.Count piece sep = 0%nat) (GoStrings.Split s sep) /\
  Fmt.join (String sep EmptyString) (GoStrings.Split s sep) = s.
Proof.
  induction s as [|c s [IHc IHj]]; simpl.
  - split; [by repeat constructor|done].
  - destruct (Ascii.eqb c sep) eqn:Hc.
    + apply Ascii.eqb_eq in Hc as ->. split; [by constructor|].
      destruct (GoStrings.Split s sep) as [|piece pieces] eqn:Hs.
      * pose proof (Split_length s sep) as Hlen. by rewrite Hs in Hlen.
      * simpl in IHj |- *. by rewrite IHj.
    + destruct (GoStrings.Split s sep) as [|piece pieces] eqn:Hs.
      * pose proof (Split_length s sep) as Hlen. by rewrite Hs in Hlen.
      * apply Forall_cons in IHc as [Hpiece Hpieces]. split.
        -- constructor; [|done]. simpl. by rewrite Hc.
        -- rewrite <- IHj. by destruct pieces.
Qed.

Lemma safeOffset_lookup (sarr : list string) (idx : nat) :
  safeOffset sarr idx = default EmptyString (sarr !! idx).
Proof.
  unfold safeOffset. case_decide as Hlen.
  - by rewrite lookup_ge_None_2.
  - by destruct (sarr !! idx).
Qed.

(** ** AddRow *)

Section AddRowProps.
Context {value : Type} (Sprint : value -> string).

Lemma max_is_Nat_max (a b : nat) : max a b = Nat.max a b.
Proof. unfold max. destruct (Nat.ltb_spec b a); lia. Qed.

Lemma maxNumNewlines_acc (vals : list value) (m : nat) :
  foldl (fun m val => max (GoStrings.Count (Sprint val) GoStrings.LF) m) m vals
  = Nat.max m (max_list (lineBreaks Sprint <$> vals)).
Proof.
  revert m. induction vals as [|v vals IH]; intros m; csimpl; [lia|].
  rewrite IH, max_is_Nat_max. unfold lineBreaks at 2. lia.
Qed.

Lemma maxNumNewlines_max_list (vals : list value) :
  maxNumNewlines Sprint vals = max_list (lineBreaks Sprint <$> vals).
Proof. unfold maxNumNewlines. by rewrite maxNumNewlines_acc. Qed.

Lemma fillRow_length (C i j : nat) (vals : list value) (row : list string) :
  length (fillRow Sprint C i j vals row) = length row.
Proof.
  revert j row. induction vals as [|v vals IH]; intros j row; simpl; [done|].
  case_decide; [done|]. by rewrite IH, length_insert.
Qed.

(** Cell [c] of a filled row: untouched below [j] and from [j + len vals]
    on, line [i] of the value at [c - j] in between. *)
Lemma fillRow_lookup (C i j : nat) (vals : list value) (row : list string) (c : nat) :
  length row = C -> (c < C)%nat ->
  fillRow Sprint C i j vals row !! c =
    if decide (j <= c)%nat then
      match vals !! (c - j)%nat with
      | Some val => Some (lineOf Sprint val i)
      | None => row !! c
      end
    else row !! c.
Proof.
  revert j row. induction vals as [|v vals IH]; intros j row Hlen Hc; simpl.
  - by case_decide.
  - case_decide as Hj.
    + by rewrite decide_False by lia.
    + rewrite IH by (by rewrite ?length_insert).
      destruct (decide (j = c)) as [->|Hne].
      * rewrite decide_False by lia. rewrite decide_True by lia.
        rewrite Nat.sub_diag. simpl.
        rewrite list_lookup_insert_eq by lia.
        by rewrite safeOffset_lookup.
      * rewrite list_lookup_insert_ne by done.
        case_decide as H1; case_decide as H2; try lia; [|done].
        by replace (c - j)%nat with (S (c - S j)) by lia.
Qed.

Lemma appendLines_app (C i n : nat) (vals : list value) (rs : list (list string)) :
  appendLines Sprint C i n vals rs =
  rs ++ ((fun i' => fillRow Sprint C i' 0 vals (replicate C EmptyString)) <$> seq i n).
Proof.
  revert i rs. induction n as [|n IH]; intros i rs; simpl.
  - by rewrite app_nil_r.
  - by rewrite IH, <- app_assoc.
Qed.

End AddRowProps.

Lemma lines_are_Split {value : Type} (Sprint : value -> string) (val : value) :
  lineOf Sprint val <$> seq 0 (S (lineBreaks Sprint val))
  = GoStrings.Split (Sprint val) GoStrings.LF.
Proof.
  apply list_eq. intros i. rewrite list_lookup_fmap.
  pose proof (Split_length (Sprint val) GoStrings.LF) as Hlen.
  fold (lineBreaks Sprint val) in Hlen.
  destruct (decide (i < S (lineBreaks Sprint val))%nat) as [Hi|Hi].
  - rewrite lookup_seq_lt by done. simpl. unfold lineOf.
    destruct (lookup_lt_is_Some_2 (GoStrings.Split (Sprint val) GoStrings.LF) i)
      as [piece ->]; [lia|done].
  - rewrite lookup_seq_ge by lia. simpl. symmetry. apply lookup_ge_None. lia.
Qed.

(** C3. [AddRow] with values [vals] on a table with [C] header columns
    appends [1 + max] line-break count rows, the maximum taken over all the
    values of the call; appended row [i] has [C] cells; its cell [j], for
    [j] below both [C] and the number of values, is line [i] of value [j]
    split at the line breaks, or the empty string when that value has fewer
    than [i + 1] lines; the cells after the last value are empty; values
    from position [C] on are not stored, and nothing fails: [AddRow] is a
    total function of the table and the values.  The lines of a value are
    the text between its line breaks: a value with [k] line breaks has the
    lines 0 to [k], none of them holds a line break, joined by line breaks
    they are the value's text, and every line after them is empty. *)
Theorem AddRow_appends_lines {value : Type} (Sprint : value -> string)
    (t : table) (vals : list value) :
  (exists new : list (list string),
    AddRow Sprint t vals = set_rows t (rows t ++ new) /\
    length new = S (max_list (lineBreaks Sprint <$> vals)) /\
    forall i row, new !! i = Some row ->
      length row = length (header t) /\
      (forall j val, (j < length (header t))%nat -> vals !! j = Some val ->
         row !! j = Some (lineOf Sprint val i)) /\
      (forall j, (j < length (header t))%nat -> (length vals <= j)%nat ->
         row !! j = Some EmptyString)) /\
  (forall val : value,
     Forall (fun piece => GoStrings.Count piece GoStrings.LF = 0%nat)
       (lineOf Sprint val <$> seq 0 (S (lineBreaks Sprint val))) /\
     Fmt.join (String GoStrings.LF EmptyString)
       (lineOf Sprint val <$> seq 0 (S (lineBreaks Sprint val))) = Sprint val /\
     (forall i, (lineBreaks Sprint val < i)%nat -> lineOf Sprint val i = EmptyString)).
Proof.
  split.
  - unfold AddRow, AddRowAsArray. rewrite appendLines_app.
    eexists. split; [reflexivity|]. split.
    + by rewrite length_fmap, length_seq, maxNumNewlines_max_list.
    + intros i row Hrow.
      apply list_lookup_fmap_Some in Hrow as (i' & -> & Hi').
      apply lookup_seq in Hi' as [-> _]. simpl.
      split; [by rewrite fillRow_length, length_replicate|].
      split.
      * intros j val Hj Hval.
        rewrite (fillRow_lookup _ (length (header t))) by (by rewrite ?length_replicate).
        rewrite decide_True by lia. by rewrite Nat.sub_0_r, Hval.
      * intros j Hj Hk.
        rewrite (fillRow_lookup _ (length (header t))) by (by rewrite ?length_replicate).
        rewrite decide_True by lia. rewrite Nat.sub_0_r.
        rewrite (lookup_ge_None_2 vals) by done.
        by apply lookup_replicate_2.
  - intros val. rewrite lines_are_Split.
    destruct (Split_pieces (Sprint val) GoStrings.LF) as [Hnone Hjoin].
    split; [exact Hnone|]. split; [exact Hjoin|].
    intros i Hi. unfold lineOf. rewrite lookup_ge_None_2; [done|].
    rewrite Split_length. unfold lineBreaks in Hi. lia.
Qed.

(** ** Widths *)

Lemma wrap_in_range (z : Z) : GoInt.in_range z -> GoInt.wrap z = z.
Proof.
  unfold GoInt.in_range, GoInt.wrap, GoInt.min_int, GoInt.max_int. intros Hz.
  rewrite Z.mod_small; lia.
Qed.

Lemma add_fits (t : table) (c : string) :
  0 <= Padding t -> cellFits t c ->
  GoInt.add (Width t c) (Padding t) = Width t c + Padding t.
Proof.
  intros HP0 [H0 H1]. apply wrap_in_range.
  unfold GoInt.in_range, GoInt.min_int. lia.
Qed.

Lemma widen_spec (t : table) (i : nat) (cells : list string) (ws : list Z) :
  0 <= Padding t ->
  (i + length cells <= length ws)%nat -> Forall (cellFits t) cells ->
  exists ws', widen t i cells ws = Some ws' /\ length ws' = length ws /\
    forall j, ws' !! j =
      raise t (if decide (i <= j)%nat then cells !! (j - i)%nat else None) <$> ws !! j.
Proof.
  intros HP0. revert i ws.
  induction cells as [|c cells IH]; intros i ws Hlen Hfit; simpl.
  - exists ws. split; [done|]. split; [done|]. intros j.
    case_decide; simpl; by destruct (ws !! j).
  - apply Forall_cons in Hfit as [Hc Hfit]. simpl in Hlen.
    destruct (lookup_lt_is_Some_2 ws i) as [cur Hcur]; [lia|].
    rewrite Hcur. simpl. rewrite (add_fits t c HP0 Hc).
    set (w := Width t c + Padding t).
    set (ws1 := if cur <? w then <[i := w]> ws else ws).
    assert (Hstore : (if cur <? w then store ws i w else Some ws) = Some ws1).
    { unfold ws1. destruct (cur <? w); [|done]. apply store_Some. lia. }
    rewrite Hstore. simpl.
    assert (Hlen1 : length ws1 = length ws).
    { unfold ws1. destruct (cur <? w); by rewrite ?length_insert. }
    destruct (IH (S i) ws1) as (ws' & Hw & Hlen' & Hlook); [lia|done|].
    exists ws'. split; [done|]. split; [lia|]. intros j. rewrite Hlook.
    destruct (decide (i = j)) as [->|Hne].
    + rewrite decide_False by lia. rewrite decide_True by lia.
      rewrite Nat.sub_diag. simpl. rewrite Hcur. simpl.
      unfold ws1. destruct (Z.ltb_spec cur w).
      * rewrite list_lookup_insert_eq by lia. simpl. f_equal. lia.
      * rewrite Hcur. simpl. f_equal. lia.
    + assert (Hj : ws1 !! j = ws !! j).
      { unfold ws1. destruct (cur <? w); [|done].
        by rewrite list_lookup_insert_ne. }
      rewrite Hj. case_decide; case_decide; try lia; [|done].
      by replace (j - i)%nat with (S (j - S i)) by lia.
Qed.

Lemma widenRows_spec (t : table) (rs : list (list string)) (ws : list Z) :
  0 <= Padding t ->
  Forall (fun row => (length row <= length ws)%nat) rs ->
  Forall (cellFits t) (concat rs) ->
  exists ws', widenRows t rs ws = Some ws' /\ length ws' = length ws /\
    forall j, ws' !! j =
      (fun m => foldl (fun m row => raise t (row !! j) m) m rs) <$> ws !! j.
Proof.
  intros HP0. revert ws.
  induction rs as [|row rs IH]; intros ws Hlen Hfit; simpl.
  - exists ws. split; [done|]. split; [done|]. intros j. by destruct (ws !! j).
  - apply Forall_cons in Hlen as [Hrow Hlen].
    apply Forall_app in Hfit as [Hfrow Hfit].
    destruct (widen_spec t 0 row ws HP0) as (ws1 & -> & Hlen1 & Hlook1);
      [simpl; lia|done|]. simpl.
    destruct (IH ws1) as (ws' & -> & Hlen' & Hlook'); [by rewrite Hlen1|done|].
    exists ws'. split; [done|]. split; [lia|]. intros j.
    rewrite Hlook', Hlook1. rewrite decide_True by lia. rewrite Nat.sub_0_r.
    by destruct (ws !! j).
Qed.

(** The loop's running maximum against the specification's formula. *)
Lemma raise_fold (t : table) (j : nat) (rs : list (list string)) (m x : Z) :
  0 <= x -> Forall (cellFits t) (concat rs) ->
  Z.max (foldl (fun m row => raise t (row !! j) m) m rs) (x + Padding t)
  = Z.max m (Padding t + foldr (fun row m => Z.max (cellMetric t row j) m) x rs)
  /\ 0 <= foldr (fun row m => Z.max (cellMetric t row j) m) x rs.
Proof.
  intros Hx. revert m. induction rs as [|row rs IH]; intros m Hfit; simpl.
  - split; lia.
  - apply Forall_app in Hfit as [Hrow Hfit].
    destruct (IH (raise t (row !! j) m) Hfit) as [-> Hpos].
    set (F := foldr _ x rs) in *.
    unfold cellMetric, raise. destruct (row !! j) as [c|] eqn:Hc; [|lia].
    apply list_elem_of_lookup_2 in Hc.
    rewrite Forall_forall in Hrow. destruct (Hrow c Hc). lia.
Qed.

Lemma set_widths_same (t : table) : set_widths t (widths t) = t.
Proof. by destruct t. Qed.

Lemma widen_ext (u t : table) (i : nat) (cells : list string) (ws : list Z) :
  Width u = Width t -> Padding u = Padding t ->
  widen u i cells ws = widen t i cells ws.
Proof.
  intros HW HP. revert i ws.
  induction cells as [|c cells IH]; intros i ws; simpl; [done|].
  rewrite HW, HP. destruct (ws !! i); simpl; [|done].
  destruct (_ <? _); simpl; [destruct (store _ _ _); simpl|]; auto.
Qed.

Lemma widenRows_ext (u t : table) (rs : list (list string)) (ws : list Z) :
  Width u = Width t -> Padding u = Padding t ->
  widenRows u rs ws = widenRows t rs ws.
Proof.
  intros HW HP. revert ws.
  induction rs as [|row rs IH]; intros ws; simpl; [done|].
  rewrite (widen_ext u t) by done. destruct (widen t 0 row ws); simpl; auto.
Qed.

Lemma calculateWidths_stale (t : table) (stale : list Z) :
  calculateWidths (set_widths t stale) = calculateWidths t.
Proof.
  unfold calculateWidths. simpl.
  rewrite (widenRows_ext (set_widths t stale) t) by done.
  destruct (widenRows t (rows t) _) as [ws|]; simpl; [|done].
  rewrite (widen_ext (set_widths t stale) t) by done.
  by destruct (widen t 0 (header t) ws).
Qed.

Lemma calculateWidths_specWidths (t : table) :
  rowsFit t -> metricFits t ->
  calculateWidths t = Some (set_widths t (specWidths t)).
Proof.
  intros Hfit [HP Hcells]. apply Forall_app in Hcells as [Hhdr Hrows].
  unfold calculateWidths.
  destruct (widenRows_spec t (rows t) (replicate (length (header t)) 0))
    as (ws1 & -> & Hlen1 & Hlook1); [done| |done|].
  { eapply Forall_impl; [exact Hfit|]. intros row Hrow. by rewrite length_replicate. }
  simpl.
  destruct (widen_spec t 0 (header t) ws1) as (ws2 & -> & Hlen2 & Hlook2);
    [done| |done|].
  { rewrite Hlen1, length_replicate. simpl. lia. }
  simpl. do 2 f_equal. apply list_eq. intros j.
  unfold specWidths. rewrite list_lookup_imap, Hlook2, Hlook1.
  rewrite decide_True by lia. rewrite Nat.sub_0_r.
  destruct (header t !! j) as [h|] eqn:Hh; simpl.
  - rewrite lookup_replicate_2 by (by eapply lookup_lt_Some). simpl. f_equal.
    assert (Hh0 : 0 <= Width t h).
    { apply list_elem_of_lookup_2 in Hh. rewrite Forall_forall in Hhdr.
      by destruct (Hhdr h Hh). }
    destruct (raise_fold t j (rows t) 0 (Width t h) Hh0 Hrows) as [Heq Hpos].
    rewrite Heq. unfold columnWidth. lia.
  - apply lookup_ge_None in Hh.
    rewrite lookup_ge_None_2 by (by rewrite length_replicate). done.
Qed.

Lemma Print_widths (t u : table) (out : list string) :
  Print t = Some (u, out) -> calculateWidths t = Some u.
Proof.
  unfold Print. destruct (calculateWidths t) as [t1|]; simpl; [|done].
  intros H. destruct (if PrintHeaders t1 then _ else _); simpl in H; [|done].
  destruct (printRows _ _ _ _); simpl in H; [|done]. congruence.
Qed.

Lemma Print_stale (t : table) (stale : list Z) :
  Print (set_widths t stale) = Print t.
Proof. unfold Print. by rewrite calculateWidths_stale. Qed.

(** C1. On each render the width computed for every column [j] is
    [padding + max(metric(header[j]), max over the stored rows r of metric(r[j]))],
    a row too short to have a cell [j] counting 0; the widths are computed
    anew from the header and the rows on every call, whatever widths an
    earlier render left in the table.  The table is one the package builds
    (no row longer than the header, padding not negative) and the metric
    is a width: not negative, and with the padding within an [int]. *)
Theorem Print_computes_widths (t : table) :
  rowsFit t -> metricFits t ->
  calculateWidths t = Some (set_widths t (specWidths t)) /\
  length (specWidths t) = length (header t) /\
  (forall j h, header t !! j = Some h ->
     specWidths t !! j = Some (columnWidth t j h)) /\
  (forall u out, Print t = Some (u, out) -> u = set_widths t (specWidths t)) /\
  (forall stale,
     calculateWidths (set_widths t stale) = Some (set_widths t (specWidths t)) /\
     Print (set_widths t stale) = Print t).
Proof.
  intros Hfit Hmetric.
  pose proof (calculateWidths_specWidths t Hfit Hmetric) as Hcalc.
  split; [done|]. split; [apply length_imap|]. split.
  { intros j h Hh. unfold specWidths. by rewrite list_lookup_imap, Hh. }
  split.
  { intros u out HP. apply Print_widths in HP. congruence. }
  intros stale. split; [by rewrite calculateWidths_stale|apply Print_stale].
Qed.

Lemma calculateWidths_shape (t u : table) :
  calculateWidths t = Some u -> u = set_widths t (widths u).
Proof.
  unfold calculateWidths.
  destruct (widenRows t (rows t) _) as [ws1|]; simpl; [|done].
  destruct (widen t 0 (header t) ws1) as [ws2|]; simpl; [|done].
  by intros [= <-].
Qed.

(** ** Sorting: validation and the empty criteria list *)

Lemma set_rows_same (t : table) : set_rows t (rows t) = t.
Proof. by destruct t. Qed.

Section NeverLess.
Context {A : Type} (less : list A -> nat -> nat -> option bool).
Hypothesis never : forall data i j, less data i j = Some false.

Lemma sift_never (data : list A) (a j : nat) :
  GoSort.sift less data a j = Some data.
Proof. destruct j; simpl; [done|]. case_decide; by rewrite ?never. Qed.

Lemma sift_all_never (data : list A) (a i n : nat) :
  GoSort.sift_all less data a i n = Some data.
Proof.
  revert i. induction n as [|n IH]; intros i; simpl; [done|].
  rewrite sift_never. simpl. apply IH.
Qed.

Lemma SliceStable_never (data : list A) :
  GoSort.SliceStable less data = Some data.
Proof. apply sift_all_never. Qed.
End NeverLess.

(** C10. [SortByMultiple] with an empty list of criteria returns no error
    and leaves the table, and so its sequence of rows, exactly as it was. *)
Theorem SortByMultiple_no_criteria (t : table) :
  SortByMultiple t [] = Some (t, None) /\
  (forall u e, SortByMultiple t [] = Some (u, e) -> rows u = rows t /\ e = None).
Proof.
  assert (H : SortByMultiple t [] = Some (t, None)).
  { unfold SortByMultiple. simpl.
    rewrite SliceStable_never by done. simpl. by rewrite set_rows_same. }
  split; [done|]. intros u e. rewrite H. by intros [= <- <-].
Qed.

Lemma outOfRange_test (t : table) (n : Z) :
  (n <? 0) || (Z.of_nat (length (header t)) <=? n) = true <-> outOfRange t n.
Proof. unfold outOfRange. rewrite orb_true_iff, Z.ltb_lt, Z.leb_le. done. Qed.

Lemma invalidCriterion_Some (t : table) (criteria : list SortCriterion) (e : error) :
  invalidCriterion t criteria = Some e ->
  exists c, c ∈ criteria /\ outOfRange t (ColumnIndex c) /\
            e = ErrInvalidColumnIndex (ColumnIndex c) (length (header t)).
Proof.
  induction criteria as [|c criteria IH]; simpl; [done|].
  destruct (_ || _) eqn:Htest.
  - intros [= <-]. exists c. split; [by left|]. split; [|done].
    by apply outOfRange_test.
  - intros H. destruct (IH H) as (c' & Hin & Hc'). exists c'. split; [by right|done].
Qed.

Lemma invalidCriterion_None (t : table) (criteria : list SortCriterion) :
  invalidCriterion t criteria = None <->
  Forall (fun c => ~ outOfRange t (ColumnIndex c)) criteria.
Proof.
  induction criteria as [|c criteria IH]; simpl; [by split|].
  destruct (_ || _) eqn:Htest.
  - apply outOfRange_test in Htest. split; [done|].
    intros H. apply Forall_cons in H as [H _]. done.
  - rewrite IH. split.
    + intros H. apply Forall_cons. split; [|done].
      intros Hc. apply outOfRange_test in Hc. congruence.
    + intros H. by apply Forall_cons in H as [_ H].
Qed.

(** C6. [SortBy] returns its validation error exactly when the column index
    [n] is outside [0 <= n < C], and [SortByMultiple] returns one exactly
    when some criterion's column index is; the error is then returned with
    the table, and so its rows, exactly as they were before the call. *)
Theorem Sort_validation (t : table) :
  (forall n cmpFn,
     (outOfRange t n <-> exists u e, SortBy t n cmpFn = Some (u, Some e)) /\
     (forall u e, SortBy t n cmpFn = Some (u, Some e) ->
        u = t /\ e = ErrInvalidColumnIndex n (length (header t)))) /\
  (forall criteria,
     (Exists (fun c => outOfRange t (ColumnIndex c)) criteria
      <-> exists u e, SortByMultiple t criteria = Some (u, Some e)) /\
     (forall u e, SortByMultiple t criteria = Some (u, Some e) ->
        u = t /\ exists c, c ∈ criteria /\ outOfRange t (ColumnIndex c) /\
                 e = ErrInvalidColumnIndex (ColumnIndex c) (length (header t)))).
Proof.
  split.
  - intros n cmpFn. unfold SortBy.
    destruct (_ || _) eqn:Htest.
    + apply outOfRange_test in Htest. split.
      * split; [eauto|done].
      * by intros u e [= <- <-].
    + assert (Hin : ~ outOfRange t n).
      { intros H. apply outOfRange_test in H. congruence. }
      destruct (GoSort.SliceStable _ _); simpl; split.
      * split; [done|]. by intros (u & e & [=]).
      * by intros u e [=].
      * split; [done|]. by intros (u & e & [=]).
      * by intros u e [=].
  - intros criteria. unfold SortByMultiple.
    destruct (invalidCriterion t criteria) as [e0|] eqn:Hinv.
    + destruct (invalidCriterion_Some _ _ _ Hinv) as (c & Hin & Hc & ->). split.
      * split; [eauto|]. intros _. apply Exists_exists. eauto.
      * intros u e [= <- <-]. eauto.
    + apply invalidCriterion_None in Hinv.
      assert (Hno : ~ Exists (fun c => outOfRange t (ColumnIndex c)) criteria).
      { intros Hex. apply Exists_exists in Hex as (c & Hin & Hc).
        rewrite Forall_forall in Hinv. by apply (Hinv c). }
      destruct (GoSort.SliceStable _ _); simpl; split.
      * split; [done|]. by intros (u & e & [=]).
      * by intros u e [=].
      * split; [done|]. by intros (u & e & [=]).
      * by intros u e [=].
Qed.

(** ** Sorting: stability *)

Lemma adjacent_decompose {A : Type} (l : list A) (k : nat) (a b : A) :
  l !! k = Some a -> l !! S k = Some b ->
  l = take k l ++ a :: b :: drop (S (S k)) l /\
  <[S k := a]> (<[k := b]> l) = take k l ++ b :: a :: drop (S (S k)) l.
Proof.
  revert k. induction l as [|c l IH]; intros k Ha Hb; [done|].
  destruct k as [|k].
  - destruct l as [|d l]; [done|]. simpl in *. simplify_eq. by rewrite drop_0.
  - simpl in Ha, Hb. destruct (IH k Ha Hb) as [H1 H2]. simpl.
    split; [by rewrite <- H1|]. by rewrite <- H2.
Qed.

Lemma exchange_lookup {A : Type} (l : list A) (k : nat) (x y : A) :
  (S k < length l)%nat ->
  forall p, <[S k := y]> (<[k := x]> l) !! p =
            if decide (p = S k) then Some y
            else if decide (p = k) then Some x else l !! p.
Proof.
  intros HSk p. case_decide as H1; [subst p|case_decide as H2; [subst p|]].
  - apply list_lookup_insert_eq. by rewrite length_insert.
  - rewrite list_lookup_insert_ne by lia. apply list_lookup_insert_eq. lia.
  - by rewrite !list_lookup_insert_ne by lia.
Qed.

Section Stability.
Context {A : Type}.

(** The closure handed to [sort.SliceStable] and the comparison of two
    elements that it makes at the indices it is given. *)
Variable less : list A -> nat -> nat -> option bool.
Variable lt : A -> A -> option bool.
Hypothesis less_reads :
  forall data i j x y, data !! i = Some x -> data !! j = Some y ->
    less data i j = lt x y.

Lemma sift_steps (data : list A) (a j : nat) (data' : list A) :
  GoSort.sift less data a j = Some data' -> rtc (swapStep lt) data data'.
Proof.
  revert data. induction j as [|j IH]; intros data; simpl.
  { intros [= <-]. apply rtc_refl. }
  case_decide; [|intros [= <-]; apply rtc_refl].
  destruct (less data (S j) j) as [[|]|] eqn:Hless; simpl; [| |done].
  - unfold GoSort.Swap.
    destruct (data !! S j) as [x|] eqn:Hx; simpl; [|done].
    destruct (data !! j) as [y|] eqn:Hy; simpl; [|done].
    intros Hrest. rewrite (less_reads _ _ _ x y Hx Hy) in Hless.
    eapply rtc_l; [|by apply IH]. by apply swap_at.
  - intros [= <-]. apply rtc_refl.
Qed.

Lemma sift_all_steps (data : list A) (a i n : nat) (data' : list A) :
  GoSort.sift_all less data a i n = Some data' -> rtc (swapStep lt) data data'.
Proof.
  revert data i. induction n as [|n IH]; intros data i; simpl.
  { intros [= <-]. apply rtc_refl. }
  destruct (GoSort.sift less data a i) as [data1|] eqn:Hsift; simpl; [|done].
  intros Hrest. etrans; [by eapply sift_steps|by eapply IH].
Qed.

Lemma SliceStable_steps (data data' : list A) :
  GoSort.SliceStable less data = Some data' -> rtc (swapStep lt) data data'.
Proof. apply sift_all_steps. Qed.

Lemma traces_init (l0 : list A) : traces lt l0 l0 (seq 0 (length l0)).
Proof.
  split; [done|]. split.
  - apply Forall2_same_length_lookup. split; [by rewrite length_seq|].
    intros i j x Hj Hx. apply lookup_seq in Hj as [-> _]. done.
  - intros p q i j x y Hpq Hp Hq Hji.
    apply lookup_seq in Hp as [-> _]. apply lookup_seq in Hq as [-> _]. lia.
Qed.

Lemma traces_step (l0 l l' : list A) (pi : list nat) :
  traces lt l0 l pi -> (swapStep lt) l l' -> exists pi', traces lt l0 l' pi'.
Proof.
  intros (Hperm & Hall & Hinv) Hstep.
  destruct Hstep as [l k x y Hy Hx Hlt].
  pose proof (Forall2_length _ _ _ Hall) as Hlen.
  destruct (lookup_lt_is_Some_2 pi k) as [iy Hiy].
  { rewrite Hlen. by eapply lookup_lt_Some. }
  destruct (lookup_lt_is_Some_2 pi (S k)) as [ix Hix].
  { rewrite Hlen. by eapply lookup_lt_Some. }
  exists (<[S k := iy]> (<[k := ix]> pi)). split; [|split].
  - destruct (adjacent_decompose pi k iy ix Hiy Hix) as [H1 H2].
    rewrite H2. trans (take k pi ++ iy :: ix :: drop (S (S k)) pi).
    + apply Permutation_app_head, perm_swap.
    + by rewrite <- H1.
  - apply Forall2_insert; [apply Forall2_insert; [done|]|].
    + exact (Forall2_lookup_lr _ pi l (S k) ix x Hall Hix Hx).
    + exact (Forall2_lookup_lr _ pi l k iy y Hall Hiy Hy).
  - assert (Hk : (k < length l)%nat) by (by eapply lookup_lt_Some).
    assert (HSk : (S k < length l)%nat) by (by eapply lookup_lt_Some).
    assert (Hl' := exchange_lookup l k x y HSk).
    assert (Hpi' := exchange_lookup pi k ix iy ltac:(lia)).
    intros p q i j a b Hpq. rewrite !Hpi', !Hl'. intros Hp Hq Hji Ha Hb.
    repeat case_decide; simplify_eq; try lia; try done;
      (eapply Hinv; [ | | | |eassumption|eassumption]; [|eassumption|eassumption|]; lia).
Qed.

Lemma traces_steps (l0 l l' : list A) (pi : list nat) :
  traces lt l0 l pi -> rtc (swapStep lt) l l' -> exists pi', traces lt l0 l' pi'.
Proof.
  intros Htr Hsteps. revert pi Htr.
  induction Hsteps as [l|l l1 l' Hstep _ IH]; intros pi Htr; [eauto|].
  destruct (traces_step l0 l l1 pi Htr Hstep) as [pi1 Htr1]. eauto.
Qed.

(** Two elements neither of which was found less than the other keep
    their order. *)
Lemma traces_keeps_order (l0 l : list A) (pi : list nat) (i j : nat) (a b : A) :
  traces lt l0 l pi -> (i < j)%nat -> l0 !! i = Some a -> l0 !! j = Some b ->
  lt b a <> Some true ->
  exists p q, (p < q)%nat /\ pi !! p = Some i /\ pi !! q = Some j.
Proof.
  intros (Hperm & Hall & Hinv) Hij Ha Hb Hnot.
  assert (Hin : forall n, (n < length l0)%nat -> exists p, pi !! p = Some n).
  { intros n Hn. apply list_elem_of_lookup. rewrite Hperm.
    apply elem_of_seq. lia. }
  destruct (Hin i) as [p Hp]; [by eapply lookup_lt_Some|].
  destruct (Hin j) as [q Hq]; [by eapply lookup_lt_Some|].
  exists p, q. split; [|done].
  destruct (decide (p < q)%nat) as [|Hge]; [done|]. exfalso.
  assert (p <> q) by (intros ->; simplify_eq; lia).
  destruct (Forall2_lookup_l _ _ _ _ _ Hall Hp) as (a' & Hla & Ha').
  destruct (Forall2_lookup_l _ _ _ _ _ Hall Hq) as (b' & Hlb & Hb').
  simplify_eq. apply Hnot. eapply (Hinv q p j i); eauto; lia.
Qed.

End Stability.

Lemma lessBy_reads (n : nat) (cmpFn : ComparisonFunc)
    (rs : list (list string)) (i j : nat) (x y : list string) :
  rs !! i = Some x -> rs !! j = Some y ->
  lessBy n cmpFn rs i j = rowLess n cmpFn x y.
Proof.
  intros Hx Hy. unfold lessBy, rowLess. rewrite Hx, Hy. simpl.
  destruct (x !! n); simpl; [done|]. by destruct (y !! n).
Qed.

Lemma lessByMultiple_reads (criteria : list SortCriterion)
    (rs : list (list string)) (i j : nat) (x y : list string) :
  rs !! i = Some x -> rs !! j = Some y ->
  lessByMultiple criteria rs i j = rowLessMultiple criteria x y.
Proof.
  intros Hx Hy. induction criteria as [|c criteria IH]; simpl; [done|].
  rewrite Hx, Hy. simpl.
  destruct (x !! Z.to_nat (ColumnIndex c)) as [a|]; simpl.
  - destruct (y !! Z.to_nat (ColumnIndex c)) as [b|]; simpl; [|done].
    by rewrite IH.
  - by destruct (y !! Z.to_nat (ColumnIndex c)).
Qed.



Lemma SliceStable_stable {A : Type} (less : list A -> nat -> nat -> option bool)
    (lt : A -> A -> option bool) (data data' : list A) :
  (forall d i j x y, d !! i = Some x -> d !! j = Some y -> less d i j = lt x y) ->
  GoSort.SliceStable less data = Some data' ->
  exists pi, traces lt data data' pi.
Proof.
  intros Hreads Hsort.
  eapply traces_steps; [apply traces_init|].
  by eapply SliceStable_steps.
Qed.

(** ** Sorting: when it completes *)

Section Completes.
Context {A : Type}.
Variable less : list A -> nat -> nat -> option bool.

(** Elements on which the closure does not panic. *)
Variable ok : A -> Prop.
Hypothesis less_ok :
  forall data i j x y, data !! i = Some x -> data !! j = Some y ->
    ok x -> ok y -> is_Some (less data i j).

Lemma sift_completes (data : list A) (a j : nat) :
  (j < length data)%nat -> Forall ok data ->
  exists data', GoSort.sift less data a j = Some data' /\
                Forall ok data' /\ length data' = length data.
Proof.
  revert data. induction j as [|j IH]; intros data Hj Hok; simpl; [eauto|].
  case_decide; [|eauto].
  destruct (lookup_lt_is_Some_2 data (S j)) as [x Hx]; [lia|].
  destruct (lookup_lt_is_Some_2 data j) as [y Hy]; [lia|].
  assert (Hokx : ok x) by (eapply Forall_lookup_1; eauto).
  assert (Hoky : ok y) by (eapply Forall_lookup_1; eauto).
  destruct (less_ok data (S j) j x y Hx Hy Hokx Hoky) as [b ->]. simpl.
  destruct b; [|eauto].
  unfold GoSort.Swap. rewrite Hx, Hy. simpl.
  destruct (IH (<[S j := y]> (<[j := x]> data))) as (data' & -> & Hok' & Hlen').
  - rewrite !length_insert. lia.
  - by repeat apply Forall_insert.
  - exists data'. rewrite !length_insert in Hlen'. done.
Qed.

Lemma sift_all_completes (data : list A) (a i n : nat) :
  (n = 0 \/ i + n <= length data)%nat -> Forall ok data ->
  exists data', GoSort.sift_all less data a i n = Some data' /\
                Forall ok data' /\ length data' = length data.
Proof.
  revert data i. induction n as [|n IH]; intros data i Hn Hok; simpl; [eauto|].
  destruct (sift_completes data a i) as (data1 & -> & Hok1 & Hlen1); [lia|done|].
  simpl. destruct (IH data1 (S i)) as (data' & -> & Hok' & Hlen'); [lia|done|].
  exists data'. split; [done|]. split; [done|]. lia.
Qed.

Lemma SliceStable_completes (data : list A) :
  Forall ok data -> is_Some (GoSort.SliceStable less data).
Proof.
  intros Hok. unfold GoSort.SliceStable, GoSort.insertionSort.
  destruct (sift_all_completes data 0 (0 + 1) (length data - (0 + 1)))
    as (data' & -> & _); [lia|done|]. eauto.
Qed.

End Completes.




(** ** Sorting: the model against the contract of [sort.SliceStable]

    For a [less] that is a strict weak order the library returns the
    elements sorted, equal ones in their original order.  There is one such
    arrangement, and the insertion sort above returns it. *)

Lemma before_cons (a i j : nat) (pi : list nat) :
  i <> a -> before (a :: pi) i j -> before pi i j.
Proof.
  intros Hia (p & q & Hpq & Hp & Hq).
  destruct p as [|p]; simpl in Hp; [congruence|].
  destruct q as [|q]; [lia|]. simpl in Hq.
  exists p, q. split; [lia|done].
Qed.

Lemma before_asym (pi : list nat) (i j : nat) :
  NoDup pi -> before pi i j -> before pi j i -> False.
Proof.
  intros Hnd (p & q & Hpq & Hp & Hq) (p' & q' & Hpq' & Hp' & Hq').
  assert (p = q') by (eapply NoDup_lookup; eauto).
  assert (q = p') by (eapply NoDup_lookup; eauto). lia.
Qed.

Lemma before_total (pi : list nat) (i j : nat) :
  i ∈ pi -> j ∈ pi -> i <> j -> before pi i j \/ before pi j i.
Proof.
  intros [p Hp]%list_elem_of_lookup [q Hq]%list_elem_of_lookup Hij.
  destruct (decide (p < q)%nat); [left; by exists p, q|].
  right. exists q, p. split; [|done].
  assert (p <> q) by (intros ->; congruence). lia.
Qed.

(** Two arrangements of the same distinct numbers that agree on which of
    any two comes first are the same list. *)
Lemma order_determines (pi1 pi2 : list nat) :
  NoDup pi1 -> pi1 ≡ₚ pi2 ->
  (forall i j, before pi1 i j -> before pi2 i j) ->
  pi1 = pi2.
Proof.
  revert pi2. induction pi1 as [|a pi1 IH]; intros pi2 Hnd Hperm Hord.
  - by apply Permutation_nil_l in Hperm.
  - destruct pi2 as [|b pi2]; [by apply Permutation_nil_r in Hperm|].
    apply NoDup_cons in Hnd as [Ha Hnd].
    assert (Hnd2 : NoDup (b :: pi2)) by (rewrite <- Hperm; by apply NoDup_cons).
    assert (a = b) as <-.
    { destruct (decide (a = b)) as [|Hne]; [done|]. exfalso.
      assert (Hb : b ∈ pi1).
      { assert (Hb : b ∈ a :: pi1) by (rewrite Hperm; left).
        apply elem_of_cons in Hb as [?|?]; [congruence|done]. }
      apply list_elem_of_lookup in Hb as [q Hq].
      assert (Hab : before (a :: pi1) a b) by (exists 0%nat, (S q); split; [lia|done]).
      apply Hord in Hab as (p' & q' & Hpq' & _ & Hq').
      assert (q' = 0%nat) by (eapply (NoDup_lookup _ q' 0%nat b Hnd2); eauto).
      lia. }
    f_equal. apply IH; [done|by eapply Permutation_cons_inv|].
    intros i j Hij.
    assert (Hi : i <> a).
    { destruct Hij as (p & q & _ & Hp & _). intros ->.
      apply Ha. by eapply list_elem_of_lookup_2. }
    apply (before_cons a); [done|]. apply Hord.
    destruct Hij as (p & q & Hpq & Hp & Hq).
    exists (S p), (S q). split; [lia|done].
Qed.

Lemma stableSorted_unique {A : Type} (lt : A -> A -> option bool) (l0 l1 l2 : list A) :
  stableSorted lt l0 l1 -> stableSorted lt l0 l2 -> l1 = l2.
Proof.
  intros (pi1 & Hperm1 & Hall1 & Hsort1 & Hkeep1) (pi2 & Hperm2 & Hall2 & Hsort2 & Hkeep2).
  assert (Hnd1 : NoDup pi1) by (rewrite Hperm1; apply NoDup_seq).
  assert (Hnd2 : NoDup pi2) by (rewrite Hperm2; apply NoDup_seq).
  assert (Hcells : forall (pi : list nat) (l : list A) p i,
            Forall2 (fun i x => l0 !! i = Some x) pi l ->
            pi !! p = Some i -> exists x, l !! p = Some x /\ l0 !! i = Some x).
  { intros pi l p i Hall Hp. by eapply Forall2_lookup_l in Hall. }
  assert (Hpi : pi1 = pi2).
  { apply order_determines; [done|by rewrite Hperm1, Hperm2|].
    intros i j Hij. assert (Hij1 := Hij).
    destruct Hij1 as (p & q & Hpq & Hp & Hq).
    assert (i <> j).
    { intros Heq. subst j. pose proof (NoDup_lookup pi1 p q i Hnd1 Hp Hq). lia. }
    destruct (before_total pi2 i j) as [|Hji]; [| |done|done|].
    { rewrite Hperm2, <- Hperm1. by eapply list_elem_of_lookup_2. }
    { rewrite Hperm2, <- Hperm1. by eapply list_elem_of_lookup_2. }
    exfalso. destruct Hji as (q' & p' & Hqp' & Hq' & Hp').
    destruct (Hcells pi1 l1 p i Hall1 Hp) as (x & Hx1 & Hx0).
    destruct (Hcells pi1 l1 q j Hall1 Hq) as (y & Hy1 & Hy0).
    destruct (Hcells pi2 l2 q' j Hall2 Hq') as (y' & Hy2 & Hy0').
    destruct (Hcells pi2 l2 p' i Hall2 Hp') as (x' & Hx2 & Hx0').
    simplify_eq.
    pose proof (Hsort1 p q x y Hpq Hx1 Hy1) as Hyx.
    pose proof (Hsort2 q' p' y x Hqp' Hy2 Hx2) as Hxy.
    destruct (decide (i < j)%nat).
    - apply (before_asym pi2 i j); [done| |by exists q', p'].
      by apply (Hkeep2 i j x y).
    - apply (before_asym pi1 i j); [done|done|].
      apply (Hkeep1 j i y x); [lia|done..]. }
  subst pi2. apply list_eq. intros p.
  destruct (pi1 !! p) as [i|] eqn:Hp.
  - destruct (Hcells pi1 l1 p i Hall1 Hp) as (x & -> & Hx).
    destruct (Hcells pi1 l2 p i Hall2 Hp) as (x' & -> & Hx'). congruence.
  - apply lookup_ge_None in Hp.
    rewrite !lookup_ge_None_2; [done|..].
    + by rewrite <- (Forall2_length _ _ _ Hall2).
    + by rewrite <- (Forall2_length _ _ _ Hall1).
Qed.

Section Contract.
Context {A : Type}.
Variable ltb : A -> A -> bool.
Variable less : list A -> nat -> nat -> option bool.
Hypothesis less_reads :
  forall data i j x y, data !! i = Some x -> data !! j = Some y ->
    less data i j = Some (ltb x y).

(** [ltb] is a strict weak order. *)
Hypothesis asym : forall x y, ltb x y = true -> ltb y x = false.
Hypothesis negtrans : forall x y z, ltb x z = true -> ltb x y = true \/ ltb y z = true.

Lemma sift_sorted (data : list A) (a i j : nat) (data' : list A) :
  (a <= j)%nat -> (j <= i)%nat -> (i < length data)%nat ->
  sortedApart ltb data a i j -> aheadOf ltb data i j ->
  GoSort.sift less data a j = Some data' ->
  sortedWithin ltb data' a i /\ length data' = length data.
Proof.
  revert data. induction j as [|j IH]; intros data Haj Hji Hlen Hsorted Hahead.
  - simpl. intros [= <-]. split; [|done].
    intros p q x y Hap Hpq Hqi Hx Hy.
    destruct (decide (p = 0)%nat) as [->|]; [|by apply (Hsorted p q); try lia].
    apply asym. by apply (Hahead q).
  - simpl. case_decide as Ha.
    2:{ intros [= <-]. split; [|done].
        intros p q x y Hap Hpq Hqi Hx Hy.
        destruct (decide (p = S j)) as [->|]; [|by apply (Hsorted p q); try lia].
        apply asym. by apply (Hahead q). }
    destruct (lookup_lt_is_Some_2 data (S j)) as [x Hx]; [lia|].
    destruct (lookup_lt_is_Some_2 data j) as [y Hy]; [lia|].
    rewrite (less_reads data (S j) j x y Hx Hy). simpl.
    destruct (ltb x y) eqn:Hxy.
    + unfold GoSort.Swap. rewrite Hx, Hy. simpl. intros Hrest.
      assert (Hlook := exchange_lookup data j x y ltac:(lia)).
      destruct (IH (<[S j := y]> (<[j := x]> data))) as [Hs Hl];
        [lia|lia|by rewrite !length_insert| | |done|].
      * intros p q u v Hap Hpq Hqi Hpj Hqj. rewrite !Hlook.
        repeat case_decide; simplify_eq; try lia; intros Hu Hv; simplify_eq;
          (eapply Hsorted; [ | | | | |eassumption|eassumption]; lia).
      * intros q u v Hjq Hqi. rewrite !Hlook.
        repeat case_decide; simplify_eq; try lia; intros Hu Hv; simplify_eq;
          first [done | eapply Hahead; [ | |eassumption|eassumption]; lia].
      * split; [done|]. by rewrite Hl, !length_insert.
    + intros [= <-]. split; [|done].
      intros p q u v Hap Hpq Hqi Hu Hv.
      destruct (decide (p = S j)) as [->|Hp].
      { apply asym. by apply (Hahead q). }
      destruct (decide (q = S j)) as [->|Hq]; [|by apply (Hsorted p q); try lia].
      assert (v = x) as -> by congruence.
      destruct (decide (p = j)) as [->|Hpj]; [congruence|].
      destruct (ltb x u) eqn:Hxu; [|done].
      destruct (negtrans x y u Hxu) as [?|Hyu]; [congruence|].
      assert (ltb y u = false) by (by apply (Hsorted p j); try lia).
      congruence.
Qed.

Lemma sift_all_sorted (data : list A) (a i n : nat) (data' : list A) :
  (a < i)%nat -> (n = 0 \/ i + n <= length data)%nat ->
  sortedWithin ltb data a (i - 1) ->
  GoSort.sift_all less data a i n = Some data' ->
  sortedWithin ltb data' a (i + n - 1) /\ length data' = length data.
Proof.
  revert data i. induction n as [|n IH]; intros data i Hai Hn Hsorted; simpl.
  - intros [= <-]. by rewrite Nat.add_0_r.
  - destruct (GoSort.sift less data a i) as [data1|] eqn:Hsift; simpl; [|done].
    intros Hrest.
    destruct (sift_sorted data a i i data1) as [Hs1 Hl1]; [lia|lia|lia| | |done|].
    + intros p q x y Hap Hpq Hqi Hp Hq. apply Hsorted; lia.
    + intros q x y Hq1 Hq2. lia.
    + destruct (IH data1 (S i)) as [Hs Hl]; [lia|lia| |done|].
      * by replace (S i - 1)%nat with i by lia.
      * split; [|lia]. by replace (i + S n - 1)%nat with (S i + n - 1)%nat by lia.
Qed.

Lemma SliceStable_sorted (data data' : list A) :
  GoSort.SliceStable less data = Some data' ->
  sortedBy (fun x y => Some (ltb x y)) data'.
Proof.
  unfold GoSort.SliceStable, GoSort.insertionSort. intros Hsort.
  destruct (sift_all_sorted data 0 (0 + 1) (length data - (0 + 1)) data')
    as [Hs Hl]; [lia|lia| |done|].
  { intros p q x y Hp Hpq Hq. lia. }
  intros p q x y Hpq Hx Hy. f_equal. apply (Hs p q); [lia|done| |done|done].
  apply lookup_lt_Some in Hy. lia.
Qed.

(** The model returns the one arrangement that meets the contract. *)
Lemma SliceStable_meets_contract (data : list A) :
  exists out, GoSort.SliceStable less data = Some out /\
    stableSorted (fun x y => Some (ltb x y)) data out /\
    forall out', stableSorted (fun x y => Some (ltb x y)) data out' -> out' = out.
Proof.
  destruct (SliceStable_completes less (fun _ => True)) with (data := data)
    as [out Hout].
  { intros d i j x y Hx Hy _ _. rewrite (less_reads d i j x y Hx Hy). eauto. }
  { by apply Forall_forall. }
  exists out. split; [done|].
  assert (Hstable : stableSorted (fun x y => Some (ltb x y)) data out).
  { destruct (SliceStable_stable less (fun x y => Some (ltb x y)) data out)
      as [pi Htr]; [done|done|].
    exists pi. destruct Htr as (Hperm & Hall & Hinv) eqn:Htr'. clear Htr'.
    split; [done|]. split; [done|].
    split; [by eapply SliceStable_sorted|].
    intros i j x y Hij Hx Hy _ Hyx.
    eapply (traces_keeps_order (fun x y => Some (ltb x y)) data out pi i j x y);
      [by split|done..|].
    congruence. }
  split; [done|]. intros out' Hout'. by eapply stableSorted_unique.
Qed.

End Contract.

(** ** Transposing *)

Lemma firstCells_full (rs : list (list string)) (newHeader : list string) :
  hasColumn 0 rs ->
  firstCells rs newHeader = Some (newHeader ++ (cellOr 0 <$> rs)).
Proof.
  revert newHeader. induction rs as [|row rs IH]; intros newHeader Hrs; simpl.
  - by rewrite app_nil_r.
  - apply Forall_cons in Hrs as [Hrow Hrs].
    destruct (lookup_lt_is_Some_2 row 0 Hrow) as [c Hc]. rewrite Hc. simpl.
    rewrite IH by done. unfold cellOr at 2. rewrite Hc. simpl.
    by rewrite <- app_assoc.
Qed.

Lemma firstCells_short (rs : list (list string)) (newHeader : list string) :
  [] ∈ rs -> firstCells rs newHeader = None.
Proof.
  revert newHeader. induction rs as [|row rs IH]; intros newHeader Hin.
  - by apply not_elem_of_nil in Hin.
  - simpl. destruct row as [|c row]; [done|]. simpl.
    apply elem_of_cons in Hin as [?|Hin]; [done|]. by apply IH.
Qed.

Lemma fillCells_spec (i j : nat) (rs : list (list string)) (newRow : list string) :
  length newRow = (j + 1 + length rs)%nat ->
  fillCells i j rs newRow = Some (take (j + 1) newRow ++ (cellOr (i + 1) <$> rs)).
Proof.
  revert j newRow. induction rs as [|row rs IH]; intros j newRow Hlen; simpl in *.
  - rewrite app_nil_r. by rewrite take_ge by lia.
  - rewrite store_Some by lia. simpl.
    rewrite IH by (rewrite length_insert; lia).
    f_equal. replace (S j + 1)%nat with (S (j + 1)) by lia.
    rewrite (take_S_r _ _ (cellOr (i + 1) row)).
    + rewrite take_insert_ge by lia. by rewrite <- app_assoc.
    + rewrite list_lookup_insert_eq by lia. done.
Qed.

Lemma fillRows_spec (i : nat) (hs : list string) (rs newRows : list (list string)) :
  (i + length hs <= length newRows)%nat ->
  Forall (fun newRow => length newRow = (length rs + 1)%nat) newRows ->
  fillRows i hs rs newRows =
    Some (take i newRows
          ++ imap (fun k h => h :: (cellOr (i + k + 1) <$> rs)) hs
          ++ drop (i + length hs) newRows).
Proof.
  revert i newRows. induction hs as [|h hs IH]; intros i newRows Hlen Hrows; simpl in *.
  - rewrite Nat.add_0_r. by rewrite take_drop.
  - destruct (lookup_lt_is_Some_2 newRows i) as [newRow HnewRow]; [lia|].
    rewrite HnewRow. simpl.
    assert (HlenRow : length newRow = (length rs + 1)%nat).
    { eapply (Forall_lookup_1 _ _ _ _ Hrows HnewRow). }
    rewrite store_Some by lia. simpl.
    rewrite fillCells_spec by (rewrite length_insert; lia). simpl.
    rewrite store_Some by lia. simpl.
    assert (Hrow1 : take 1 (<[0%nat:=h]> newRow) = [h]).
    { destruct newRow; simpl in *; [lia|]. by rewrite take_0. }
    rewrite Hrow1. simpl.
    rewrite IH.
    + f_equal.
      rewrite (take_S_r _ i (h :: (cellOr (i + 1) <$> rs)))
        by (by rewrite list_lookup_insert_eq by lia).
      rewrite take_insert_ge by lia. rewrite drop_insert_lt by lia.
      rewrite <- app_assoc. simpl. rewrite Nat.add_0_r.
      do 3 f_equal.
      * apply imap_ext. intros k x _. simpl. do 3 f_equal. lia.
      * f_equal. lia.
    + rewrite length_insert. lia.
    + apply Forall_insert; [done|]. simpl. rewrite length_fmap. lia.
Qed.

(** Where every row has a first cell, [Transpose] returns the table the
    specification describes. *)
Lemma Transpose_full (t : table) (h0 : string) :
  header t !! 0%nat = Some h0 -> hasColumn 0 (rows t) ->
  exists u, Transpose t = Some u /\
    header u = h0 :: (cellOr 0 <$> rows t) /\
    rows u = imap (fun i h => h :: (cellOr (i + 1) <$> rows t)) (drop 1 (header t)).
Proof.
  intros Hh0 Hrows. unfold Transpose. rewrite Hh0. simpl.
  rewrite firstCells_full by done. simpl.
  rewrite fillRows_spec.
  - rewrite (drop_ge (replicate _ _)) by (rewrite length_replicate, length_drop; lia).
    rewrite app_nil_r, take_0. simpl.
    eexists. split; [reflexivity|]. simpl. done.
  - rewrite length_replicate, length_drop. lia.
  - apply Forall_replicate. by rewrite length_replicate.
Qed.

(** A row without any cell makes [Transpose] panic, whatever the header. *)
Lemma Transpose_empty_row (t : table) : [] ∈ rows t -> Transpose t = None.
Proof.
  intros Hin. unfold Transpose. destruct (header t !! 0%nat); simpl; [|done].
  by rewrite firstCells_short.
Qed.

(** ** Exporting as JSON *)

Lemma rowMapFrom_lookup (i : nat) (hs row : list string)
    (rowMap : gmap string string) (h c : string) :
  rowMapFrom i hs row rowMap !! h = Some c <->
  (exists k, hs !! k = Some h /\ c = cellOr (i + k) row /\
             forall k', (k < k')%nat -> hs !! k' <> Some h)
  \/ ((h ∉ hs) /\ rowMap !! h = Some c).
Proof.
  revert i rowMap. induction hs as [|col hs IH]; intros i rowMap; simpl.
  - split; [intros H; right; split; [apply not_elem_of_nil|done]|].
    intros [(k & Hk & _)|[_ H]]; [done|done].
  - rewrite IH. fold (cellOr i row). split.
    + intros [(k & Hk & -> & Hlast)|[Hnot Hm]].
      * left. exists (S k). split; [done|]. split; [f_equal; lia|].
        intros [|k'] Hlt; simpl; [lia|]. apply Hlast. lia.
      * destruct (decide (col = h)) as [->|Hne].
        -- rewrite lookup_insert_eq in Hm. simplify_eq. left. exists 0%nat.
           split; [done|]. split; [by rewrite Nat.add_0_r|].
           intros [|k'] Hlt; simpl; [lia|]. intros Hk'.
           apply Hnot. by eapply list_elem_of_lookup_2.
        -- rewrite lookup_insert_ne in Hm by done. right. split; [|done].
           intros Hin. apply elem_of_cons in Hin as [?|?]; congruence.
    + intros [(k & Hk & -> & Hlast)|[Hnot Hm]].
      * destruct k as [|k]; simpl in Hk.
        -- simplify_eq. right. split.
           ++ intros Hin. apply list_elem_of_lookup in Hin as [k' Hk'].
              apply (Hlast (S k')); [lia|done].
           ++ rewrite lookup_insert_eq. by rewrite Nat.add_0_r.
        -- left. exists k. split; [done|]. split; [f_equal; lia|].
           intros k' Hlt. apply (Hlast (S k')). lia.
      * right. apply not_elem_of_cons in Hnot as [Hne Hnot]. split; [done|].
        by rewrite lookup_insert_ne.
Qed.

Lemma rowMap_members (hs row : list string) (h c : string) :
  rowMapFrom 0 hs row ∅ !! h = Some c <-> memberOf hs row h c.
Proof.
  rewrite rowMapFrom_lookup. unfold memberOf. split.
  - intros [H|[_ H]]; [done|by rewrite lookup_empty in H].
  - intros H. by left.
Qed.

Lemma collect_None (hs : list string) (keyColumn : nat) (rs : list (list string))
    (data : gmap string (gmap string string)) :
  collect hs keyColumn rs data = None <-> ~ hasColumn keyColumn rs.
Proof.
  revert data. induction rs as [|row rs IH]; intros data; simpl.
  - split; [done|]. intros H. destruct H. constructor.
  - destruct (row !! keyColumn) as [key|] eqn:Hkey.
    + rewrite IH. apply lookup_lt_Some in Hkey. unfold hasColumn. split.
      * intros Hno Hall. apply Forall_cons in Hall as [_ Hall]. done.
      * intros Hno Hall. apply Hno. by apply Forall_cons.
    + apply lookup_ge_None in Hkey. split; [|done]. intros _ Hall.
      apply Forall_cons in Hall as [Hrow _]. lia.
Qed.

Lemma collect_lookup (hs : list string) (keyColumn : nat) (rs : list (list string))
    (data data' : gmap string (gmap string string)) (key : string)
    (m : gmap string string) :
  collect hs keyColumn rs data = Some data' ->
  data' !! key = Some m <->
  (exists i row, rs !! i = Some row /\ row !! keyColumn = Some key /\
     m = rowMapFrom 0 hs row ∅ /\
     forall i' row', (i < i')%nat -> rs !! i' = Some row' ->
                     row' !! keyColumn <> Some key)
  \/ ((forall row, row ∈ rs -> row !! keyColumn <> Some key) /\ data !! key = Some m).
Proof.
  revert data. induction rs as [|row rs IH]; intros data; simpl.
  - intros [= <-]. split; [intros H; right; split; [|done]|].
    + intros row Hin. by apply not_elem_of_nil in Hin.
    + intros [(i & row & Hi & _)|[_ H]]; done.
  - destruct (row !! keyColumn) as [key0|] eqn:Hkey0; [|done].
    intros Hrest. rewrite (IH _ Hrest). split.
    + intros [(i & r & Hi & Hk & -> & Hlast)|[Hnot Hm]].
      * left. exists (S i), r. split; [done|]. split; [done|]. split; [done|].
        intros [|i'] row' Hlt; simpl; [lia|]. apply Hlast. lia.
      * destruct (decide (key0 = key)) as [->|Hne].
        -- rewrite lookup_insert_eq in Hm. simplify_eq. left. exists 0%nat, row.
           split; [done|]. split; [done|]. split; [done|].
           intros [|i'] row' Hlt; simpl; [lia|]. intros Hrow'.
           apply Hnot. by eapply list_elem_of_lookup_2.
        -- rewrite lookup_insert_ne in Hm by done. right. split; [|done].
           intros r Hin. apply elem_of_cons in Hin as [->|Hin]; [congruence|].
           by apply Hnot.
    + intros [(i & r & Hi & Hk & -> & Hlast)|[Hnot Hm]].
      * destruct i as [|i]; simpl in Hi.
        -- simplify_eq. right. split.
           ++ intros r0 Hin. apply list_elem_of_lookup in Hin as [i' Hi'].
              apply (Hlast (S i') r0); [lia|done].
           ++ by rewrite lookup_insert_eq.
        -- left. exists i, r. split; [done|]. split; [done|]. split; [done|].
           intros i' row' Hlt. apply (Hlast (S i')). lia.
      * right. split.
        -- intros r Hin. apply Hnot. by right.
        -- rewrite lookup_insert_ne; [done|]. intros ->.
           by apply (Hnot row); [left|].
Qed.

(** C7. [ExportJSON(keyColumn)] returns the invalid-index error when
    [keyColumn < 0] or [keyColumn >= C]; with a valid [keyColumn] it returns
    the index-out-of-range error when some stored row is shorter than
    [keyColumn + 1]; in both cases nothing is written.  Otherwise it writes,
    in one piece, the JSON object of a map that has a key exactly for every
    value found in the key column, and under that key the object of the
    last row carrying it: every header name mapped to that row's cell, the
    empty string for a missing cell.  Header ["ID","Name"], rows
    [["1","Foo"],["2","Bar"]] and key column 0 give
    [{"1":{"ID":"1","Name":"Foo"},"2":{"ID":"2","Name":"Bar"}}], the
    encoder putting such plain strings between double quotes. *)
Theorem ExportJSON_behaviour (encodeString : string -> string)
    (Write : string -> option error) :
  (forall t keyColumn,
     let kc := Z.to_nat keyColumn in
     (outOfRange t keyColumn ->
        ExportJSON encodeString Write t keyColumn = ([], Some ErrInvalidKeyColumn)) /\
     (~ outOfRange t keyColumn ->
      Exists (fun row => (length row < kc + 1)%nat) (rows t) ->
        ExportJSON encodeString Write t keyColumn = ([], Some ErrKeyColumnOutOfRange)) /\
     (~ outOfRange t keyColumn -> hasColumn kc (rows t) ->
        exists data : gmap string (gmap string string),
          ExportJSON encodeString Write t keyColumn =
            ([Json.Marshal encodeString data], Write (Json.Marshal encodeString data)) /\
          forall key m, data !! key = Some m <->
            exists i row,
              rows t !! i = Some row /\ row !! kc = Some key /\
              (forall i' row', (i < i')%nat -> rows t !! i' = Some row' ->
                               row' !! kc <> Some key) /\
              (forall h c, m !! h = Some c <-> memberOf (header t) row h c))) /\
  (forall t,
     header t = ["ID"; "Name"] -> rows t = [["1"; "Foo"]; ["2"; "Bar"]] ->
     Forall (fun s => encodeString s = quoted s) ["ID"; "Name"; "1"; "2"; "Foo"; "Bar"] ->
     ExportJSON encodeString Write t 0 = ([exampleJSON], Write exampleJSON)).
Proof.
  split.
  - intros t keyColumn kc. unfold ExportJSON. split; [|split].
    + intros Hout. apply outOfRange_test in Hout. by rewrite Hout.
    + intros Hin Hshort.
      destruct (_ || _) eqn:Htest; [by apply outOfRange_test in Htest|].
      assert (Hnone : collect (header t) kc (rows t) ∅ = None).
      { apply collect_None. intros Hall.
        apply Exists_exists in Hshort as (row & Hrow & Hlen).
        unfold hasColumn in Hall. rewrite Forall_forall in Hall.
        specialize (Hall row Hrow). lia. }
      fold kc. by rewrite Hnone.
    + intros Hin Hall.
      destruct (_ || _) eqn:Htest; [by apply outOfRange_test in Htest|].
      fold kc. destruct (collect (header t) kc (rows t) ∅) as [data|] eqn:Hdata.
      2:{ apply collect_None in Hdata. done. }
      exists data. split; [done|]. intros key m.
      rewrite (collect_lookup _ _ _ _ _ key m Hdata). split.
      * intros [(i & row & Hi & Hk & -> & Hlast)|[_ H]];
          [|by rewrite lookup_empty in H].
        exists i, row. split; [done|]. split; [done|]. split; [done|].
        intros h c. apply rowMap_members.
      * intros (i & row & Hi & Hk & Hlast & Hm). left.
        exists i, row. split; [done|]. split; [done|]. split; [|done].
        apply map_eq. intros h. apply option_eq. intros c.
        by rewrite Hm, rowMap_members.
  - intros t Hheader Hrows Henc. unfold ExportJSON. rewrite Hheader, Hrows.
    repeat (apply Forall_cons in Henc as [? Henc]).
    vm_compute.
    repeat match goal with H : encodeString _ = _ |- _ => rewrite H; clear H end.
    reflexivity.
Qed.

(** ** The comparators *)

Section ComparatorProps.
Context {float64 : Type}.
Variable flt : float64 -> float64 -> bool.
Variable ParseFloat : string -> option float64.

Lemma compareParsed_policy (pa pb : option float64) :
  (pa = None -> is_Some pb ->
     compareParsed flt pa pb = 1 /\ compareParsed flt pb pa = -1) /\
  (pa = None -> pb = None -> compareParsed flt pa pb = 0).
Proof.
  split.
  - intros -> [b ->]. done.
  - by intros -> ->.
Qed.

Lemma BoolComparison_policy (a b : string) :
  (Strconv.ParseBool a = None -> is_Some (Strconv.ParseBool b) ->
     BoolComparison a b = -1 /\ BoolComparison b a = 1) /\
  (Strconv.ParseBool a = None -> Strconv.ParseBool b = None ->
     BoolComparison a b = 0).
Proof.
  unfold BoolComparison. split.
  - intros -> [v ->]. done.
  - by intros -> ->.
Qed.

End ComparatorProps.

(** C5. [StringComparison("apple","banana") = -1] and
    [NumericalComparison("10","5") = 1]; for [NumericalComparison],
    [CurrencyComparison] and [PercentComparison] a value that does not parse
    compares after any value that does, and two values that do not parse
    compare equal; for [BoolComparison] a value that does not parse compares
    before any value that does, and two that do not parse compare equal; so
    [NumericalComparison("bad","5") = 1] and
    [BoolComparison("invalid","false") = -1].  [strconv.ParseFloat] is any
    function that reads "10" and "5" as numbers with 5 < 10 and rejects
    "bad". *)
Theorem Comparator_contract {float64 : Type} (flt : float64 -> float64 -> bool)
    (ParseFloat : string -> option float64) (ten five : float64) :
  ParseFloat "10" = Some ten -> ParseFloat "5" = Some five ->
  flt five ten = true -> flt ten five = false ->
  ParseFloat "bad" = None ->
  StringComparison "apple" "banana" = -1 /\
  NumericalComparison flt ParseFloat "10" "5" = 1 /\
  (forall a b,
     (ParseFloat a = None -> is_Some (ParseFloat b) ->
        NumericalComparison flt ParseFloat a b = 1 /\
        NumericalComparison flt ParseFloat b a = -1) /\
     (ParseFloat a = None -> ParseFloat b = None ->
        NumericalComparison flt ParseFloat a b = 0)) /\
  (forall a b,
     (parseCurrencyString ParseFloat a = None ->
      is_Some (parseCurrencyString ParseFloat b) ->
        CurrencyComparison flt ParseFloat a b = 1 /\
        CurrencyComparison flt ParseFloat b a = -1) /\
     (parseCurrencyString ParseFloat a = None ->
      parseCurrencyString ParseFloat b = None ->
        CurrencyComparison flt ParseFloat a b = 0)) /\
  (forall a b,
     (parsePercentString ParseFloat a = None ->
      is_Some (parsePercentString ParseFloat b) ->
        PercentComparison flt ParseFloat a b = 1 /\
        PercentComparison flt ParseFloat b a = -1) /\
     (parsePercentString ParseFloat a = None ->
      parsePercentString ParseFloat b = None ->
        PercentComparison flt ParseFloat a b = 0)) /\
  (forall a b,
     (Strconv.ParseBool a = None -> is_Some (Strconv.ParseBool b) ->
        BoolComparison a b = -1 /\ BoolComparison b a = 1) /\
     (Strconv.ParseBool a = None -> Strconv.ParseBool b = None ->
        BoolComparison a b = 0)) /\
  NumericalComparison flt ParseFloat "bad" "5" = 1 /\
  BoolComparison "invalid" "false" = -1.
Proof.
  intros H10 H5 Hlt Hgt Hbad.
  split; [reflexivity|].
  split; [unfold NumericalComparison; rewrite H10, H5; simpl; by rewrite Hgt, Hlt|].
  split; [intros a b; apply compareParsed_policy|].
  split; [intros a b; apply compareParsed_policy|].
  split; [intros a b; apply compareParsed_policy|].
  split; [intros a b; apply BoolComparison_policy|].
  split; [unfold NumericalComparison; by rewrite Hbad, H5|].
  reflexivity.
Qed.

(** ** Rows shorter than the header *)

(** With two rows or more, the first comparison of [SortBy] reads column [n]
    of the second row and of the first; if either lacks it, the read is out
    of range. *)
Lemma SortBy_short_row_panics (t : table) (n : Z) (cmpFn : ComparisonFunc)
    (r0 r1 : list string) (rest : list (list string)) :
  ~ outOfRange t n -> rows t = r0 :: r1 :: rest ->
  (length r0 <= Z.to_nat n \/ length r1 <= Z.to_nat n)%nat ->
  SortBy t n cmpFn = None.
Proof.
  intros Hin Hrows Hshort. unfold SortBy.
  destruct (_ || _) eqn:Htest; [by apply outOfRange_test in Htest|].
  rewrite Hrows. unfold GoSort.SliceStable, GoSort.insertionSort. simpl.
  unfold lessBy. simpl.
  destruct (r1 !! Z.to_nat n) as [a|] eqn:Ha; simpl; [|done].
  destruct (r0 !! Z.to_nat n) as [b|] eqn:Hb; simpl; [|done].
  apply lookup_lt_Some in Ha, Hb. lia.
Qed.

(** C8. The header is ["A","B"] and [SetRows] has stored the rows ["x"] and
    ["y"], which it keeps shorter than the header.  [SortBy(1, StringComparison)]
    has a valid column index, and so has the one criterion of
    [SortByMultiple]; neither returns an error or a sorted table: the
    comparison reads cell 1 of a row that has one cell, an out-of-range
    access that ends the program. *)
Theorem SortBy_short_rows_fault :
  ~ outOfRange shortRows 1 /\
  SortBy shortRows 1 StringComparison = None /\
  SortByMultiple shortRows [ {| ColumnIndex := 1; Compare := StringComparison |} ] = None.
Proof.
  split; [|split].
  - unfold outOfRange. simpl. lia.
  - reflexivity.
  - reflexivity.
Qed.

(** C4, on the code.  The header is ["H0","H1"] and [SetRows] has stored one
    row without cells.  [Transpose] builds the new header from [t.rows[i][0]]
    and guards only the cells from column 1 on, so the first cell it reads is
    out of range and the program ends; no table is produced. *)
Theorem Transpose_empty_row_fault :
  header emptyRow = ["H0"; "H1"] /\ rows emptyRow = [[]] /\
  Transpose emptyRow = None.
Proof. split; [|split]; reflexivity. Qed.

(** The specification's example does transpose as it says. *)
Example Transpose_example (t : table) (H0 H1 H2 a1 b1 c1 a2 b2 c2 : string) :
  header t = [H0; H1; H2] -> rows t = [[a1; b1; c1]; [a2; b2; c2]] ->
  exists u, Transpose t = Some u /\
    header u = [H0; a1; a2] /\ rows u = [[H1; b1; b2]; [H2; c1; c2]].
Proof.
  intros Hh Hr.
  destruct (Transpose_full t H0) as (u & Hu & Hhu & Hru).
  - by rewrite Hh.
  - rewrite Hr. repeat constructor; simpl; lia.
  - exists u. rewrite Hhu, Hru, Hh, Hr. done.
Qed.

(** The table of the package documentation renders in columns of widths 4,
    10 and 10. *)
Example Print_costs :
  snd <$> Print costs =
  Some [line "ID  Name      Cost ($)  ";
        line "1   Foobar    1.23      ";
        line "2   Fizzbuzz  4.56      ";
        line "3   Gizmo     78.90     "].
Proof. vm_compute. reflexivity. Qed.

(** A row that [SetRows] left shorter than the header is printed with the
    verbs of its missing cells unfilled. *)
Example Print_short_row :
  snd <$> Print (WithPadding shortRows 1) =
  Some [line "A B "; line "x %!s(MISSING)"; line "y %!s(MISSING)"].
Proof. vm_compute. reflexivity. Qed.

(** A value of two lines becomes two rows. *)
Example AddRow_two_lines :
  rows (AddRow text (New text plain ["A"; "B"]) [twoLines; "x"; "dropped"])
  = [["a"; "x"]; ["b"; ""]].
Proof. reflexivity. Qed.

(** A header separator of U+2500 is three bytes long. *)
Example EncodeRune_box :
  Utf8.EncodeRune 45 = "-" /\
  Utf8.EncodeRune 9472 =
    String (Utf8.byte_of 226) (String (Utf8.byte_of 148)
      (String (Utf8.byte_of 128) EmptyString)).
Proof. split; reflexivity. Qed.

(** The package's own sort test: by age ascending, then by name descending. *)
Example SortByMultiple_people :
  (u ← SortByMultiple people
         [ {| ColumnIndex := 1; Compare := StringComparison |};
           {| ColumnIndex := 0; Compare := InverseComparison StringComparison |} ];
   Some (rows u.1, u.2))
  = Some ([["Bob"; "25"; "Los Angeles"]; ["David"; "30"; "Chicago"];
           ["Alice"; "30"; "New York"]; ["Eve"; "35"; "Los Angeles"];
           ["Charlie"; "35"; "Chicago"]], None).
Proof. vm_compute. reflexivity. Qed.

(** ** What the package keeps true of its tables *)

Lemma SetRows_fold_fits (C : nat) (rs acc : list (list string)) :
  Forall (fun row => (length row <= C)%nat) acc ->
  Forall (fun row => (length row <= C)%nat)
    (foldl (fun acc row =>
              if decide (C < length row)%nat then acc ++ [take C row]
              else acc ++ [row]) acc rs).
Proof.
  revert acc. induction rs as [|row rs IH]; intros acc Hacc; simpl; [done|].
  apply IH. case_decide; apply Forall_app; (split; [done|]);
    apply Forall_singleton; [rewrite length_take|]; lia.
Qed.

Lemma SetRows_rowsFit (t : table) (rs : list (list string)) :
  rowsFit (SetRows t rs).
Proof. unfold rowsFit, SetRows. simpl. by apply SetRows_fold_fits. Qed.

Lemma New_rowsFit {value : Type} (Sprint : value -> string) (d : defaults)
    (columnHeaders : list value) :
  rowsFit (New Sprint d columnHeaders) /\ 0 <= Padding (New Sprint d columnHeaders).
Proof.
  split; [by constructor|]. unfold New, WithPadding. simpl.
  destruct (Z.ltb_spec (DefaultPadding d) 0); lia.
Qed.

Lemma WithPadding_nonneg (t : table) (p : Z) : 0 <= Padding (WithPadding t p).
Proof. unfold WithPadding. simpl. destruct (Z.ltb_spec p 0); lia. Qed.

Lemma AddRow_rowsFit {value : Type} (Sprint : value -> string) (t : table)
    (vals : list value) :
  rowsFit t -> rowsFit (AddRow Sprint t vals).
Proof.
  intros Hfit. unfold rowsFit, AddRow, AddRowAsArray.
  rewrite appendLines_app. unfold set_rows. cbn [rows header].
  apply Forall_app. split; [exact Hfit|].
  apply Forall_fmap, Forall_forall. intros i _. simpl.
  by rewrite fillRow_length, length_replicate.
Qed.

Lemma AddHeaders_rowsFit (t : table) (cols : list string) :
  rowsFit t -> rowsFit (AddHeaders t cols).
Proof.
  unfold rowsFit, AddHeaders. simpl. intros Hfit.
  eapply Forall_impl; [exact Hfit|]. intros row Hrow. simpl in *.
  rewrite length_app. lia.
Qed.

Lemma AddHeader_rowsFit (t : table) (col : string) :
  rowsFit t -> rowsFit (AddHeader t col).
Proof. apply (AddHeaders_rowsFit t [col]). Qed.

Lemma firstCells_Some (rs : list (list string)) (newHeader newHeader' : list string) :
  firstCells rs newHeader = Some newHeader' -> hasColumn 0 rs.
Proof.
  revert newHeader. induction rs as [|row rs IH]; intros newHeader; simpl.
  - intros _. constructor.
  - destruct row as [|c row]; simpl; [done|]. intros H.
    constructor; [simpl; lia|by eapply IH].
Qed.

Lemma Transpose_rowsFit (t u : table) : Transpose t = Some u -> rowsFit u.
Proof.
  intros Hu. assert (Hu' := Hu). unfold Transpose in Hu'.
  destruct (header t !! 0%nat) as [h0|] eqn:Hh0; simpl in Hu'; [|done].
  destruct (firstCells (rows t) [h0]) as [nh|] eqn:Hfirst; simpl in Hu'; [|done].
  apply firstCells_Some in Hfirst.
  destruct (Transpose_full t h0 Hh0 Hfirst) as (u' & Hu2 & Hhdr & Hrows).
  rewrite Hu in Hu2. injection Hu2 as <-.
  unfold rowsFit. rewrite Hhdr, Hrows. apply Forall_forall. intros row Hin.
  apply list_elem_of_lookup in Hin as [i Hi].
  rewrite list_lookup_imap in Hi. destruct (drop 1 (header t) !! i); simpl in Hi; [|done].
  injection Hi as <-. simpl. rewrite !length_fmap. done.
Qed.

(** ** When rendering completes *)

Lemma widen_completes (t : table) (i : nat) (cells : list string) (ws : list Z) :
  (i + length cells <= length ws)%nat ->
  exists ws', widen t i cells ws = Some ws' /\ length ws' = length ws.
Proof.
  revert i ws. induction cells as [|c cells IH]; intros i ws Hlen; simpl in *; [eauto|].
  destruct (lookup_lt_is_Some_2 ws i) as [cur ->]; [lia|]. simpl.
  destruct (_ <? _).
  - rewrite store_Some by lia. simpl.
    destruct (IH (S i) (<[i := GoInt.add (Width t c) (Padding t)]> ws))
      as (ws' & -> & Hlen'); [rewrite length_insert; lia|].
    rewrite length_insert in Hlen'. eauto.
  - simpl. apply IH. lia.
Qed.

Lemma calculateWidths_completes (t : table) :
  rowsFit t ->
  exists ws, calculateWidths t = Some (set_widths t ws) /\
             length ws = length (header t).
Proof.
  intros Hfit. unfold calculateWidths.
  assert (Hrows : forall rs ws,
            Forall (fun row => (length row <= length ws)%nat) rs ->
            exists ws', widenRows t rs ws = Some ws' /\ length ws' = length ws).
  { induction rs as [|row rs IH]; intros ws Hall; simpl; [eauto|].
    apply Forall_cons in Hall as [Hrow Hall].
    destruct (widen_completes t 0 row ws) as (ws1 & -> & Hlen1); [simpl; lia|].
    simpl. destruct (IH ws1) as (ws' & -> & Hlen'); [by rewrite Hlen1|].
    exists ws'. split; [done|]. lia. }
  destruct (Hrows (rows t) (replicate (length (header t)) 0))
    as (ws1 & -> & Hlen1).
  { eapply Forall_impl; [exact Hfit|]. intros row Hrow. by rewrite length_replicate. }
  rewrite length_replicate in Hlen1. simpl.
  destruct (widen_completes t 0 (header t) ws1) as (ws2 & -> & Hlen2); [simpl; lia|].
  simpl. exists ws2. split; [done|]. lia.
Qed.

Lemma applyWidthsFrom_completes (t : table) (i : nat) (row : list string) (ws : list Z) :
  (i + length row <= length ws)%nat ->
  exists vals, applyWidthsFrom t i row ws = Some vals /\ length vals = length row.
Proof.
  revert i. induction row as [|s row IH]; intros i Hlen; simpl in *; [eauto|].
  destruct (lookup_lt_is_Some_2 ws i) as [w ->]; [lia|]. simpl.
  destruct (IH (S i)) as (vals & -> & Hvals); [lia|]. simpl.
  eexists. split; [done|]. simpl. lia.
Qed.

(** Without a header separator, and with a first-column formatter only if
    every row has a first cell, [Print] returns on every table whose rows
    fit the header. *)
Lemma Print_completes (t : table) :
  rowsFit t -> HeaderSeparatorRune t = 0 ->
  (FirstColumnFormatter t = None \/ hasColumn 0 (rows t)) ->
  exists u out, Print t = Some (u, out).
Proof.
  intros Hfit Hsep Hfirst. unfold Print.
  destruct (calculateWidths_completes t Hfit) as (ws & -> & Hlen). simpl.
  rewrite Hsep. simpl.
  set (format := _ +:+ _).
  assert (Hhead : exists h,
    (if PrintHeaders t
     then printHeader (set_widths t ws) format ≫= (fun h => Some (h ++ []))
     else Some []) = Some h).
  { destruct (PrintHeaders t); [|eauto]. unfold printHeader, applyWidths. simpl.
    destruct (applyWidthsFrom_completes (set_widths t ws) 0 (header t) ws)
      as (vals & -> & _); [simpl; lia|]. simpl.
    destruct (HeaderFormatter t); simpl; eauto. }
  destruct Hhead as [h ->]. simpl.
  assert (Hbody : forall rs i,
    Forall (fun row => (length row <= length ws)%nat) rs ->
    (FirstColumnFormatter t = None \/ hasColumn 0 rs) ->
    exists body, printRows (set_widths t ws) format i rs = Some body).
  { induction rs as [|row rs IH]; intros i Hall Hfc; simpl; [eauto|].
    apply Forall_cons in Hall as [Hrow Hall].
    unfold printRow, applyWidths. simpl.
    destruct (applyWidthsFrom_completes (set_widths t ws) 0 row ws)
      as (vals & -> & Hvals); [simpl; lia|]. simpl.
    assert (Hvals1 : exists vals1,
      match FirstColumnFormatter t with
      | Some f => vals !! 0%nat ≫= fun v0 => store vals 0 (f "%s" [v0])
      | None => Some vals
      end = Some vals1).
    { destruct (FirstColumnFormatter t) as [f|]; [|eauto].
      destruct Hfc as [|Hfc]; [done|]. apply Forall_cons in Hfc as [Hrow0 _].
      destruct (lookup_lt_is_Some_2 vals 0) as [v0 ->]; [lia|]. simpl.
      rewrite store_Some by lia. eauto. }
    destruct Hvals1 as [vals1 ->]. simpl.
    destruct (IH (S i)) as [body ->]; [done| |simpl; eauto].
    destruct Hfc as [|Hfc]; [by left|right]. by apply Forall_cons in Hfc as [_ ?]. }
  destruct (Hbody (rows t) 0%nat) as [body ->]; [|done|simpl; eauto].
  eapply Forall_impl; [exact Hfit|]. intros row Hrow. simpl in *. lia.
Qed.

(** ** Rendering twice *)

(** C9. Rendering twice with no change to the table in between writes the
    same bytes both times: when [Print] returns, leaving the table [u] and
    having written [out], a second [Print] on [u] leaves [u] and writes
    [out] again.  And [Print] does return, twice the same, on a table whose
    rows fit the header, that has no header separator, and no first-column
    formatter unless every row has a first cell. *)
Theorem Print_twice_same_output (t : table) :
  (forall u out, Print t = Some (u, out) -> Print u = Some (u, out)) /\
  (rowsFit t -> HeaderSeparatorRune t = 0 ->
   FirstColumnFormatter t = None \/ hasColumn 0 (rows t) ->
   exists u out, Print t = Some (u, out) /\ Print u = Some (u, out)).
Proof.
  assert (Htwice : forall u out, Print t = Some (u, out) -> Print u = Some (u, out)).
  { intros u out HP. pose proof (Print_widths t u out HP) as Hcalc.
    apply calculateWidths_shape in Hcalc. rewrite Hcalc at 1.
    by rewrite Print_stale. }
  split; [exact Htwice|]. intros Hfit Hsep Hfirst.
  destruct (Print_completes t Hfit Hsep Hfirst) as (u & out & HP).
  exists u, out. split; [done|by apply Htwice].
Qed.

(** * The properties at concrete tables *)

Ltac evaluated := vm_compute; first [reflexivity | discriminate | lia].

Lemma Print_computes_widths_witness :
  rowsFit people /\ metricFits people /\
  calculateWidths people = Some (set_widths people (specWidths people)) /\
  specWidths people = [9; 5; 13].
Proof.
  assert (Hfit : rowsFit people) by (repeat constructor).
  assert (Hmetric : metricFits people).
  { split; [evaluated|]. repeat constructor; evaluated. }
  split; [exact Hfit|]. split; [exact Hmetric|].
  split; [exact (proj1 (Print_computes_widths people Hfit Hmetric))|].
  reflexivity.
Defined.


Lemma AddRow_appends_lines_witness :
  AddRow text people [twoLines; "x"; "y"; "z"]
    = set_rows people (rows people ++ [["a"; "x"; "y"]; ["b"; ""; ""]]) /\
  lineOf text twoLines <$> seq 0 (S (lineBreaks text twoLines)) = ["a"; "b"] /\
  (exists new : list (list string),
    AddRow text people [twoLines; "x"; "y"; "z"] = set_rows people (rows people ++ new) /\
    length new = 2%nat /\
    forall i row, new !! i = Some row ->
      length row = 3%nat /\
      (forall j val, (j < 3)%nat -> [twoLines; "x"; "y"; "z"] !! j = Some val ->
         row !! j = Some (lineOf text val i)) /\
      (forall j, (j < 3)%nat -> (4 <= j)%nat -> row !! j = Some EmptyString)) /\
  (forall val : string,
     Forall (fun piece => GoStrings.Count piece GoStrings.LF = 0%nat)
       (lineOf text val <$> seq 0 (S (lineBreaks text val))) /\
     Fmt.join (String GoStrings.LF EmptyString)
       (lineOf text val <$> seq 0 (S (lineBreaks text val))) = text val /\
     (forall i, (lineBreaks text val < i)%nat -> lineOf text val i = EmptyString)).
Proof.
  split; [reflexivity|]. split; [reflexivity|].
  exact (AddRow_appends_lines text people [twoLines; "x"; "y"; "z"]).
Defined.

Lemma Comparator_contract_witness :
  StringComparison "apple" "banana" = -1 /\
  NumericalComparison Z.ltb parseDigits "10" "5" = 1 /\
  NumericalComparison Z.ltb parseDigits "bad" "5" = 1 /\
  BoolComparison "invalid" "false" = -1.
Proof.
  destruct (Comparator_contract Z.ltb parseDigits 10 5
              eq_refl eq_refl eq_refl eq_refl eq_refl)
    as (H1 & H2 & _ & _ & _ & _ & H3 & H4).
  split; [exact H1|]. split; [exact H2|]. split; [exact H3|exact H4].
Defined.

Lemma Sort_validation_witness :
  outOfRange people 3 /\
  SortBy people 3 StringComparison
    = Some (people, Some (ErrInvalidColumnIndex 3 3)).
Proof.
  assert (Hout : outOfRange people 3) by (right; evaluated).
  destruct (proj1 (Sort_validation people) 3 StringComparison) as [Hiff Hres].
  destruct (proj1 Hiff Hout) as (u & e & Hsort).
  destruct (Hres u e Hsort) as [Hu He].
  split; [exact Hout|]. rewrite Hsort, Hu, He. reflexivity.
Defined.

Lemma ExportJSON_behaviour_witness :
  ExportJSON quoted (fun _ => None) widgets 0 = ([exampleJSON], None).
Proof.
  refine (proj2 (ExportJSON_behaviour quoted (fun _ => None)) widgets eq_refl eq_refl _).
  repeat constructor.
Defined.

Lemma Print_twice_same_output_witness :
  exists u out, Print people = Some (u, out) /\ length out = 6%nat /\
                Print u = Some (u, out).
Proof.
  destruct (Print people) as [[u out]|] eqn:HP.
  - exists u, out. split; [reflexivity|]. split.
    + vm_compute in HP. injection HP as _ <-. reflexivity.
    + exact (proj1 (Print_twice_same_output people) u out HP).
  - vm_compute in HP. discriminate HP.
Defined.

Lemma SortByMultiple_no_criteria_witness :
  SortByMultiple people [] = Some (people, None).
Proof. exact (proj1 (SortByMultiple_no_criteria people)). Defined.

(** * Further properties *)

(** ** Sorting rearranges and nothing else *)

Lemma swapStep_Permutation {A : Type} (lt : A -> A -> option bool) (l l' : list A) :
  rtc (swapStep lt) l l' -> l' ≡ₚ l.
Proof.
  induction 1 as [l|l l1 l' Hstep _ IH]; [done|].
  rewrite IH. destruct Hstep as [l k x y Hy Hx _].
  destruct (adjacent_decompose l k y x Hy Hx) as [H1 H2].
  rewrite H2. rewrite H1 at 3. apply Permutation_app_head, perm_swap.
Qed.

Lemma SliceStable_Permutation {A : Type} (less : list A -> nat -> nat -> option bool)
    (lt : A -> A -> option bool) (data data' : list A) :
  (forall d i j x y, d !! i = Some x -> d !! j = Some y -> less d i j = lt x y) ->
  GoSort.SliceStable less data = Some data' -> data' ≡ₚ data.
Proof.
  intros Hreads Hsort. eapply swapStep_Permutation.
  by eapply SliceStable_steps.
Qed.

Lemma SortBy_rearranges (t u : table) (n : Z) (cmpFn : ComparisonFunc)
    (e : option error) :
  SortBy t n cmpFn = Some (u, e) -> u = set_rows t (rows u) /\ rows u ≡ₚ rows t.
Proof.
  unfold SortBy. destruct (_ || _).
  - intros [= <- <-]. by rewrite set_rows_same.
  - destruct (GoSort.SliceStable _ _) as [rs|] eqn:Hsort; simpl; [|done].
    intros [= <- <-]. simpl. split; [done|].
    eapply SliceStable_Permutation; [apply (lessBy_reads (Z.to_nat n) cmpFn)|done].
Qed.

Lemma SortByMultiple_rearranges (t u : table) (criteria : list SortCriterion)
    (e : option error) :
  SortByMultiple t criteria = Some (u, e) ->
  u = set_rows t (rows u) /\ rows u ≡ₚ rows t.
Proof.
  unfold SortByMultiple. destruct (invalidCriterion t criteria).
  - intros [= <- <-]. by rewrite set_rows_same.
  - destruct (GoSort.SliceStable _ _) as [rs|] eqn:Hsort; simpl; [|done].
    intros [= <- <-]. simpl. split; [done|].
    eapply SliceStable_Permutation; [apply (lessByMultiple_reads criteria)|done].
Qed.

(** X1. Whatever [SortBy] or [SortByMultiple] returns, error or not, the
    table it leaves has the header and the configuration it had, and its rows
    are the rows it had in some order: none lost, none repeated, none
    changed. *)
Theorem Sort_only_rearranges (t : table) :
  (forall n cmpFn u e,
     SortBy t n cmpFn = Some (u, e) ->
     u = set_rows t (rows u) /\ rows u ≡ₚ rows t) /\
  (forall criteria u e,
     SortByMultiple t criteria = Some (u, e) ->
     u = set_rows t (rows u) /\ rows u ≡ₚ rows t).
Proof.
  split.
  - intros n cmpFn u e. apply SortBy_rearranges.
  - intros criteria u e. apply SortByMultiple_rearranges.
Qed.

(** ** One criterion *)

Section SortAgrees.
Context {A : Type}.
Variables less1 less2 : list A -> nat -> nat -> option bool.
Variable ok : A -> Prop.
Hypothesis agree :
  forall data i j x y, data !! i = Some x -> data !! j = Some y ->
    ok x -> ok y -> less1 data i j = less2 data i j.

Lemma sift_agrees (data : list A) (a j : nat) :
  (j < length data)%nat -> Forall ok data ->
  GoSort.sift less1 data a j = GoSort.sift less2 data a j.
Proof.
  revert data. induction j as [|j IH]; intros data Hj Hok; simpl; [done|].
  case_decide; [|done].
  destruct (lookup_lt_is_Some_2 data (S j)) as [x Hx]; [lia|].
  destruct (lookup_lt_is_Some_2 data j) as [y Hy]; [lia|].
  rewrite (agree data (S j) j x y Hx Hy)
    by (eapply Forall_lookup_1; eauto).
  destruct (less2 data (S j) j) as [[|]|]; simpl; [|done..].
  unfold GoSort.Swap. rewrite Hx, Hy. simpl.
  apply IH; [rewrite !length_insert; lia|].
  repeat apply Forall_insert; [done|..]; eapply Forall_lookup_1; eauto.
Qed.

Lemma sift_keeps (data : list A) (a j : nat) (data' : list A) :
  Forall ok data -> GoSort.sift less2 data a j = Some data' ->
  Forall ok data' /\ length data' = length data.
Proof.
  revert data. induction j as [|j IH]; intros data Hok; simpl.
  { by intros [= <-]. }
  case_decide; [|by intros [= <-]].
  destruct (less2 data (S j) j) as [[|]|]; simpl; [|by intros [= <-]|done].
  unfold GoSort.Swap.
  destruct (data !! S j) as [x|] eqn:Hx; simpl; [|done].
  destruct (data !! j) as [y|] eqn:Hy; simpl; [|done].
  intros Hrest. apply IH in Hrest as [Hok' Hlen'].
  - split; [done|]. by rewrite Hlen', !length_insert.
  - repeat apply Forall_insert; [done|..]; eapply Forall_lookup_1; eauto.
Qed.

Lemma sift_all_agrees (data : list A) (a i n : nat) :
  (n = 0 \/ i + n <= length data)%nat -> Forall ok data ->
  GoSort.sift_all less1 data a i n = GoSort.sift_all less2 data a i n.
Proof.
  revert data i. induction n as [|n IH]; intros data i Hn Hok; simpl; [done|].
  rewrite sift_agrees by (done || lia).
  destruct (GoSort.sift less2 data a i) as [data1|] eqn:Hsift; simpl; [|done].
  destruct (sift_keeps data a i data1 Hok Hsift) as [Hok1 Hlen1].
  apply IH; [lia|done].
Qed.

Lemma SliceStable_agrees (data : list A) :
  Forall ok data -> GoSort.SliceStable less1 data = GoSort.SliceStable less2 data.
Proof.
  intros Hok. unfold GoSort.SliceStable, GoSort.insertionSort.
  apply sift_all_agrees; [lia|done].
Qed.

End SortAgrees.

(** X2. [SortByMultiple] with a single criterion is [SortBy] with that
    column and comparator: the same error for an index out of range, the
    same fault on a row too short, the same rows otherwise. *)
Theorem SortByMultiple_single (t : table) (n : Z) (cmpFn : ComparisonFunc) :
  SortByMultiple t [ {| ColumnIndex := n; Compare := cmpFn |} ] = SortBy t n cmpFn.
Proof.
  unfold SortByMultiple, SortBy. simpl. destruct (_ || _); [done|].
  rewrite (SliceStable_agrees
             (lessByMultiple [ {| ColumnIndex := n; Compare := cmpFn |} ])
             (lessBy (Z.to_nat n) cmpFn) (fun _ => True)); [done| |].
  - intros data i j x y Hx Hy _ _. unfold lessBy. simpl. rewrite Hx, Hy. simpl.
    destruct (x !! Z.to_nat n) as [a|]; simpl; [|done].
    destruct (y !! Z.to_nat n) as [b|]; simpl; [|done].
    destruct (Z.ltb_spec (cmpFn a b) 0); [done|]. by destruct (0 <? cmpFn a b).
  - by apply Forall_forall.
Qed.

(** ** Sorting sorts *)

(** A slice already in order is left as it is. *)
Lemma SliceStable_sorted_fixed {A : Type} (ltb : A -> A -> bool)
    (less : list A -> nat -> nat -> option bool) (data : list A) :
  (forall d i j x y, d !! i = Some x -> d !! j = Some y ->
     less d i j = Some (ltb x y)) ->
  sortedBy (fun x y => Some (ltb x y)) data ->
  GoSort.SliceStable less data = Some data.
Proof.
  intros Hreads Hsorted.
  assert (Hsift : forall a j, (j < length data)%nat ->
            GoSort.sift less data a j = Some data).
  { intros a [|j] Hj; simpl; [done|]. case_decide; [|done].
    destruct (lookup_lt_is_Some_2 data (S j)) as [x Hx]; [lia|].
    destruct (lookup_lt_is_Some_2 data j) as [y Hy]; [lia|].
    rewrite (Hreads data (S j) j x y Hx Hy).
    assert (Hxy : Some (ltb x y) = Some false)
      by (apply (Hsorted j (S j) y x); [lia|done..]).
    injection Hxy as ->. done. }
  assert (Hall : forall n a i, (n = 0 \/ i + n <= length data)%nat ->
            GoSort.sift_all less data a i n = Some data).
  { induction n as [|n IH]; intros a i Hn; simpl; [done|].
    rewrite Hsift by lia. simpl. apply IH. lia. }
  apply Hall. lia.
Qed.

Lemma SortBy_total_closure (n : nat) (cmpFn : ComparisonFunc)
    (data : list (list string)) :
  hasColumn n data ->
  GoSort.SliceStable (lessBy n cmpFn) data =
  GoSort.SliceStable
    (fun d i j => x ← d !! i; y ← d !! j;
                  Some (cmpFn (cellOr n x) (cellOr n y) <? 0)) data.
Proof.
  intros Hcol.
  apply (SliceStable_agrees _ _ (fun row => (n < length row)%nat)); [|done].
  intros d i j x y Hx Hy Hokx Hoky. unfold lessBy, cellOr. rewrite Hx, Hy. simpl.
  destruct (lookup_lt_is_Some_2 x n Hokx) as [a ->].
  destruct (lookup_lt_is_Some_2 y n Hoky) as [b ->]. done.
Qed.

(** X3. With a comparator whose "less" is a strict weak order, a valid
    column index and rows that all have that column, [SortBy] returns the
    rows in ascending order of the column, and sorting the result again
    changes nothing. *)
Theorem SortBy_sorts (t : table) (n : Z) (cmpFn : ComparisonFunc) :
  strictWeak cmpFn -> ~ outOfRange t n -> hasColumn (Z.to_nat n) (rows t) ->
  exists u, SortBy t n cmpFn = Some (u, None) /\
    ascendingBy (Z.to_nat n) cmpFn (rows u) /\
    SortBy u n cmpFn = Some (u, None).
Proof.
  intros [Hasym Hneg] Hin Hcol.
  set (ltb := fun x y : list string =>
                cmpFn (cellOr (Z.to_nat n) x) (cellOr (Z.to_nat n) y) <? 0).
  set (less := fun (d : list (list string)) i j =>
                 x ← d !! i; y ← d !! j; Some (ltb x y)).
  assert (Hreads : forall d i j x y, d !! i = Some x -> d !! j = Some y ->
            less d i j = Some (ltb x y)).
  { intros d i j x y Hx Hy. unfold less. by rewrite Hx, Hy. }
  assert (Hasym' : forall x y, ltb x y = true -> ltb y x = false).
  { intros x y Hxy. apply Z.ltb_lt in Hxy. apply Z.ltb_ge.
    specialize (Hasym _ _ Hxy). lia. }
  assert (Hneg' : forall x y z, ltb x z = true -> ltb x y = true \/ ltb y z = true).
  { intros x y z Hxz. apply Z.ltb_lt in Hxz. unfold ltb. rewrite !Z.ltb_lt.
    by apply Hneg. }
  assert (Hclosure : forall data, hasColumn (Z.to_nat n) data ->
            GoSort.SliceStable (lessBy (Z.to_nat n) cmpFn) data
            = GoSort.SliceStable less data).
  { intros data Hdata. exact (SortBy_total_closure (Z.to_nat n) cmpFn data Hdata). }
  unfold SortBy.
  destruct (_ || _) eqn:Htest; [by apply outOfRange_test in Htest|].
  rewrite Hclosure by done.
  destruct (SliceStable_completes less (fun _ => True)) with (data := rows t)
    as [out Hout].
  { intros d i j x y Hx Hy _ _. rewrite (Hreads d i j x y Hx Hy). eauto. }
  { by apply Forall_forall. }
  rewrite Hout. simpl. eexists. split; [reflexivity|]. simpl.
  pose proof (SliceStable_sorted ltb less Hreads Hasym' Hneg' _ _ Hout) as Hsorted.
  split.
  - intros p q x y Hpq Hx Hy Hlt.
    pose proof (Hsorted p q x y Hpq Hx Hy) as Hyx. simpl in Hyx.
    injection Hyx as Hyx. apply Z.ltb_ge in Hyx. lia.
  - rewrite Htest.
    assert (Hcol' : hasColumn (Z.to_nat n) out).
    { unfold hasColumn.
      rewrite (SliceStable_Permutation less (fun x y => Some (ltb x y)) _ _ Hreads Hout).
      done. }
    rewrite Hclosure by done.
    rewrite (SliceStable_sorted_fixed ltb less out Hreads Hsorted). done.
Qed.

(** ** The comparators as orders *)

Lemma compare_refl (s : string) : String.compare s s = Eq.
Proof.
  pose proof (String.compare_antisym s s) as H.
  destruct (String.compare s s); simpl in H; congruence.
Qed.

Lemma ltb_not_leb (a b : string) : String.ltb a b = negb (String.leb b a).
Proof.
  unfold String.ltb, String.leb. rewrite (String.compare_antisym b a).
  by destruct (String.compare a b).
Qed.

Lemma StringComparison_less (a b : string) :
  StringComparison a b < 0 <-> String.ltb a b = true.
Proof.
  unfold StringComparison.
  destruct (String.ltb a b); [split; [done|lia]|].
  destruct (String.ltb b a); split; (done || lia).
Qed.

Lemma ltb_strictWeak :
  (forall a b, String.ltb a b = true -> String.ltb b a = false) /\
  (forall a b c, String.ltb a c = true ->
     String.ltb a b = true \/ String.ltb b c = true).
Proof.
  split.
  - intros a b. unfold String.ltb. rewrite (String.compare_antisym b a).
    by destruct (String.compare a b).
  - intros a b c Hac.
    destruct (String.ltb a b) eqn:Hab; [by left|].
    destruct (String.ltb b c) eqn:Hbc; [by right|]. exfalso.
    rewrite ltb_not_leb in Hab, Hbc, Hac.
    apply negb_false_iff in Hab, Hbc. apply negb_true_iff in Hac.
    assert (Hca : String.le c a).
    { etrans; apply Is_true_true; eauto. }
    apply Is_true_true in Hca. congruence.
Qed.

Lemma StringComparison_threeWay (a b : string) : threeWay (StringComparison a b).
Proof.
  unfold threeWay, StringComparison.
  destruct (String.ltb a b); [by left|].
  destruct (String.ltb b a); [by right; right|by right; left].
Qed.

Lemma StringComparison_opp (a b : string) :
  StringComparison b a = - StringComparison a b.
Proof.
  unfold StringComparison, String.ltb.
  rewrite (String.compare_antisym b a).
  by destruct (String.compare a b).
Qed.

Lemma StringComparison_strictWeak : strictWeak StringComparison.
Proof.
  destruct ltb_strictWeak as [Hasym Hneg]. split.
  - intros a b Hab Hba. apply StringComparison_less in Hab, Hba.
    rewrite (Hasym _ _ Hab) in Hba. done.
  - intros a b c Hac. rewrite !StringComparison_less.
    apply Hneg. by apply StringComparison_less.
Qed.

(** X4. [StringComparison] is a three-way comparison of a total order: it
    returns -1, 0 or 1; 0 exactly for equal strings; with the arguments
    exchanged, the opposite number; and its "less" is a strict weak order. *)
Theorem StringComparison_total_order :
  (forall a b, threeWay (StringComparison a b)) /\
  (forall a b, StringComparison a b = 0 <-> a = b) /\
  (forall a b, StringComparison b a = - StringComparison a b) /\
  strictWeak StringComparison.
Proof.
  split; [exact StringComparison_threeWay|].
  split; [|split; [exact StringComparison_opp|exact StringComparison_strictWeak]].
  intros a b. unfold StringComparison, String.ltb.
  rewrite (String.compare_antisym b a). split.
  - destruct (String.compare a b) eqn:Hab; simpl; try done.
    intros _. by apply String.compare_eq_iff.
  - intros ->. by rewrite compare_refl.
Qed.

(** X5. [BoolComparison] orders cells by three ranks: text that
    [strconv.ParseBool] rejects, then false, then true.  Its result is the
    sign of the difference of the ranks, so its "less" is a strict weak
    order. *)
Theorem BoolComparison_by_rank :
  (forall a b, BoolComparison a b = Z.sgn (boolRank a - boolRank b)) /\
  strictWeak BoolComparison.
Proof.
  assert (Hrank : forall a b, BoolComparison a b = Z.sgn (boolRank a - boolRank b)).
  { intros a b. unfold BoolComparison, boolRank.
    by destruct (Strconv.ParseBool a) as [[|]|], (Strconv.ParseBool b) as [[|]|]. }
  split; [done|]. split.
  - intros a b. rewrite !Hrank. lia.
  - intros a b c. rewrite !Hrank. lia.
Qed.

Section NumericOrders.
Context {float64 : Type}.
Variable flt : float64 -> float64 -> bool.
Variable parse : string -> option float64.

Lemma compareParsed_less (pa pb : option float64) :
  compareParsed flt pa pb < 0 <->
  exists x, pa = Some x /\ (pb = None \/ exists y, pb = Some y /\ flt x y = true).
Proof.
  unfold compareParsed. destruct pa as [x|], pb as [y|]; simpl.
  - destruct (flt x y) eqn:Hxy.
    + split; [|lia]. intros _. exists x. split; [done|]. right. eauto.
    + split.
      * destruct (flt y x); lia.
      * intros (x' & [= <-] & [?|(y' & [= <-] & ?)]); congruence.
  - split; [|lia]. intros _. exists x. split; [done|by left].
  - split; [lia|]. by intros (x & ? & _).
  - split; [lia|]. by intros (x & ? & _).
Qed.

Lemma compareParsed_order :
  numericOrder flt parse (fun a b => compareParsed flt (parse a) (parse b)).
Proof.
  split; [|split; [|split; [|split]]].
  - intros a b. destruct (parse a) as [x|], (parse b) as [y|];
      unfold threeWay; simpl; try lia.
    destruct (flt x y); [lia|]. destruct (flt y x); lia.
  - by intros a b x -> ->.
  - by intros a b -> ->.
  - intros a b x y Ha Hb. rewrite compareParsed_less, Ha, Hb. split.
    + intros (x' & [= <-] & [?|(y' & [= <-] & ?)]); done.
    + intros Hxy. exists x. split; [done|]. right. eauto.
  - intros ordered Hasym Hneg. split.
    + intros a b Pa Pb. rewrite !compareParsed_less.
      intros (x & Hx & Hb) (y & Hy & Ha).
      destruct Hb as [Hb|(y' & Hb & Hxy)]; [congruence|].
      destruct Ha as [Ha|(x' & Ha & Hyx)]; [congruence|].
      assert (y' = y) as -> by congruence. assert (x' = x) as -> by congruence.
      rewrite (Hasym x y) in Hyx; [done|by apply Pa|by apply Pb|done].
    + intros a b c Pa Pb Pc. rewrite !compareParsed_less.
      intros (x & Hx & Hc).
      destruct (parse b) as [y|] eqn:Hb.
      2:{ left. exists x. split; [done|by left]. }
      destruct Hc as [Hc|(z & Hc & Hxz)].
      { right. exists y. split; [done|by left]. }
      destruct (Hneg x y z) as [Hxy|Hyz]; [by apply Pa|by apply Pb|by apply Pc|done| |].
      * left. exists x. split; [done|]. right. eauto.
      * right. exists y. split; [done|]. right. eauto.
Qed.

End NumericOrders.

(** X6. [NumericalComparison], [CurrencyComparison] and [PercentComparison]
    return -1, 0 or 1; each puts every cell that does not parse after all
    that do and takes two such cells as equal; two cells that parse compare
    by [<] on their numbers; and on cells whose numbers [<] orders as a
    strict weak order, which for [float64] are all but NaN, the "less" of
    each comparator is a strict weak order. *)
Theorem Numeric_comparators_order {float64 : Type}
    (flt : float64 -> float64 -> bool) (ParseFloat : string -> option float64) :
  numericOrder flt ParseFloat (NumericalComparison flt ParseFloat) /\
  numericOrder flt (parseCurrencyString ParseFloat) (CurrencyComparison flt ParseFloat) /\
  numericOrder flt (parsePercentString ParseFloat) (PercentComparison flt ParseFloat).
Proof.
  split; [|split].
  - apply (compareParsed_order flt ParseFloat).
  - apply (compareParsed_order flt (parseCurrencyString ParseFloat)).
  - apply (compareParsed_order flt (parsePercentString ParseFloat)).
Qed.

Lemma neg_small (z : Z) :
  GoInt.in_range z -> z <> GoInt.min_int -> GoInt.neg z = - z.
Proof.
  unfold GoInt.in_range, GoInt.min_int, GoInt.max_int. intros Hz Hmin.
  unfold GoInt.neg. apply wrap_in_range.
  unfold GoInt.in_range, GoInt.min_int, GoInt.max_int. lia.
Qed.

(** X7. [InverseComparison] negates what the comparator returns, so applied
    twice it gives the comparator back, except at the one [int] whose
    negation overflows: where the comparator returns the least [int], the
    inverse returns it too, and the order is not reversed there. *)
Theorem InverseComparison_negates (cmp : ComparisonFunc) (a b : string) :
  GoInt.in_range (cmp a b) ->
  (cmp a b <> GoInt.min_int ->
     InverseComparison cmp a b = - cmp a b /\
     InverseComparison (InverseComparison cmp) a b = cmp a b /\
     (InverseComparison cmp a b < 0 <-> 0 < cmp a b)) /\
  (cmp a b = GoInt.min_int ->
     InverseComparison cmp a b = GoInt.min_int).
Proof.
  intros Hrange. split.
  - intros Hmin. unfold InverseComparison.
    rewrite (neg_small (cmp a b)) by done.
    split; [done|]. split; [|lia].
    rewrite neg_small; [lia| |].
    + unfold GoInt.in_range, GoInt.min_int, GoInt.max_int in *. lia.
    + unfold GoInt.in_range, GoInt.min_int, GoInt.max_int in *. lia.
  - intros Hmin. unfold InverseComparison. rewrite Hmin. reflexivity.
Qed.

(** X8. [InverseComparison] of a three-way comparator that changes sign with
    its arguments, as [StringComparison] and [BoolComparison] do, compares
    the other way round; its "less" is a strict weak order when the
    comparator's is, so [SortBy] with it sorts in descending order. *)
Theorem InverseComparison_descending (cmp : ComparisonFunc) :
  (forall a b, threeWay (cmp a b)) ->
  (forall a b, cmp b a = - cmp a b) ->
  (forall a b, InverseComparison cmp a b = cmp b a) /\
  (strictWeak cmp -> strictWeak (InverseComparison cmp)).
Proof.
  intros H3 Hopp.
  assert (Hinv : forall a b, InverseComparison cmp a b = cmp b a).
  { intros a b. unfold InverseComparison. rewrite (Hopp a b).
    apply neg_small.
    - destruct (H3 a b) as [->|[->| ->]]; unfold GoInt.in_range; by vm_compute.
    - destruct (H3 a b) as [->|[->| ->]]; by vm_compute. }
  split; [done|]. intros [Hasym Hneg]. split.
  - intros a b. rewrite !Hinv. apply Hasym.
  - intros a b c. rewrite !Hinv. intros Hca.
    destruct (Hneg c b a Hca); [by right|by left].
Qed.

(** ** Transposing: when it fails, and twice *)

Lemma hasColumn_0 (rs : list (list string)) : [] ∉ rs -> hasColumn 0 rs.
Proof.
  intros Hno. apply Forall_forall. intros [|c row] Hin; [done|]. simpl. lia.
Qed.

(** X9. [Transpose] faults exactly when the header is empty or some stored
    row has no cell; on every other table it returns a table. *)
Theorem Transpose_fails_iff (t : table) :
  Transpose t = None <-> header t = [] \/ [] ∈ rows t.
Proof.
  split.
  - intros Hnone. destruct (header t) as [|h0 hs] eqn:Hh; [by left|]. right.
    destruct (decide ([] ∈ rows t)) as [|Hno]; [done|]. exfalso.
    destruct (Transpose_full t h0) as (u & Hu & _).
    + by rewrite Hh.
    + by apply hasColumn_0.
    + congruence.
  - intros [Hh|Hin].
    + unfold Transpose. by rewrite Hh.
    + by apply Transpose_empty_row.
Qed.

Lemma Transpose_config (t u : table) :
  Transpose t = Some u ->
  u = {| FirstColumnFormatter := FirstColumnFormatter t;
         HeaderFormatter := HeaderFormatter t;
         StandoutFormatter := StandoutFormatter t;
         Padding := Padding t; Width := Width t;
         HeaderSeparatorRune := HeaderSeparatorRune t;
         PrintHeaders := PrintHeaders t;
         header := header u; rows := rows u; widths := [] |}.
Proof.
  unfold Transpose.
  destruct (header t !! 0%nat); simpl; [|done].
  destruct (firstCells _ _); simpl; [|done].
  destruct (fillRows _ _ _ _); simpl; [|done].
  by intros [= <-].
Qed.

Lemma transposed_back (hs : list string) (rs : list (list string)) :
  Forall (fun row => length row = S (length hs)) rs ->
  imap (fun i h => h :: (cellOr (i + 1) <$>
          imap (fun k h' => h' :: (cellOr (k + 1) <$> rs)) hs))
       (cellOr 0 <$> rs) = rs.
Proof.
  intros Hrect. apply list_eq. intros i.
  rewrite list_lookup_imap, list_lookup_fmap.
  destruct (rs !! i) as [row|] eqn:Hrow; simpl; [|done]. f_equal.
  assert (Hlen : length row = S (length hs)).
  { exact (Forall_lookup_1 (fun row => length row = S (length hs)) rs i row Hrect Hrow). }
  apply list_eq. intros [|k]; simpl.
  - unfold cellOr. destruct row; simpl in *; [lia|done].
  - rewrite list_lookup_fmap, list_lookup_imap.
    destruct (hs !! k) as [h|] eqn:Hk; simpl.
    + unfold cellOr at 1. replace (i + 1)%nat with (S i) by lia. simpl.
      rewrite list_lookup_fmap, Hrow. simpl.
      apply lookup_lt_Some in Hk.
      destruct (lookup_lt_is_Some_2 row (S k)) as [c Hc]; [lia|].
      unfold cellOr. replace (k + 1)%nat with (S k) by lia. by rewrite Hc.
    + apply lookup_ge_None in Hk. symmetry. apply lookup_ge_None. lia.
Qed.

Lemma first_cells_back (hs : list string) (rs : list (list string)) :
  cellOr 0 <$> imap (fun k h' => h' :: (cellOr (k + 1) <$> rs)) hs = hs.
Proof.
  apply list_eq. intros k. rewrite list_lookup_fmap, list_lookup_imap.
  by destruct (hs !! k).
Qed.

(** X10. On a table whose rows all have exactly as many cells as its
    non-empty header, [Transpose] returns a table of the same kind, and
    transposing that one gives the header, the rows and the configuration of
    the first back (with no widths). *)
Theorem Transpose_twice (t : table) :
  rectangular t ->
  exists u, Transpose t = Some u /\ rectangular u /\
            Transpose u = Some (set_widths t []).
Proof.
  intros [Hne Hrect].
  destruct (header t) as [|h0 hs] eqn:Hh; [done|]. simpl in Hrect.
  assert (Hcol : hasColumn 0 (rows t)).
  { eapply Forall_impl; [exact Hrect|]. intros row ->. lia. }
  destruct (Transpose_full t h0) as (u & Hu & Hhu & Hru); [by rewrite Hh|done|].
  rewrite Hh in Hru. simpl in Hru. rewrite drop_0 in Hru.
  exists u. split; [done|].
  assert (Hrectu : rectangular u).
  { split; [by rewrite Hhu|]. rewrite Hhu, Hru. apply Forall_forall.
    intros row Hin. apply list_elem_of_lookup in Hin as [i Hi].
    rewrite list_lookup_imap in Hi. destruct (hs !! i); simpl in Hi; [|done].
    injection Hi as <-. simpl. by rewrite !length_fmap. }
  split; [done|].
  assert (Hcolu : hasColumn 0 (rows u)).
  { destruct Hrectu as [_ Hall]. eapply Forall_impl; [exact Hall|].
    intros row ->. rewrite Hhu. simpl. lia. }
  destruct (Transpose_full u h0) as (v & Hv & Hhv & Hrv); [by rewrite Hhu|done|].
  rewrite Hv. f_equal.
  rewrite (Transpose_config u v Hv). rewrite (Transpose_config t u Hu). simpl.
  rewrite Hhv, Hrv, Hhu, Hru. simpl. rewrite drop_0.
  rewrite first_cells_back, transposed_back by done.
  unfold set_widths. by rewrite Hh.
Qed.

(** ** src/transpose.go against the guarded [Transpose] *)

Lemma TransposeGo_fillCells_full (i j : nat) (rs : list (list string))
    (newRow : list string) :
  hasColumn (i + 1) rs ->
  TransposeGo.fillCells i j rs newRow = fillCells i j rs newRow.
Proof.
  revert j newRow. induction rs as [|row rs IH]; intros j newRow Hcol; simpl; [done|].
  apply Forall_cons in Hcol as [Hrow Hcol].
  destruct (lookup_lt_is_Some_2 row (i + 1) Hrow) as [c ->]. simpl.
  destruct (store newRow (j + 1) c); simpl; [|done]. by apply IH.
Qed.

Lemma TransposeGo_fillCells_short (i j : nat) (rs : list (list string))
    (newRow : list string) :
  ~ hasColumn (i + 1) rs -> TransposeGo.fillCells i j rs newRow = None.
Proof.
  revert j newRow. induction rs as [|row rs IH]; intros j newRow Hcol; simpl.
  - destruct Hcol. constructor.
  - destruct (row !! (i + 1)%nat) as [c|] eqn:Hc; simpl; [|done].
    destruct (store newRow (j + 1) c); simpl; [|done]. apply IH.
    intros Hrest. apply Hcol. constructor; [|done]. by eapply lookup_lt_Some.
Qed.

Lemma TransposeGo_fillRows_full (i : nat) (hs : list string)
    (rs newRows : list (list string)) :
  (forall k, (k < length hs)%nat -> hasColumn (i + k + 1) rs) ->
  TransposeGo.fillRows i hs rs newRows = fillRows i hs rs newRows.
Proof.
  revert i newRows. induction hs as [|h hs IH]; intros i newRows Hcols; simpl; [done|].
  destruct (newRows !! i) as [newRow|]; simpl; [|done].
  destruct (store newRow 0 h) as [newRow1|]; simpl; [|done].
  rewrite TransposeGo_fillCells_full.
  2:{ specialize (Hcols 0%nat). rewrite Nat.add_0_r in Hcols. apply Hcols. simpl. lia. }
  destruct (fillCells i 0 rs newRow1) as [newRow2|]; simpl; [|done].
  destruct (store newRows i newRow2); simpl; [|done].
  apply IH. intros k Hk. replace (S i + k + 1)%nat with (i + S k + 1)%nat by lia.
  apply Hcols. simpl. lia.
Qed.

Lemma TransposeGo_fillRows_short (i : nat) (hs : list string)
    (rs newRows : list (list string)) (k : nat) :
  (k < length hs)%nat -> ~ hasColumn (i + k + 1) rs ->
  TransposeGo.fillRows i hs rs newRows = None.
Proof.
  revert i newRows k. induction hs as [|h hs IH]; intros i newRows k Hk Hcol; simpl in *.
  { lia. }
  destruct (newRows !! i) as [newRow|]; simpl; [|done].
  destruct (store newRow 0 h) as [newRow1|]; simpl; [|done].
  destruct k as [|k].
  - rewrite Nat.add_0_r in Hcol. by rewrite TransposeGo_fillCells_short.
  - destruct (TransposeGo.fillCells i 0 rs newRow1); simpl; [|done].
    destruct (store newRows i _); simpl; [|done].
    apply (IH _ _ k); [lia|]. by replace (S i + k + 1)%nat with (i + S k + 1)%nat by lia.
Qed.

Lemma TransposeGo_full (t : table) :
  Forall (fun row => (length (header t) <= length row)%nat) (rows t) ->
  TransposeGo.Transpose t = (fun u => set_widths u (widths t)) <$> Transpose t.
Proof.
  intros Hall. unfold TransposeGo.Transpose, Transpose.
  destruct (header t !! 0%nat); simpl; [|done].
  destruct (firstCells _ _); simpl; [|done].
  rewrite TransposeGo_fillRows_full.
  - by destruct (fillRows _ _ _ _).
  - intros k Hk. rewrite length_drop in Hk.
    eapply Forall_impl; [exact Hall|]. intros row Hrow. simpl in *. lia.
Qed.

Lemma TransposeGo_short (t : table) :
  Exists (fun row => (length row < length (header t))%nat) (rows t) ->
  TransposeGo.Transpose t = None.
Proof.
  intros Hshort. unfold TransposeGo.Transpose.
  destruct (header t !! 0%nat) as [h0|]; simpl; [|done].
  destruct (firstCells (rows t) [h0]) as [newHeader|] eqn:Hfirst; simpl; [|done].
  apply firstCells_Some in Hfirst.
  apply Exists_exists in Hshort as (row & Hin & Hlen).
  assert (Hpos : (0 < length row)%nat).
  { unfold hasColumn in Hfirst. rewrite Forall_forall in Hfirst. by apply Hfirst. }
  rewrite (TransposeGo_fillRows_short 0 _ _ _ (length row - 1)); [done| |].
  - rewrite length_drop. lia.
  - intros Hcol. unfold hasColumn in Hcol. rewrite Forall_forall in Hcol.
    specialize (Hcol row Hin). simpl in Hcol. lia.
Qed.

Lemma not_short_full (t : table) :
  ~ Exists (fun row => (length row < length (header t))%nat) (rows t) ->
  Forall (fun row => (length (header t) <= length row)%nat) (rows t).
Proof.
  intros Hno. apply not_Exists_Forall in Hno; [|apply _].
  eapply Forall_impl; [exact Hno|]. intros row Hrow. simpl in *. lia.
Qed.

(** X11. The [Transpose] of src/transpose.go reads every cell unguarded: it
    faults exactly when the header is empty or some row is shorter than the
    header; when it returns, the guarded [Transpose] returns the same table
    but for the widths, which the older one carries over. *)
Theorem TransposeGo_unguarded (t : table) :
  (TransposeGo.Transpose t = None <->
   header t = [] \/
   Exists (fun row => (length row < length (header t))%nat) (rows t)) /\
  (forall v, TransposeGo.Transpose t = Some v ->
     Transpose t = Some (set_widths v []) /\ widths v = widths t).
Proof.
  split.
  - split.
    + intros Hnone.
      destruct (decide (header t = [])) as [|Hne]; [by left|]. right.
      destruct (decide (Exists (fun row => (length row < length (header t))%nat)
                          (rows t))) as [|Hno]; [done|]. exfalso.
      pose proof (not_short_full t Hno) as Hall.
      rewrite (TransposeGo_full t Hall) in Hnone.
      assert (Hsome : Transpose t <> None).
      { destruct (header t) as [|h0 hs] eqn:Hh; [done|].
        destruct (Transpose_full t h0) as (u & Hu & _).
        - by rewrite Hh.
        - eapply Forall_impl; [exact Hall|]. intros row Hrow. simpl in *. lia.
        - by rewrite Hu. }
      by destruct (Transpose t).
    + intros [Hh|Hshort].
      * unfold TransposeGo.Transpose. by rewrite Hh.
      * by apply TransposeGo_short.
  - intros v Hv.
    destruct (decide (Exists (fun row => (length row < length (header t))%nat)
                        (rows t))) as [Hshort|Hno].
    + rewrite (TransposeGo_short t Hshort) in Hv. done.
    + rewrite (TransposeGo_full t (not_short_full t Hno)) in Hv.
      destruct (Transpose t) as [u|] eqn:Hu; simpl in Hv; [|done].
      injection Hv as <-. split; [|done]. f_equal.
      rewrite (Transpose_config t u Hu). done.
Qed.

(** ** Rendering: when it faults *)

Lemma widen_length (t : table) (i : nat) (cells : list string) (ws ws' : list Z) :
  widen t i cells ws = Some ws' -> length ws' = length ws.
Proof.
  revert i ws. induction cells as [|c cells IH]; intros i ws; simpl.
  - by intros [= <-].
  - destruct (ws !! i) as [cur|]; simpl; [|done].
    destruct (_ <? _).
    + unfold store. destruct (decide _); simpl; [|done].
      intros H. apply IH in H. by rewrite length_insert in H.
    + simpl. apply IH.
Qed.

Lemma widen_overrun (t : table) (i : nat) (cells : list string) (ws : list Z) :
  (i <= length ws)%nat -> (length ws < i + length cells)%nat ->
  widen t i cells ws = None.
Proof.
  revert i ws. induction cells as [|c cells IH]; intros i ws Hi Hlen; simpl in *; [lia|].
  destruct (ws !! i) as [cur|] eqn:Hcur; simpl; [|done].
  apply lookup_lt_Some in Hcur.
  destruct (_ <? _).
  - rewrite store_Some by lia. simpl. apply IH; rewrite length_insert; lia.
  - simpl. apply IH; lia.
Qed.

Lemma widenRows_overrun (t : table) (rs : list (list string)) (ws : list Z) :
  Exists (fun row => (length ws < length row)%nat) rs -> widenRows t rs ws = None.
Proof.
  revert ws. induction rs as [|row rs IH]; intros ws Hex; simpl.
  - by apply Exists_nil in Hex.
  - apply Exists_cons in Hex as [Hrow|Hex].
    + rewrite widen_overrun; [done|lia|simpl; lia].
    + destruct (widen t 0 row ws) as [ws'|] eqn:Hw; simpl; [|done].
      apply IH. apply widen_length in Hw. by rewrite Hw.
Qed.

Lemma calculateWidths_overrun (t : table) :
  ~ rowsFit t -> calculateWidths t = None.
Proof.
  intros Hfit. unfold calculateWidths. rewrite widenRows_overrun; [done|].
  apply not_Forall_Exists in Hfit; [|apply _].
  eapply Exists_impl; [exact Hfit|]. intros row Hrow. rewrite length_replicate.
  simpl in *. lia.
Qed.

Lemma separatorCells_length (t : table) (w : Z) (hs seps : list string) :
  separatorCells t w hs = Some seps -> length seps = length hs.
Proof.
  revert seps. induction hs as [|h hs IH]; intros seps; simpl.
  - by intros [= <-].
  - destruct (GoInt.quo _ _); simpl; [|done].
    destruct (GoStrings.Repeat _ _); simpl; [|done].
    destruct (separatorCells t w hs); simpl; [|done].
    intros [= <-]. simpl. f_equal. by apply IH.
Qed.

Lemma separatorCells_None (t : table) (w : Z) (hs : list string) :
  separatorCells t w hs = None <->
  Exists (fun h => w = 0 \/ GoInt.wrap (Z.quot (Width t h) w) < 0) hs.
Proof.
  induction hs as [|h hs IH]; simpl.
  - split; [done|]. intros H. by apply Exists_nil in H.
  - rewrite Exists_cons. unfold GoInt.quo, GoStrings.Repeat.
    destruct (w =? 0) eqn:Hw; simpl.
    { apply Z.eqb_eq in Hw. split; [|done]. intros _. left. by left. }
    apply Z.eqb_neq in Hw.
    destruct (_ <? 0) eqn:Hq; simpl.
    { apply Z.ltb_lt in Hq. split; [|done]. intros _. left. by right. }
    apply Z.ltb_ge in Hq.
    destruct (separatorCells t w hs) as [more|]; simpl.
    + split; [done|]. intros [[?|?]|Hex]; [done|lia|]. by apply IH in Hex.
    + split; [|done]. intros _. right. by apply IH.
Qed.

Lemma printHeader_completes (t : table) (format : string) :
  length (widths t) = length (header t) ->
  exists h, printHeader t format = Some [h].
Proof.
  intros Hlen. unfold printHeader, applyWidths.
  destruct (applyWidthsFrom_completes t 0 (header t) (widths t))
    as (vals & -> & _); [simpl; lia|]. simpl.
  destruct (HeaderFormatter t); eauto.
Qed.

Lemma printHeaderSeparator_faults (t : table) (format : string) :
  length (widths t) = length (header t) ->
  (printHeaderSeparator t format = None <-> separatorFaults t) /\
  (forall out, printHeaderSeparator t format = Some out -> length out = 1%nat).
Proof.
  intros Hlen. unfold printHeaderSeparator, separatorFaults.
  set (w := Width t _).
  pose proof (separatorCells_None t w (header t)) as Hnone.
  destruct (separatorCells t w (header t)) as [seps|] eqn:Hseps; simpl.
  - apply separatorCells_length in Hseps. unfold applyWidths.
    destruct (applyWidthsFrom_completes t 0 seps (widths t))
      as (vals & -> & _); [simpl; lia|]. simpl.
    split.
    + split.
      * by destruct (HeaderFormatter t).
      * intros Hex. apply Hnone in Hex. done.
    + intros out. by destruct (HeaderFormatter t); intros [= <-].
  - split; [|done]. split; [|done]. intros _. by apply Hnone.
Qed.

Lemma printRows_faults (t : table) (format : string) (i : nat)
    (rs : list (list string)) :
  Forall (fun row => (length row <= length (widths t))%nat) rs ->
  (printRows t format i rs = None <->
   is_Some (FirstColumnFormatter t) /\ [] ∈ rs) /\
  (forall out, printRows t format i rs = Some out -> length out = length rs).
Proof.
  revert i. induction rs as [|row rs IH]; intros i Hall; simpl.
  - split.
    + split; [done|]. intros [_ Hin]. by apply elem_of_nil in Hin.
    + by intros out [= <-].
  - apply Forall_cons in Hall as [Hrow Hall].
    destruct (IH (S i) Hall) as [IHnone IHlen].
    unfold printRow, applyWidths.
    destruct (applyWidthsFrom_completes t 0 row (widths t))
      as (vals & -> & Hvals); [simpl; lia|]. simpl.
    destruct (FirstColumnFormatter t) as [f|] eqn:Hf; simpl.
    + destruct row as [|c row].
      * destruct vals; [|done]. simpl. split; [|done].
        split; [|done]. intros _. split; [eauto|]. by left.
      * destruct vals as [|v0 vals]; [done|]. simpl.
        destruct (printRows t format (S i) rs) as [more|]; simpl.
        -- split.
           ++ split; [done|]. intros [_ Hin]. apply elem_of_cons in Hin as [|Hin]; [done|].
              assert (Hnone : Some more = None) by (apply IHnone; split; [eauto|done]).
              done.
           ++ intros out [= <-]. simpl. f_equal. by apply IHlen.
        -- split; [|done]. split; [|done]. intros _.
           destruct (proj1 IHnone eq_refl) as [? Hin]. split; [done|]. by right.
    + destruct (printRows t format (S i) rs) as [more|]; simpl.
      * split.
        -- split; [done|]. by intros [[? [=]] _].
        -- intros out [= <-]. simpl. f_equal. by apply IHlen.
      * split; [|done]. split; [|done]. intros _.
        by destruct (proj1 IHnone eq_refl) as [[? [=]] _].
Qed.

(** With memory unbounded, as the embedding has it ([strings.Repeat] and
    [make] return for every count that is not negative), [Print] on the
    model faults in three cases and no other. *)
Lemma Print_None_cases (t : table) :
  (Print t = None <->
   ~ rowsFit t \/
   (PrintHeaders t = true /\ HeaderSeparatorRune t <> 0 /\ separatorFaults t) \/
   (is_Some (FirstColumnFormatter t) /\ [] ∈ rows t)) /\
  (forall u out, Print t = Some (u, out) ->
     length out =
       ((if PrintHeaders t
         then (if (HeaderSeparatorRune t =? 0)%Z then 1 else 2) else 0)
        + length (rows t))%nat).
Proof.
  destruct (decide (rowsFit t)) as [Hfit|Hfit].
  2:{ unfold Print. rewrite calculateWidths_overrun by done. simpl.
      split; [|done]. split; [|done]. intros _. by left. }
  unfold Print.
  destruct (calculateWidths_completes t Hfit) as (ws & -> & Hlen). simpl.
  set (format := _ +:+ _). set (u := set_widths t ws).
  assert (Hlenu : length (widths u) = length (header u)) by done.
  destruct (printHeader_completes u format Hlenu) as [h Hh].
  destruct (printHeaderSeparator_faults u format Hlenu) as [Hsep Hseplen].
  destruct (printRows_faults u format 0 (rows t)) as [Hrows Hrowslen].
  { eapply Forall_impl; [exact Hfit|]. intros row Hrow. simpl in *. lia. }
  change (separatorFaults u) with (separatorFaults t) in Hsep.
  change (FirstColumnFormatter u) with (FirstColumnFormatter t) in Hrows.
  destruct (PrintHeaders t) eqn:Hph; simpl.
  - rewrite Hh. simpl.
    destruct (HeaderSeparatorRune t =? 0) eqn:Hrune; simpl.
    + apply Z.eqb_eq in Hrune.
      destruct (printRows u format 0 (rows t)) as [body|]; simpl.
      * split.
        -- split; [done|]. intros [?|[(_ & ? & _)|Hfc]]; [done|done|].
           by apply Hrows in Hfc.
        -- intros ? ? [= <- <-]. simpl. f_equal. by apply Hrowslen.
      * split; [|done]. split; [|done]. intros _. right. right. by apply Hrows.
    + apply Z.eqb_neq in Hrune.
      destruct (printHeaderSeparator u format) as [s|]; simpl.
      * destruct (printRows u format 0 (rows t)) as [body|]; simpl.
        -- split.
           ++ split; [done|]. intros [?|[(_ & _ & Hf)|Hfc]]; [done| |].
              ** by apply Hsep in Hf.
              ** by apply Hrows in Hfc.
           ++ intros ? ? [= <- <-]. simpl. rewrite length_app.
              rewrite (Hseplen s eq_refl), (Hrowslen body eq_refl). done.
        -- split; [|done]. split; [|done]. intros _. right. right. by apply Hrows.
      * split; [|done]. split; [|done]. intros _. right. left.
        split; [done|]. split; [done|]. by apply Hsep.
  - destruct (printRows u format 0 (rows t)) as [body|]; simpl.
    + split.
      * split; [done|]. intros [?|[(? & _)|Hfc]]; [done|done|].
        by apply Hrows in Hfc.
      * intros ? ? [= <- <-]. by apply Hrowslen.
    + split; [|done]. split; [|done]. intros _. right. right. by apply Hrows.
Qed.

(** X12. [Print] faults in each of three cases: a stored row is longer than
    the header; the headers are printed with a separator whose rune has
    width 0 or gives a negative repeat count; a first-column formatter is
    set and a row has no cell.  Whenever it returns, none of the three
    holds, and it has written one chunk for the header, one for the
    separator and one per row. *)
Theorem Print_faults (t : table) :
  (~ rowsFit t \/
   (PrintHeaders t = true /\ HeaderSeparatorRune t <> 0 /\ separatorFaults t) \/
   (is_Some (FirstColumnFormatter t) /\ [] ∈ rows t) ->
   Print t = None) /\
  (forall u out, Print t = Some (u, out) ->
     rowsFit t /\
     ~ (PrintHeaders t = true /\ HeaderSeparatorRune t <> 0 /\ separatorFaults t) /\
     ~ (is_Some (FirstColumnFormatter t) /\ [] ∈ rows t) /\
     length out =
       ((if PrintHeaders t
         then (if (HeaderSeparatorRune t =? 0)%Z then 1 else 2) else 0)
        + length (rows t))%nat).
Proof.
  destruct (Print_None_cases t) as [Hnone Hlen].
  split; [apply Hnone|]. intros u out HP.
  assert (Hno : Print t <> None) by congruence.
  split.
  { destruct (decide (rowsFit t)) as [|Hfit]; [done|].
    destruct Hno. apply Hnone. by left. }
  split; [intros H; apply Hno, Hnone; right; by left|].
  split; [intros H; apply Hno, Hnone; right; by right|].
  by apply (Hlen u).
Qed.

(** ** Rendering: the lines written *)

Lemma append_assoc (a b c : string) : (a +:+ b) +:+ c = a +:+ (b +:+ c).
Proof.
  induction a as [|x a IH]; [reflexivity|].
  change (String x ((a +:+ b) +:+ c) = String x (a +:+ (b +:+ c))). by f_equal.
Qed.

Lemma Sprintf_verbs (n : nat) (vals : list string) :
  (length vals <= n)%nat ->
  Fmt.Sprintf (GoStrings.repeat_nat "%s" n +:+ String GoStrings.LF EmptyString) vals
  = glue vals +:+ GoStrings.repeat_nat missing (n - length vals)
    +:+ String GoStrings.LF EmptyString.
Proof.
  revert vals. induction n as [|n IH]; intros vals Hlen.
  - destruct vals; [reflexivity|simpl in Hlen; lia].
  - change (GoStrings.repeat_nat "%s" (S n) +:+ String GoStrings.LF EmptyString)
      with (String "%" (String "s"
              (GoStrings.repeat_nat "%s" n +:+ String GoStrings.LF EmptyString))).
    destruct vals as [|a vals].
    + change (Fmt.Sprintf (String "%" (String "s" ?r)) [])
        with (missing +:+ Fmt.Sprintf r []).
      rewrite IH by (simpl; lia). simpl length. rewrite !Nat.sub_0_r.
      change (glue []) with EmptyString.
      change (GoStrings.repeat_nat missing (S n))
        with (missing +:+ GoStrings.repeat_nat missing n).
      change (EmptyString +:+ ?x) with x.
      by rewrite append_assoc.
    + change (Fmt.Sprintf (String "%" (String "s" ?r)) (a :: vals))
        with (a +:+ Fmt.Sprintf r vals).
      simpl in Hlen. rewrite IH by lia.
      change (glue (a :: vals)) with (a +:+ glue vals).
      change (S n - length (a :: vals))%nat with (n - length vals)%nat.
      by rewrite !append_assoc.
Qed.

Lemma applyWidthsFrom_zip (t : table) (i : nat) (row : list string)
    (ws : list Z) (vals : list string) :
  applyWidthsFrom t i row ws = Some vals ->
  vals = zip_with (fun s w => s +:+ lenOffset t s w) row (drop i ws) /\
  length vals = length row.
Proof.
  revert i vals. induction row as [|s row IH]; intros i vals; simpl.
  - intros [= <-]. by destruct (drop i ws).
  - destruct (ws !! i) as [w|] eqn:Hw; simpl; [|done].
    destruct (applyWidthsFrom t (S i) row ws) as [out|] eqn:Hout; simpl; [|done].
    intros [= <-]. destruct (IH _ _ Hout) as [-> Hlen].
    rewrite (drop_S ws w i Hw). simpl. split; [done|]. by rewrite Hlen.
Qed.

Lemma printRows_lines (t : table) (i : nat) (rs : list (list string))
    (out : list string) :
  FirstColumnFormatter t = None -> StandoutFormatter t = None ->
  Forall (fun row => (length row <= length (header t))%nat) rs ->
  printRows t
    (GoStrings.repeat_nat "%s" (length (header t)) +:+ String GoStrings.LF EmptyString)
    i rs = Some out ->
  out = renderedLine t <$> rs.
Proof.
  intros Hfc Hso. revert i out.
  induction rs as [|row rs IH]; intros i out Hall; simpl.
  - by intros [= <-].
  - apply Forall_cons in Hall as [Hrow Hall].
    unfold printRow, applyWidths. rewrite Hfc, Hso.
    destruct (applyWidthsFrom t 0 row (widths t)) as [vals|] eqn:Hvals; simpl; [|done].
    destruct (printRows t _ (S i) rs) as [more|] eqn:Hmore; simpl; [|done].
    intros [= <-]. rewrite (IH _ _ Hall Hmore). f_equal.
    apply applyWidthsFrom_zip in Hvals as [Hzip Hlen].
    assert (Hsame : forall b : bool, (if b then vals else vals) = vals)
      by (by intros []).
    rewrite Hsame. rewrite Sprintf_verbs by lia.
    unfold renderedLine, padded. by rewrite Hlen, Hzip, drop_0.
Qed.

(** X13. Without formatters and without a header separator, what [Print]
    writes is one line for the header, if headers are printed, and one line
    per stored row, in order.  A line is the row's cells, each padded with
    blanks for its column, then [%!s(MISSING)] once for every column the row
    does not reach, then the line break. *)
Theorem Print_lines (t u : table) (out : list string) :
  Print t = Some (u, out) ->
  HeaderFormatter t = None -> FirstColumnFormatter t = None ->
  StandoutFormatter t = None -> HeaderSeparatorRune t = 0 ->
  out = (if PrintHeaders t then [renderedLine u (header t)] else [])
        ++ (renderedLine u <$> rows t).
Proof.
  intros HP Hhf Hfc Hso Hsep.
  assert (Hfit : rowsFit t).
  { destruct (decide (rowsFit t)) as [|Hno]; [done|].
    unfold Print in HP. by rewrite calculateWidths_overrun in HP. }
  pose proof (Print_widths t u out HP) as Hcalc.
  apply calculateWidths_shape in Hcalc.
  unfold Print in HP.
  destruct (calculateWidths t) as [t1|] eqn:Ht1; simpl in HP; [|done].
  pose proof (calculateWidths_shape t t1 Ht1) as Hshape.
  set (format := _ +:+ _) in HP.
  assert (Hhead : (if PrintHeaders t1
                   then printHeader t1 format ≫= fun h =>
                        (if HeaderSeparatorRune t1 =? 0 then Some []
                         else printHeaderSeparator t1 format) ≫= fun s => Some (h ++ s)
                   else Some [])
                  = (if PrintHeaders t
                     then (fun vals => [Fmt.Sprintf format vals])
                          <$> applyWidths t1 (header t1) (widths t1)
                     else Some [])).
  { rewrite Hshape. simpl. rewrite Hsep. simpl.
    destruct (PrintHeaders t); [|done].
    unfold printHeader. simpl. rewrite Hhf.
    by destruct (applyWidths _ _ _). }
  rewrite Hhead in HP. clear Hhead.
  destruct (PrintHeaders t) eqn:Hph.
  - destruct (applyWidths t1 (header t1) (widths t1)) as [vals|] eqn:Hvals;
      simpl in HP; [|done].
    destruct (printRows t1 format 0 (rows t1)) as [body|] eqn:Hbody;
      simpl in HP; [|done].
    injection HP as <- <-.
    apply applyWidthsFrom_zip in Hvals as [Hzip Hlen].
    assert (Hrows : rows t1 = rows t) by (by rewrite Hshape).
    assert (Hheader : header t1 = header t) by (by rewrite Hshape).
    unfold format in *. rewrite <- Hheader in Hbody |- *.
    rewrite (printRows_lines t1 0 (rows t1) body); [| | | |exact Hbody].
    + rewrite Hrows. simpl. f_equal.
      rewrite Sprintf_verbs by lia.
      unfold renderedLine, padded. by rewrite Hlen, Hzip, drop_0.
    + by rewrite Hshape.
    + by rewrite Hshape.
    + rewrite Hrows, Hheader. exact Hfit.
  - destruct (printRows t1 format 0 (rows t1)) as [body|] eqn:Hbody;
      simpl in HP; [|done].
    injection HP as <- <-.
    assert (Hrows : rows t1 = rows t) by (by rewrite Hshape).
    assert (Hheader : header t1 = header t) by (by rewrite Hshape).
    unfold format in *. rewrite <- Hheader in Hbody.
    rewrite (printRows_lines t1 0 (rows t1) body); [| | | |exact Hbody].
    + by rewrite Hrows.
    + by rewrite Hshape.
    + by rewrite Hshape.
    + rewrite Hrows, Hheader. exact Hfit.
Qed.

(** ** Rendering: the columns line up *)

Lemma foldr_max_bounds {A : Type} (f : A -> Z) (m0 : Z) (l : list A) :
  let m := foldr (fun x m => Z.max (f x) m) m0 l in
  m0 <= m /\ (forall x, x ∈ l -> f x <= m) /\
  (m = m0 \/ exists x, x ∈ l /\ m = f x).
Proof.
  induction l as [|x l IH]; simpl.
  - split; [lia|]. split; [|by left]. intros x Hx. by apply elem_of_nil in Hx.
  - simpl in IH. destruct IH as (Hlow & Hall & Hmax).
    set (m := foldr _ m0 l) in *.
    split; [lia|]. split.
    + intros y Hy. apply elem_of_cons in Hy as [->|Hy]; [lia|].
      specialize (Hall y Hy). lia.
    + destruct (Z.max_spec (f x) m) as [[_ ->]|[_ ->]].
      * destruct Hmax as [|(y & Hy & ->)]; [by left|].
        right. exists y. split; [by right|done].
      * right. exists x. split; [by left|done].
Qed.

Lemma columnWidth_bounds (t : table) (j : nat) (h : string) :
  metricFits t -> header t !! j = Some h ->
  Width t h + Padding t <= columnWidth t j h <= GoInt.max_int /\
  (forall row s, row ∈ rows t -> row !! j = Some s ->
     Width t s + Padding t <= columnWidth t j h).
Proof.
  intros [HP Hcells] Hh. apply Forall_app in Hcells as [Hhdr Hrows].
  rewrite Forall_forall in Hhdr, Hrows.
  destruct (Hhdr h (list_elem_of_lookup_2 _ _ _ Hh)) as [Hh0 Hhmax].
  unfold columnWidth.
  destruct (foldr_max_bounds (fun row => cellMetric t row j) (Width t h) (rows t))
    as (Hlow & Hall & Hmax).
  set (m := foldr _ (Width t h) (rows t)) in *.
  split; [split; [lia|]|].
  - destruct Hmax as [->|(row & Hrow & ->)]; [lia|].
    unfold cellMetric. destruct (row !! j) as [c|] eqn:Hc; [|lia].
    destruct (Hrows c) as [_ ?]; [|lia].
    apply list_elem_of_In, in_concat. exists row.
    split; apply list_elem_of_In; [done|]. by eapply list_elem_of_lookup_2.
  - intros row s Hrow Hs. specialize (Hall row Hrow). unfold cellMetric in Hall.
    rewrite Hs in Hall. lia.
Qed.

(** X14. When the width function counts a blank as one cell, every padded
    cell that [Print] hands to [fmt] is exactly as wide as its column: the
    header cell and the cells of all rows in a column end at the same
    place. *)
Theorem Print_aligns (t u : table) (out : list string) :
  Print t = Some (u, out) -> metricFits t ->
  (forall s k, Width t (s +:+ GoStrings.repeat_nat " " k) = Width t s + Z.of_nat k) ->
  forall cells, cells = header t \/ cells ∈ rows t ->
  forall j v, padded u cells !! j = Some v ->
    widths u !! j = Some (Width t v).
Proof.
  intros HP Hmetric Hblank cells Hcells j v Hv.
  assert (Hfit : rowsFit t).
  { destruct (decide (rowsFit t)) as [|Hno]; [done|].
    unfold Print in HP. by rewrite calculateWidths_overrun in HP. }
  apply Print_widths in HP.
  rewrite (calculateWidths_specWidths t Hfit Hmetric) in HP.
  injection HP as <-.
  unfold padded in Hv. simpl in *.
  apply lookup_zip_with_Some in Hv as (s & w & -> & Hs & Hw).
  rewrite Hw. f_equal.
  unfold specWidths in Hw. rewrite list_lookup_imap in Hw.
  destruct (header t !! j) as [h|] eqn:Hh; simpl in Hw; [|done].
  injection Hw as <-.
  destruct (columnWidth_bounds t j h Hmetric Hh) as ([Hlow Hhigh] & Hrows).
  assert (Hs0 : 0 <= Width t s /\ Width t s + Padding t <= columnWidth t j h).
  { destruct Hmetric as [HP0 Hall]. rewrite Forall_forall in Hall.
    destruct Hcells as [->|Hin].
    - rewrite Hh in Hs. injection Hs as <-.
      destruct (Hall h) as [? _]; [|lia].
      apply (elem_of_app (header t)). left. by eapply list_elem_of_lookup_2.
    - split; [|by eapply Hrows].
      destruct (Hall s) as [? _]; [|lia].
      apply (elem_of_app (header t)). right. apply list_elem_of_In, in_concat. exists cells.
      split; apply list_elem_of_In; [done|]. by eapply list_elem_of_lookup_2. }
  destruct Hmetric as [HP0 _].
  unfold lenOffset. simpl.
  unfold GoInt.sub. rewrite wrap_in_range.
  2:{ unfold GoInt.in_range, GoInt.min_int, GoInt.max_int in *. lia. }
  destruct (_ <=? 0) eqn:Hl.
  - apply Z.leb_le in Hl. pose proof (Hblank s 0%nat) as H0.
    change (GoStrings.repeat_nat " " 0) with EmptyString in H0. rewrite H0. lia.
  - apply Z.leb_gt in Hl. rewrite Hblank. lia.
Qed.

Lemma length_append (a b : string) :
  String.length (a +:+ b) = (String.length a + String.length b)%nat.
Proof.
  induction a as [|x a IH]; [reflexivity|].
  change (S (String.length (a +:+ b)) = S (String.length a + String.length b)).
  by f_equal.
Qed.

Lemma length_blanks (k : nat) : String.length (GoStrings.repeat_nat " " k) = k.
Proof.
  induction k as [|k IH]; [reflexivity|].
  change (S (String.length (GoStrings.repeat_nat " " k)) = S k). by f_equal.
Qed.

Lemma byteLen_blanks (s : string) (k : nat) :
  byteLen (s +:+ GoStrings.repeat_nat " " k) = byteLen s + Z.of_nat k.
Proof. unfold byteLen. rewrite length_append, length_blanks. lia. Qed.

(** ** Storing rows and headers *)

Lemma SetRows_fold (C : nat) (rs acc : list (list string)) :
  foldl (fun acc row =>
           if decide (C < length row)%nat then acc ++ [take C row] else acc ++ [row])
        acc rs
  = acc ++ (take C <$> rs).
Proof.
  revert acc. induction rs as [|row rs IH]; intros acc; csimpl.
  - by rewrite app_nil_r.
  - rewrite IH. case_decide.
    + by rewrite <- app_assoc.
    + rewrite (take_ge row C) by lia. by rewrite <- app_assoc.
Qed.

(** X15. [SetRows] replaces the stored rows by the given ones, each cut to
    the header's length and none padded: whatever was stored before is gone,
    a row shorter than the header stays short, and setting the stored rows
    again changes nothing. *)
Theorem SetRows_cuts (t : table) (rs : list (list string)) :
  SetRows t rs = set_rows t (take (length (header t)) <$> rs) /\
  (forall old, SetRows (set_rows t old) rs = SetRows t rs) /\
  SetRows (SetRows t rs) (rows (SetRows t rs)) = SetRows t rs /\
  (forall row, row ∈ rs -> (length row <= length (header t))%nat ->
     row ∈ rows (SetRows t rs)).
Proof.
  assert (Hcut : forall t rs,
            SetRows t rs = set_rows t (take (length (header t)) <$> rs)).
  { intros t' rs'. unfold SetRows. by rewrite SetRows_fold. }
  split; [apply Hcut|]. split; [|split].
  - intros old. by rewrite !Hcut.
  - rewrite !Hcut. simpl. unfold set_rows. simpl. f_equal.
    rewrite <- list_fmap_compose. apply list_fmap_ext. intros _ row _. simpl.
    by rewrite take_take, Nat.min_id.
  - intros row Hin Hlen. rewrite Hcut. simpl.
    apply list_elem_of_fmap. exists row. split; [|done]. by rewrite take_ge.
Qed.

Lemma AddHeadersAsArray_app (t : table) (cols : list string) :
  AddHeadersAsArray t cols = AddHeaders t cols.
Proof.
  unfold AddHeadersAsArray, AddHeaders. revert t.
  induction cols as [|col cols IH]; intros t; simpl.
  - rewrite app_nil_r. by destruct t.
  - rewrite IH. unfold set_header. simpl. by rewrite <- app_assoc.
Qed.

(** X16. The three ways to add headers append to the header and leave the
    stored rows as they are, so the rows stay shorter than the new header:
    once a header is added to a table with two or more rows that fit,
    [SortBy] on the new column is accepted as valid and then faults. *)
Theorem AddHeader_after_rows (t : table) (col : string) (cmpFn : ComparisonFunc) :
  rowsFit t -> (2 <= length (rows t))%nat ->
  AddHeadersAsArray t [col] = AddHeader t col /\
  AddHeaders t [col] = AddHeader t col /\
  rows (AddHeader t col) = rows t /\
  ~ outOfRange (AddHeader t col) (Z.of_nat (length (header t))) /\
  SortBy (AddHeader t col) (Z.of_nat (length (header t))) cmpFn = None.
Proof.
  intros Hfit Hrows.
  split; [by rewrite AddHeadersAsArray_app|]. split; [done|]. split; [done|].
  assert (Hin : ~ outOfRange (AddHeader t col) (Z.of_nat (length (header t)))).
  { unfold outOfRange. simpl. rewrite length_app. simpl. lia. }
  split; [exact Hin|].
  destruct (rows t) as [|r0 [|r1 rest]] eqn:Hr; simpl in Hrows; [lia|lia|].
  apply (SortBy_short_row_panics _ _ _ r0 r1 rest Hin); [done|].
  left. rewrite Nat2Z.id. unfold rowsFit in Hfit. rewrite Hr in Hfit.
  by apply Forall_cons in Hfit as [? _].
Qed.

Section OneLine.
Context {value : Type} (Sprint : value -> string).

Lemma Split_single (s : string) (sep : ascii) :
  GoStrings.Count s sep = 0%nat -> GoStrings.Split s sep = [s].
Proof.
  induction s as [|c s IH]; simpl; [done|].
  destruct (Ascii.eqb c sep); [done|]. intros H. by rewrite IH.
Qed.

Lemma TableGo_fillRow_length (C i : nat) (vals : list value) (row : list string) :
  length (TableGo.fillRow Sprint C i vals row) = length row.
Proof.
  revert i row. induction vals as [|v vals IH]; intros i row; simpl; [done|].
  case_decide; [done|]. by rewrite IH, length_insert.
Qed.

Lemma TableGo_fillRow_lookup (C i : nat) (vals : list value) (row : list string)
    (c : nat) :
  length row = C -> (c < C)%nat ->
  TableGo.fillRow Sprint C i vals row !! c =
    if decide (i <= c)%nat then
      match vals !! (c - i)%nat with
      | Some val => Some (Sprint val)
      | None => row !! c
      end
    else row !! c.
Proof.
  revert i row. induction vals as [|v vals IH]; intros i row Hlen Hc; simpl.
  - by case_decide.
  - case_decide as Hi.
    + by rewrite decide_False by lia.
    + rewrite IH by (by rewrite ?length_insert).
      destruct (decide (i = c)) as [->|Hne].
      * rewrite decide_False by lia. rewrite decide_True by lia.
        rewrite Nat.sub_diag. simpl. by rewrite list_lookup_insert_eq by lia.
      * rewrite list_lookup_insert_ne by done.
        case_decide as H1; case_decide as H2; try lia; [|done].
        by replace (c - i)%nat with (S (c - S i)) by lia.
Qed.

Lemma oneLineRow_lookup (C : nat) (vals : list value) (c : nat) :
  (c < C)%nat ->
  oneLineRow Sprint C vals !! c =
    Some (match vals !! c with Some val => Sprint val | None => EmptyString end).
Proof.
  intros Hc. unfold oneLineRow. rewrite lookup_take_lt by done.
  destruct (vals !! c) as [val|] eqn:Hval.
  - rewrite lookup_app_l by (rewrite length_fmap; by eapply lookup_lt_Some).
    by rewrite list_lookup_fmap, Hval.
  - apply lookup_ge_None in Hval.
    rewrite lookup_app_r by (by rewrite length_fmap).
    rewrite length_fmap. apply lookup_replicate_2. lia.
Qed.

Lemma oneLineRow_length (C : nat) (vals : list value) :
  length (oneLineRow Sprint C vals) = C.
Proof.
  unfold oneLineRow. rewrite length_take, length_app, length_replicate. lia.
Qed.

Lemma TableGo_fillRow_oneLine (C : nat) (vals : list value) :
  TableGo.fillRow Sprint C 0 vals (replicate C EmptyString) = oneLineRow Sprint C vals.
Proof.
  apply list_eq. intros c. destruct (decide (c < C)%nat) as [Hc|Hc].
  - rewrite TableGo_fillRow_lookup by (by rewrite ?length_replicate).
    rewrite oneLineRow_lookup by done. rewrite decide_True by lia.
    rewrite Nat.sub_0_r. destruct (vals !! c); [done|].
    by apply lookup_replicate_2.
  - rewrite !lookup_ge_None_2; [done| |].
    + rewrite oneLineRow_length. lia.
    + rewrite TableGo_fillRow_length, length_replicate. lia.
Qed.

Lemma fillRow_oneLine (C : nat) (vals : list value) :
  Forall (fun val => lineBreaks Sprint val = 0%nat) vals ->
  fillRow Sprint C 0 0 vals (replicate C EmptyString) = oneLineRow Sprint C vals.
Proof.
  intros Hone. apply list_eq. intros c. destruct (decide (c < C)%nat) as [Hc|Hc].
  - rewrite fillRow_lookup by (by rewrite ?length_replicate).
    rewrite oneLineRow_lookup by done. rewrite decide_True by lia.
    rewrite Nat.sub_0_r. destruct (vals !! c) as [val|] eqn:Hval.
    + f_equal. unfold lineOf. rewrite Split_single; [done|].
      rewrite Forall_forall in Hone. apply Hone.
      by eapply list_elem_of_lookup_2.
    + by apply lookup_replicate_2.
  - rewrite !lookup_ge_None_2; [done| |].
    + rewrite oneLineRow_length. lia.
    + rewrite fillRow_length, length_replicate. lia.
Qed.

End OneLine.

(** X17. The [AddRow] of src/table.go appends one row whatever the values
    are: the values' text, padded with empty cells or cut to the header's
    length, a line break staying inside its cell.  When no value holds a
    line break, the later [AddRow], which splits values into lines, appends
    a single row too, with the same cells. *)
Theorem AddRow_one_line {value : Type} (Sprint : value -> string)
    (t : table) (t0 : TableGo.table) (vals : list value) :
  TableGo.rows (TableGo.AddRow Sprint t0 vals)
    = TableGo.rows t0 ++ [oneLineRow Sprint (length (TableGo.header t0)) vals] /\
  (Forall (fun val => lineBreaks Sprint val = 0%nat) vals ->
   rows (AddRow Sprint t vals)
     = rows t ++ [oneLineRow Sprint (length (header t)) vals]).
Proof.
  split.
  - unfold TableGo.AddRow. simpl. by rewrite TableGo_fillRow_oneLine.
  - intros Hone. unfold AddRow, AddRowAsArray. simpl.
    rewrite appendLines_app, maxNumNewlines_max_list.
    assert (Hmax : max_list (lineBreaks Sprint <$> vals) = 0%nat).
    { induction Hone as [|val vals Hval _ IH]; csimpl; [done|]. lia. }
    rewrite Hmax. csimpl. by rewrite fillRow_oneLine, app_nil_r.
Qed.

(** ** Exporting as CSV *)

Lemma copy_padTo (C : nat) (row : list string) :
  (length row < C)%nat -> copy (replicate C EmptyString) row = padTo C row.
Proof.
  intros Hlen. unfold copy, padTo. rewrite length_replicate.
  rewrite Nat.min_r by lia. rewrite take_ge by lia.
  by rewrite drop_replicate.
Qed.

Lemma padTo_long (C : nat) (row : list string) :
  (C <= length row)%nat -> padTo C row = row.
Proof.
  intros Hlen. unfold padTo. replace (C - length row)%nat with 0%nat by lia.
  apply app_nil_r.
Qed.

Lemma writeRows_feed {csvWriter : Type}
    (Write : csvWriter -> list string -> csvWriter * option error)
    (C : nat) (rs : list (list string)) (writer : csvWriter) (i : nat) :
  writeRows Write C rs writer =
  let (writer', r) := feed Write (padTo C <$> rs) writer (S i) in
  (writer', (fun p => FailedToWriteRow p.2) <$> r).
Proof.
  revert writer i. induction rs as [|row rs IH]; intros writer i; csimpl; [done|].
  assert (Hrow : (if decide (length row < C)%nat
                  then copy (replicate C EmptyString) row else row) = padTo C row).
  { case_decide; [by apply copy_padTo|]. symmetry. apply padTo_long. lia. }
  rewrite Hrow. destruct (Write writer (padTo C row)) as [writer1 [e|]]; simpl; [done|].
  apply (IH writer1 (S i)).
Qed.

Lemma feed_index {csvWriter : Type}
    (Write : csvWriter -> list string -> csvWriter * option error)
    (recs : list (list string)) (writer writer' : csvWriter) (i k : nat) (e : error) :
  feed Write recs writer i = (writer', Some (k, e)) -> (i <= k)%nat.
Proof.
  revert writer i. induction recs as [|r recs IH]; intros writer i; simpl; [done|].
  destruct (Write writer r) as [w1 [e1|]].
  - intros [= _ <- _]. lia.
  - intros H. apply IH in H. lia.
Qed.

(** X18. [ExportCSV] hands the writer the header and then every stored row,
    a row shorter than the header filled up with empty fields and a longer
    one as it is, and stops at the first [Write] that fails; the error tells
    a failed header from a failed row; [Flush] runs last on every path, and
    what it does has no part in the error returned. *)
Theorem ExportCSV_records {csvWriter : Type}
    (Write : csvWriter -> list string -> csvWriter * option error)
    (Flush : csvWriter -> csvWriter) (Error : csvWriter -> option error)
    (t : table) (writer : csvWriter) :
  (let (writer', r) :=
     feed Write (header t :: (padTo (length (header t)) <$> rows t)) writer 0 in
   ExportCSV Write Flush Error t writer =
   (Flush writer',
    match r with
    | Some (O, e) => Some (FailedToWriteHeader e)
    | Some (S _, e) => Some (FailedToWriteRow e)
    | None => ErrorWhileWriting <$> Error writer'
    end)) /\
  (forall Flush' : csvWriter -> csvWriter,
     snd (ExportCSV Write Flush' Error t writer)
     = snd (ExportCSV Write Flush Error t writer)).
Proof.
  assert (Hrun : forall F : csvWriter -> csvWriter,
    let (writer', r) :=
      feed Write (header t :: (padTo (length (header t)) <$> rows t)) writer 0 in
    ExportCSV Write F Error t writer =
    (F writer',
     match r with
     | Some (O, e) => Some (FailedToWriteHeader e)
     | Some (S _, e) => Some (FailedToWriteRow e)
     | None => ErrorWhileWriting <$> Error writer'
     end)).
  { intros F. unfold ExportCSV. simpl.
    destruct (Write writer (header t)) as [writer1 [e|]]; [done|].
    rewrite (writeRows_feed Write _ _ writer1 0).
    destruct (feed Write _ writer1 1) as [writer2 [[i e]|]] eqn:Hfeed; simpl.
    - apply feed_index in Hfeed. destruct i as [|i]; [lia|done].
    - by destruct (Error writer2). }
  split; [apply Hrun|]. intros Flush'.
  pose proof (Hrun Flush) as H1. pose proof (Hrun Flush') as H2.
  destruct (feed Write _ writer 0) as [writer' r].
  by rewrite H1, H2.
Qed.

(** ** src/table.go against the later [Print] *)

Section Earlier.
Variable displayWidth : WidthFunc.

Lemma TableGo_widen (t0 : TableGo.table) (i : nat) (cells : list string) (ws : list Z) :
  TableGo.widen displayWidth t0 i cells ws = widen (later displayWidth t0) i cells ws.
Proof.
  revert i ws. induction cells as [|v cells IH]; intros i ws; simpl; [done|].
  destruct (ws !! i) as [cur|]; simpl; [|done].
  destruct (if _ <? _ then _ else _); simpl; [|done]. apply IH.
Qed.

Lemma TableGo_widenRows (t0 : TableGo.table) (rs : list (list string)) (ws : list Z) :
  TableGo.widenRows displayWidth t0 rs ws = widenRows (later displayWidth t0) rs ws.
Proof.
  revert ws. induction rs as [|row rs IH]; intros ws; simpl; [done|].
  rewrite TableGo_widen. destruct (widen _ 0 row ws); simpl; [|done]. apply IH.
Qed.

Lemma TableGo_calculateWidths (t0 : TableGo.table) :
  TableGo.calculateWidths displayWidth t0
  = earlier <$> calculateWidths (later displayWidth t0).
Proof.
  unfold TableGo.calculateWidths, calculateWidths. simpl.
  rewrite TableGo_widenRows.
  destruct (widenRows _ _ _) as [ws1|]; simpl; [|done].
  rewrite TableGo_widen. by destruct (widen _ 0 _ ws1).
Qed.

Lemma TableGo_applyWidthsFrom (t : table) (i : nat) (row : list string) (ws : list Z) :
  Width t = displayWidth ->
  TableGo.applyWidthsFrom displayWidth i row ws = applyWidthsFrom t i row ws.
Proof.
  intros HW. revert i. induction row as [|s row IH]; intros i; simpl; [done|].
  destruct (ws !! i) as [w|]; simpl; [|done]. rewrite IH.
  destruct (applyWidthsFrom t (S i) row ws); simpl; [|done].
  unfold TableGo.lenOffset, lenOffset. by rewrite HW.
Qed.

Lemma TableGo_printRows (t : table) (format : string) (i : nat)
    (rs : list (list string)) :
  Width t = displayWidth -> StandoutFormatter t = None ->
  TableGo.printRows displayWidth (earlier t) format rs = printRows t format i rs.
Proof.
  intros HW Hso. revert i. induction rs as [|row rs IH]; intros i; simpl; [done|].
  rewrite (IH (S i)).
  unfold TableGo.printRow, printRow, TableGo.applyWidths, applyWidths. simpl.
  rewrite (TableGo_applyWidthsFrom t) by done. rewrite Hso.
  destruct (applyWidthsFrom t 0 row (widths t)) as [vals|]; simpl; [|done].
  destruct (match FirstColumnFormatter t with Some _ => _ | None => _ end)
    as [vals1|]; simpl; [|done].
  by destruct (_ =? _)%nat.
Qed.

End Earlier.

(** X19. The [Print] of src/table.go writes a line break on its own and
    then exactly what the later [Print] writes for the same header, rows,
    padding and formatters when the later options are off (headers printed,
    no separator, no standout formatter) and the width function is
    [displayWidth]; it computes the same widths and faults on the same
    tables. *)
Theorem TableGo_Print_later (displayWidth : WidthFunc) (t0 : TableGo.table) :
  TableGo.Print displayWidth t0 =
  (fun p : table * list string =>
     (earlier p.1, String GoStrings.LF EmptyString :: p.2))
  <$> Print (later displayWidth t0).
Proof.
  unfold TableGo.Print, Print. rewrite TableGo_calculateWidths.
  destruct (calculateWidths (later displayWidth t0)) as [t1|] eqn:Ht1; simpl; [|done].
  pose proof (calculateWidths_shape _ _ Ht1) as Hshape.
  assert (HW : Width t1 = displayWidth) by (by rewrite Hshape).
  assert (Hso : StandoutFormatter t1 = None) by (by rewrite Hshape).
  assert (Hph : PrintHeaders t1 = true) by (by rewrite Hshape).
  assert (Hsep : HeaderSeparatorRune t1 = 0) by (by rewrite Hshape).
  rewrite Hph, Hsep. simpl.
  unfold TableGo.printHeader, printHeader, TableGo.applyWidths, applyWidths. simpl.
  rewrite (TableGo_applyWidthsFrom displayWidth t1) by done.
  destruct (applyWidthsFrom t1 0 (header t1) (widths t1)) as [vals|]; simpl; [|done].
  rewrite (TableGo_printRows displayWidth t1 _ 0) by done.
  assert (Hheader : header (later displayWidth t0) = header t1) by (by rewrite Hshape).
  simpl in Hheader. rewrite Hheader.
  destruct (HeaderFormatter t1); simpl.
  - destruct (printRows t1 _ 0 (rows t1)); simpl; [|done]. done.
  - destruct (printRows t1 _ 0 (rows t1)); simpl; [|done]. done.
Qed.

(** ** An invariant of the tables a program can reach *)

(** X20. However a table is made and changed through the package's
    methods, no stored row is longer than the header and the padding is not
    negative; hence computing the widths never indexes out of range: it
    returns one width per header column. *)
Theorem built_rows_fit {value : Type} (Sprint : value -> string) (t : table) :
  built Sprint t ->
  rowsFit t /\ 0 <= Padding t /\
  exists ws, calculateWidths t = Some (set_widths t ws) /\
             length ws = length (header t).
Proof.
  intros Hbuilt.
  assert (Hinv : rowsFit t /\ 0 <= Padding t).
  { induction Hbuilt as
      [d hs|t p _ [IH1 IH2]|t f _ IH|t r _ IH|t f _ IH|t f _ IH|t f _ IH|t b _ IH
      |t col _ [IH1 IH2]|t cols _ [IH1 IH2]|t cols _ [IH1 IH2]
      |t vals _ [IH1 IH2]|t vals _ [IH1 IH2]|t rs _ [IH1 IH2]
      |t u out _ [IH1 IH2] HP|t n cmpFn u e _ [IH1 IH2] Hs
      |t criteria u e _ [IH1 IH2] Hs|t u _ [IH1 IH2] Hu];
      try exact IH.
    - apply New_rowsFit.
    - split; [exact IH1|apply WithPadding_nonneg].
    - split; [by apply AddHeader_rowsFit|exact IH2].
    - split; [by apply AddHeaders_rowsFit|exact IH2].
    - rewrite AddHeadersAsArray_app. split; [by apply AddHeaders_rowsFit|exact IH2].
    - split; [by apply AddRow_rowsFit|exact IH2].
    - split; [by apply (AddRow_rowsFit Sprint)|exact IH2].
    - split; [apply SetRows_rowsFit|exact IH2].
    - apply Print_widths, calculateWidths_shape in HP. rewrite HP. done.
    - apply SortBy_rearranges in Hs as [-> Hperm]. split; [|exact IH2].
      unfold rowsFit in *. simpl. by rewrite Hperm.
    - apply SortByMultiple_rearranges in Hs as [-> Hperm]. split; [|exact IH2].
      unfold rowsFit in *. simpl. by rewrite Hperm.
    - split; [by eapply Transpose_rowsFit|].
      rewrite (Transpose_config t u Hu). exact IH2. }
  destruct Hinv as [Hfit HP]. split; [exact Hfit|]. split; [exact HP|].
  by apply calculateWidths_completes.
Qed.

(** ** No text is lost by [AddRow] *)

Lemma join_cons (sep x y : string) (l : list string) :
  Fmt.join sep (x :: y :: l) = x +:+ sep +:+ Fmt.join sep (y :: l).
Proof. reflexivity. Qed.

Lemma join_blanks (sep : string) (k : nat) :
  Fmt.join sep (replicate (S k) EmptyString) = GoStrings.repeat_nat sep k.
Proof.
  induction k as [|k IH]; [reflexivity|].
  change (replicate (S (S k)) EmptyString)
    with (EmptyString :: EmptyString :: replicate k EmptyString).
  rewrite join_cons.
  change (EmptyString :: replicate k EmptyString) with (replicate (S k) EmptyString).
  by rewrite IH.
Qed.

Lemma join_then_blanks (sep : string) (l : list string) (k : nat) :
  l <> [] ->
  Fmt.join sep (l ++ replicate k EmptyString)
  = Fmt.join sep l +:+ GoStrings.repeat_nat sep k.
Proof.
  intros Hl. induction l as [|x l IH]; [done|].
  destruct l as [|y l].
  - destruct k as [|k].
    + change (Fmt.join sep [x] = x +:+ EmptyString).
      clear. induction x as [|c x IH]; [reflexivity|].
      change (String c x = String c (x +:+ EmptyString)). by f_equal.
    + change ([x] ++ replicate (S k) EmptyString)
        with (x :: EmptyString :: replicate k EmptyString).
      rewrite join_cons.
      change (EmptyString :: replicate k EmptyString) with (replicate (S k) EmptyString).
      by rewrite join_blanks.
  - change ((x :: y :: l) ++ replicate k EmptyString)
      with (x :: y :: (l ++ replicate k EmptyString)).
    rewrite !join_cons.
    change (y :: l ++ replicate k EmptyString)
      with ((y :: l) ++ replicate k EmptyString).
    rewrite IH by done. by rewrite !append_assoc.
Qed.

Lemma lines_then_blanks (pieces : list string) (n : nat) :
  (length pieces <= n)%nat ->
  (fun i => default EmptyString (pieces !! i)) <$> seq 0 n
  = pieces ++ replicate (n - length pieces) EmptyString.
Proof.
  intros Hlen. apply list_eq. intros i. rewrite list_lookup_fmap.
  destruct (decide (i < n)%nat) as [Hi|Hi].
  - rewrite lookup_seq_lt by done. simpl.
    destruct (pieces !! i) as [p|] eqn:Hp; simpl.
    + rewrite lookup_app_l by (by eapply lookup_lt_Some). by rewrite Hp.
    + apply lookup_ge_None in Hp. rewrite lookup_app_r by done.
      symmetry. apply lookup_replicate_2. lia.
  - rewrite lookup_seq_ge by lia. simpl. symmetry. apply lookup_ge_None.
    rewrite length_app, length_replicate. lia.
Qed.

(** X21. [AddRow] loses no text of a stored value: the cells that the
    appended rows hold in the value's column, joined by line breaks, are the
    value's text, followed by one line break for every row appended beyond
    the value's own lines. *)
Theorem AddRow_keeps_text {value : Type} (Sprint : value -> string)
    (t : table) (vals : list value) (j : nat) (val : value) :
  (j < length (header t))%nat -> vals !! j = Some val ->
  Fmt.join (String GoStrings.LF EmptyString)
    (cellOr j <$> drop (length (rows t)) (rows (AddRow Sprint t vals)))
  = Sprint val
    +:+ GoStrings.repeat_nat (String GoStrings.LF EmptyString)
          (max_list (lineBreaks Sprint <$> vals) - lineBreaks Sprint val).
Proof.
  intros Hj Hval. unfold AddRow, AddRowAsArray.
  rewrite appendLines_app, maxNumNewlines_max_list.
  cbn [rows set_rows]. rewrite drop_app_length.
  set (m := max_list (lineBreaks Sprint <$> vals)).
  set (pieces := GoStrings.Split (Sprint val) GoStrings.LF).
  assert (Hcol : cellOr j <$>
            ((fun i' => fillRow Sprint (length (header t)) i' 0 vals
                          (replicate (length (header t)) EmptyString)) <$> seq 0 (S m))
          = (fun i => default EmptyString (pieces !! i)) <$> seq 0 (S m)).
  { rewrite <- list_fmap_compose. apply list_fmap_ext. intros _ i _. simpl.
    unfold cellOr. rewrite fillRow_lookup by (by rewrite ?length_replicate).
    rewrite decide_True by lia. rewrite Nat.sub_0_r, Hval. done. }
  rewrite Hcol.
  assert (Hbreaks : (lineBreaks Sprint val <= m)%nat).
  { apply max_list_elem_of_le. apply list_elem_of_fmap. exists val.
    split; [done|]. by eapply list_elem_of_lookup_2. }
  assert (Hlen : length pieces = S (lineBreaks Sprint val)) by apply Split_length.
  rewrite lines_then_blanks by lia.
  rewrite join_then_blanks.
  - rewrite Hlen. unfold pieces.
    rewrite (proj2 (Split_pieces (Sprint val) GoStrings.LF)).
    by replace (S m - S (lineBreaks Sprint val))%nat
      with (m - lineBreaks Sprint val)%nat by lia.
  - intros Hnil. by rewrite Hnil in Hlen.
Qed.

(** ** Exporting as JSON after sorting *)

Lemma collect_distinct (hs : list string) (keyColumn : nat) (rs : list (list string))
    (data : gmap string (gmap string string)) (key : string) (m : gmap string string) :
  NoDup (cellOr keyColumn <$> rs) ->
  collect hs keyColumn rs ∅ = Some data ->
  data !! key = Some m <->
  exists row, row ∈ rs /\ row !! keyColumn = Some key /\ m = rowMapFrom 0 hs row ∅.
Proof.
  intros Hnodup Hdata. rewrite (collect_lookup _ _ _ _ _ key m Hdata). split.
  - intros [(i & row & Hi & Hk & Hm & _)|[_ Hm]]; [|done].
    exists row. split; [by eapply list_elem_of_lookup_2|done].
  - intros (row & Hin & Hk & Hm). left.
    apply list_elem_of_lookup in Hin as [i Hi]. exists i, row.
    split; [done|]. split; [done|]. split; [done|].
    intros i' row' Hlt Hi' Hk'.
    assert (Hc : (cellOr keyColumn <$> rs) !! i = Some key).
    { rewrite list_lookup_fmap, Hi. simpl. unfold cellOr. by rewrite Hk. }
    assert (Hc' : (cellOr keyColumn <$> rs) !! i' = Some key).
    { rewrite list_lookup_fmap, Hi'. simpl. unfold cellOr. by rewrite Hk'. }
    pose proof (NoDup_lookup _ _ _ _ Hnodup Hc Hc'). lia.
Qed.

Lemma ExportJSON_rearranged (encodeString : string -> string)
    (Write : string -> option error) (t u : table) (keyColumn : Z) :
  header u = header t -> rows u ≡ₚ rows t ->
  NoDup (cellOr (Z.to_nat keyColumn) <$> rows t) ->
  ExportJSON encodeString Write u keyColumn = ExportJSON encodeString Write t keyColumn.
Proof.
  intros Hheader Hperm Hnodup. unfold ExportJSON. rewrite Hheader.
  destruct (_ || _); [done|].
  set (kc := Z.to_nat keyColumn) in *.
  assert (Hnodup' : NoDup (cellOr kc <$> rows u)) by (by rewrite Hperm).
  destruct (collect (header t) kc (rows t) ∅) as [data|] eqn:Hdata.
  - destruct (collect (header t) kc (rows u) ∅) as [data'|] eqn:Hdata'.
    + assert (Heq : data' = data).
      { apply map_eq. intros key. apply option_eq. intros m.
        rewrite (collect_distinct _ _ _ _ key m Hnodup Hdata).
        rewrite (collect_distinct _ _ _ _ key m Hnodup' Hdata').
        split; intros (row & Hin & H); exists row; (split; [|done]).
        - by rewrite <- Hperm.
        - by rewrite Hperm. }
      by rewrite Heq.
    + apply collect_None in Hdata'. exfalso. apply Hdata'.
      assert (Hcol : hasColumn kc (rows t)).
      { destruct (decide (hasColumn kc (rows t))) as [|Hno]; [done|].
        apply (collect_None (header t) _ _ ∅) in Hno. congruence. }
      unfold hasColumn in *. by rewrite Hperm.
  - apply collect_None in Hdata.
    assert (Hnone : collect (header t) kc (rows u) ∅ = None).
    { apply collect_None. intros Hcol. apply Hdata. unfold hasColumn in *.
      by rewrite <- Hperm. }
    by rewrite Hnone.
Qed.

(** X22. When no two rows share their cell in the key column, sorting the
    table does not change what [ExportJSON] writes and returns: the object
    has one member per row and [json.Marshal] orders the members by key,
    whatever the order of the rows. *)
Theorem ExportJSON_after_sort (encodeString : string -> string)
    (Write : string -> option error) (t : table) (keyColumn : Z) :
  NoDup (cellOr (Z.to_nat keyColumn) <$> rows t) ->
  (forall n cmpFn u e, SortBy t n cmpFn = Some (u, e) ->
     ExportJSON encodeString Write u keyColumn
     = ExportJSON encodeString Write t keyColumn) /\
  (forall criteria u e, SortByMultiple t criteria = Some (u, e) ->
     ExportJSON encodeString Write u keyColumn
     = ExportJSON encodeString Write t keyColumn).
Proof.
  intros Hnodup. split.
  - intros n cmpFn u e Hsort. apply SortBy_rearranges in Hsort as [Hu Hperm].
    apply ExportJSON_rearranged; [by rewrite Hu|done|done].
  - intros criteria u e Hsort.
    apply SortByMultiple_rearranges in Hsort as [Hu Hperm].
    apply ExportJSON_rearranged; [by rewrite Hu|done|done].
Qed.

(** ** The header separator stays within the header cell *)

Lemma length_repeat (s : string) (k : nat) :
  String.length (GoStrings.repeat_nat s k) = (k * String.length s)%nat.
Proof.
  induction k as [|k IH]; [reflexivity|].
  change (GoStrings.repeat_nat s (S k)) with (s +:+ GoStrings.repeat_nat s k).
  rewrite length_append, IH. lia.
Qed.

Lemma separatorCells_within (t : table) (r : string) (hs : list string) :
  r = Utf8.EncodeRune (HeaderSeparatorRune t) ->
  0 < Width t r ->
  Forall (fun h => 0 <= Width t h <= GoInt.max_int) hs ->
  (forall k, Width t (GoStrings.repeat_nat r k) = Z.of_nat k * Width t r) ->
  exists seps, separatorCells t (Width t r) hs = Some seps /\
    Forall2 (fun h s => Width t s <= Width t h < Width t s + Width t r) hs seps.
Proof.
  intros Hr Hw Hfit Hrep. induction Hfit as [|h hs [Hh0 Hhmax] _ (seps & IH & Hall)]; simpl.
  - exists []. split; [done|constructor].
  - unfold GoInt.quo. destruct (Z.eqb_spec (Width t r) 0) as [|_]; [lia|]. simpl.
    rewrite Z.quot_div_nonneg by lia.
    assert (Hq : 0 <= Width t h / Width t r <= Width t h).
    { split; [apply Z.div_pos; lia|]. apply Z.div_le_upper_bound; nia. }
    rewrite wrap_in_range
      by (unfold GoInt.in_range, GoInt.min_int, GoInt.max_int in *; lia).
    unfold GoStrings.Repeat. destruct (Z.ltb_spec (Width t h / Width t r) 0) as [|_]; [lia|].
    simpl. rewrite <- Hr. rewrite IH. simpl. eexists. split; [done|].
    constructor; [|done]. rewrite Hrep, Z2Nat.id by lia.
    pose proof (Z.mul_div_le (Width t h) (Width t r) Hw).
    pose proof (Z.mul_succ_div_gt (Width t h) (Width t r) Hw). lia.
Qed.

(** X24. When the separator rune has a positive width and the width
    function counts a run of the rune as so many times its width, every
    cell of the separator row is at most as wide as the header cell above
    it, and less than one rune short of it: the separator never widens a
    column. *)
Theorem separator_within_header (t : table) :
  0 < Width t (Utf8.EncodeRune (HeaderSeparatorRune t)) ->
  Forall (fun h => 0 <= Width t h <= GoInt.max_int) (header t) ->
  (forall k, Width t (GoStrings.repeat_nat (Utf8.EncodeRune (HeaderSeparatorRune t)) k)
             = Z.of_nat k * Width t (Utf8.EncodeRune (HeaderSeparatorRune t))) ->
  exists seps,
    separatorCells t (Width t (Utf8.EncodeRune (HeaderSeparatorRune t))) (header t)
      = Some seps /\
    Forall2 (fun h s =>
               Width t s <= Width t h
               < Width t s + Width t (Utf8.EncodeRune (HeaderSeparatorRune t)))
            (header t) seps.
Proof.
  intros Hw Hfit Hrep.
  exact (separatorCells_within t _ (header t) eq_refl Hw Hfit Hrep).
Qed.

(** ** The first table against src/table.go *)

Lemma TableOld_printRows (t0 : TableGo.table) (format : string)
    (rs : list (list string)) :
  TableGo.FirstColumnFormatter t0 = None ->
  TableOld.printRows t0 format rs = TableGo.printRows TableOld.byteLen t0 format rs.
Proof.
  intros Hfc. induction rs as [|row rs IH]; simpl; [done|].
  rewrite IH. unfold TableOld.printRow, TableGo.printRow. by rewrite Hfc.
Qed.

Lemma TableGo_applyWidths_length (dw : WidthFunc) (row : list string) (ws : list Z)
    (vals : list string) :
  TableGo.applyWidths dw row ws = Some vals -> length vals = length row.
Proof.
  unfold TableGo.applyWidths.
  rewrite (TableGo_applyWidthsFrom dw
             (later dw {| TableGo.FirstColumnFormatter := None;
                          TableGo.HeaderFormatter := None;
                          TableGo.Padding := 0; TableGo.header := [];
                          TableGo.rows := []; TableGo.widths := [] |})) by done.
  intros H. by apply applyWidthsFrom_zip in H as [_ ?].
Qed.

(** X23. The [Print] of the first table (src/unnamed/part_002) and that of
    src/table.go, with the byte length as metric, write the same and leave
    the same widths when there are as many widths as header columns and no
    first-column formatter is set.  With a formatter they part: the first
    hands it the cell as stored, so that the formatted cell is not padded,
    the later one hands it the padded cell. *)
Theorem TableOld_Print_agrees (t0 : TableGo.table) :
  length (TableGo.widths t0) = length (TableGo.header t0) ->
  (TableGo.FirstColumnFormatter t0 = None ->
   TableOld.Print t0 = TableGo.Print TableOld.byteLen t0) /\
  (forall f format row vals,
     TableGo.FirstColumnFormatter t0 = Some f ->
     TableGo.applyWidths TableOld.byteLen row (TableGo.widths t0) = Some vals ->
     TableOld.printRow t0 format row
       = (fun r0 => [Fmt.Sprintf format (<[0%nat := f "%s" [r0]]> vals)]) <$> row !! 0%nat /\
     TableGo.printRow TableOld.byteLen t0 format row
       = (fun v0 => [Fmt.Sprintf format (<[0%nat := f "%s" [v0]]> vals)]) <$> vals !! 0%nat).
Proof.
  intros Hlen. split.
  - intros Hfc. unfold TableOld.Print, TableGo.Print.
    unfold TableOld.calculateWidths, TableGo.calculateWidths. rewrite Hlen.
    destruct (TableGo.widenRows _ _ _ _) as [ws1|]; simpl; [|done].
    destruct (TableGo.widen _ _ _ _ ws1) as [ws2|]; simpl; [|done].
    destruct (TableGo.printHeader _ _ _) as [head|]; simpl; [|done].
    by rewrite TableOld_printRows.
  - intros f format row vals Hfc Hvals.
    pose proof (TableGo_applyWidths_length _ _ _ _ Hvals) as Hl.
    unfold TableOld.printRow, TableGo.printRow. rewrite Hvals, Hfc. simpl. split.
    + destruct row as [|r0 row]; [done|].
      destruct vals as [|v0 vals]; [simpl in Hl; lia|]. reflexivity.
    + destruct vals as [|v0 vals]; [done|]. reflexivity.
Qed.

(** * The further properties at concrete tables *)

Lemma SortBy_sorts_witness :
  strictWeak StringComparison /\ ~ outOfRange people 1 /\
  hasColumn (Z.to_nat 1) (rows people) /\
  exists u, SortBy people 1 StringComparison = Some (u, None) /\
    ascendingBy (Z.to_nat 1) StringComparison (rows u) /\
    SortBy u 1 StringComparison = Some (u, None).
Proof.
  assert (Hin : ~ outOfRange people 1).
  { unfold outOfRange. simpl. lia. }
  assert (Hcol : hasColumn (Z.to_nat 1) (rows people)).
  { repeat constructor. }
  split; [exact StringComparison_strictWeak|]. split; [exact Hin|].
  split; [exact Hcol|].
  exact (SortBy_sorts people 1 StringComparison StringComparison_strictWeak Hin Hcol).
Defined.

Lemma Numeric_comparators_order_witness :
  NumericalComparison Z.ltb parseDigits "5" "bad" = -1 /\
  NumericalComparison Z.ltb parseDigits "bad" "5" = 1 /\
  (NumericalComparison Z.ltb parseDigits "5" "10" < 0 <-> (5 <? 10) = true) /\
  (NumericalComparison Z.ltb parseDigits "5" "10" < 0 ->
   NumericalComparison Z.ltb parseDigits "5" "bad" < 0 \/
   NumericalComparison Z.ltb parseDigits "bad" "10" < 0).
Proof.
  destruct (Numeric_comparators_order Z.ltb parseDigits)
    as ((_ & Hlast & _ & Hnum & Hweak) & _ & _).
  destruct (Hlast "5" "bad" 5 eq_refl eq_refl) as [H1 H2].
  split; [exact H1|]. split; [exact H2|].
  split; [exact (Hnum "5" "10" 5 10 eq_refl eq_refl)|].
  assert (Hall : forall s : string, forall x : Z, parseDigits s = Some x -> True)
    by done.
  refine (proj2 (Hweak (fun _ => True) _ _) "5" "bad" "10" (Hall _) (Hall _) (Hall _)).
  - intros x y _ _ Hxy. apply Z.ltb_lt in Hxy. apply Z.ltb_ge. lia.
  - intros x y z _ _ _ Hxz. apply Z.ltb_lt in Hxz. rewrite !Z.ltb_lt. lia.
Defined.

Lemma InverseComparison_negates_witness :
  GoInt.in_range (StringComparison "a" "b") /\
  InverseComparison StringComparison "a" "b" = 1 /\
  InverseComparison (InverseComparison StringComparison) "a" "b" = -1.
Proof.
  assert (Hrange : GoInt.in_range (StringComparison "a" "b")).
  { unfold GoInt.in_range. split; evaluated. }
  assert (Hmin : StringComparison "a" "b" <> GoInt.min_int) by evaluated.
  destruct (proj1 (InverseComparison_negates StringComparison "a" "b" Hrange) Hmin)
    as (H1 & H2 & _).
  split; [exact Hrange|]. split; [exact H1|exact H2].
Defined.

Lemma InverseComparison_descending_witness :
  (forall a b, InverseComparison StringComparison a b = StringComparison b a) /\
  strictWeak (InverseComparison StringComparison).
Proof.
  destruct (InverseComparison_descending StringComparison
              StringComparison_threeWay StringComparison_opp) as [Hinv Hweak].
  split; [exact Hinv|exact (Hweak StringComparison_strictWeak)].
Defined.

Lemma Transpose_twice_witness :
  rectangular widgets /\
  exists u, Transpose widgets = Some u /\ rectangular u /\
            Transpose u = Some (set_widths widgets []).
Proof.
  assert (Hrect : rectangular widgets).
  { split; [discriminate|]. repeat constructor. }
  split; [exact Hrect|exact (Transpose_twice widgets Hrect)].
Defined.

Lemma Print_lines_witness :
  exists u,
    Print shortRows
    = Some (u, [line "A  B  "; line "x  %!s(MISSING)"; line "y  %!s(MISSING)"]) /\
    [line "A  B  "; line "x  %!s(MISSING)"; line "y  %!s(MISSING)"]
    = (if PrintHeaders shortRows then [renderedLine u (header shortRows)] else [])
      ++ (renderedLine u <$> rows shortRows).
Proof.
  exists (set_widths shortRows [3; 3]).
  assert (HP : Print shortRows
               = Some (set_widths shortRows [3; 3],
                       [line "A  B  "; line "x  %!s(MISSING)"; line "y  %!s(MISSING)"]))
    by reflexivity.
  split; [exact HP|].
  exact (Print_lines shortRows _ _ HP eq_refl eq_refl eq_refl eq_refl).
Defined.

Lemma Print_aligns_witness :
  metricFits costs /\
  exists u out, Print costs = Some (u, out) /\
    forall cells, cells = header costs \/ cells ∈ rows costs ->
    forall j v, padded u cells !! j = Some v ->
      widths u !! j = Some (Width costs v).
Proof.
  assert (Hmetric : metricFits costs).
  { split; [evaluated|]. repeat constructor; evaluated. }
  split; [exact Hmetric|].
  destruct (Print costs) as [[u out]|] eqn:HP; [|vm_compute in HP; discriminate].
  exists u, out. split; [reflexivity|].
  exact (Print_aligns costs u out HP Hmetric byteLen_blanks).
Defined.

Lemma AddHeader_after_rows_witness :
  rowsFit widgets /\ (2 <= length (rows widgets))%nat /\
  ~ outOfRange (AddHeader widgets "Cost") 2 /\
  SortBy (AddHeader widgets "Cost") 2 StringComparison = None.
Proof.
  assert (Hfit : rowsFit widgets) by (repeat constructor).
  assert (Hrows : (2 <= length (rows widgets))%nat) by (simpl; lia).
  destruct (AddHeader_after_rows widgets "Cost" StringComparison Hfit Hrows)
    as (_ & _ & _ & Hin & Hsort).
  split; [exact Hfit|]. split; [exact Hrows|]. split; [exact Hin|exact Hsort].
Defined.

Lemma AddRow_one_line_witness :
  TableGo.rows (TableGo.AddRow text (earlier widgets) [twoLines; "Baz"; "dropped"])
    = rows widgets ++ [[twoLines; "Baz"]] /\
  rows (AddRow text widgets ["3"; "Baz"; "dropped"])
    = rows widgets ++ [["3"; "Baz"]].
Proof.
  assert (Hone : Forall (fun val => lineBreaks text val = 0%nat)
                   ["3"; "Baz"; "dropped"]) by (repeat constructor).
  split.
  - exact (proj1 (AddRow_one_line text widgets (earlier widgets)
                    [twoLines; "Baz"; "dropped"])).
  - exact (proj2 (AddRow_one_line text widgets (earlier widgets)
                    ["3"; "Baz"; "dropped"]) Hone).
Defined.

Lemma built_rows_fit_witness :
  built text costs /\ rowsFit costs /\ 0 <= Padding costs /\
  exists ws, calculateWidths costs = Some (set_widths costs ws) /\
             length ws = length (header costs).
Proof.
  assert (Hbuilt : built text costs).
  { unfold costs. repeat apply built_AddRow. apply built_New. }
  split; [exact Hbuilt|exact (built_rows_fit text costs Hbuilt)].
Defined.

Lemma AddRow_keeps_text_witness :
  Fmt.join (String GoStrings.LF EmptyString)
    (cellOr 1 <$> drop (length (rows widgets))
                    (rows (AddRow text widgets [twoLines; "x"])))
  = "x" +:+ String GoStrings.LF EmptyString.
Proof.
  exact (AddRow_keeps_text text widgets [twoLines; "x"] 1 "x"
           (Nat.lt_succ_diag_r 1) eq_refl).
Defined.

Lemma ExportJSON_after_sort_witness :
  NoDup (cellOr (Z.to_nat 0) <$> rows people) /\
  ExportJSON quoted (fun _ => None) (set_rows people byAge) 0
  = ExportJSON quoted (fun _ => None) people 0.
Proof.
  assert (Hnodup : NoDup (cellOr (Z.to_nat 0) <$> rows people)).
  { apply (bool_decide_unpack _). vm_compute. exact I. }
  split; [exact Hnodup|].
  exact (proj1 (ExportJSON_after_sort quoted (fun _ => None) people 0 Hnodup)
           1 StringComparison (set_rows people byAge) None eq_refl).
Defined.

Lemma separator_within_header_witness :
  exists seps,
    separatorCells (WithHeaderSeparatorRow costs 45) 1 ["ID"; "Name"; "Cost ($)"]
      = Some seps /\
    Forall2 (fun h s => byteLen s <= byteLen h < byteLen s + 1)
            ["ID"; "Name"; "Cost ($)"] seps.
Proof.
  apply (separator_within_header (WithHeaderSeparatorRow costs 45)).
  - evaluated.
  - repeat constructor; evaluated.
  - intros k. change (byteLen (GoStrings.repeat_nat "-" k) = Z.of_nat k * 1).
    unfold byteLen. rewrite length_repeat. simpl. lia.
Defined.

Lemma TableOld_Print_agrees_witness :
  TableOld.Print
    (TableGo.AddRow text (TableOld.New text 2 ["ID"; "Name"]) ["1"; "Foo"])
  = TableGo.Print TableOld.byteLen
      (TableGo.AddRow text (TableOld.New text 2 ["ID"; "Name"]) ["1"; "Foo"]).
Proof.
  exact (proj1 (TableOld_Print_agrees
                  (TableGo.AddRow text (TableOld.New text 2 ["ID"; "Name"]) ["1"; "Foo"])
                  eq_refl) eq_refl).
Defined.
